(** * Resumable ingestion / merge pipeline of the Spotify playlist merger

    A shallow embedding of [src/fetch.py], [src/03_merge.py],
    [src/storage.py], [src/analyze.py] and [src/01_fetch.py], and the
    properties of the checkpointed fetch, the batched write, the retry
    wrapper, the full-refresh ingestion and the deduplication query. *)

From Stdlib Require Import ZArith Lia Ascii DecimalString.
From stdpp Require Import gmap strings list sorting.

(** ** Exceptions

    [SpotifyException] carries the HTTP status and the headers of the
    response; of the headers only [Retry-After] is read by the code, so
    the header dictionary is its optional integer value.  Every other
    exception is an [Exception] with its message.  [str_exn] is Python's
    [str(e)]. *)

Inductive exn : Type :=
| SpotifyException (http_status : Z) (retry_after : option Z) (msg : string)
| Exception (msg : string).

Definition str_exn (e : exn) : string :=
  match e with
  | SpotifyException _ _ msg => msg
  | Exception msg => msg
  end.

Global Instance exn_eq_dec : EqDecision exn.
Proof. solve_decision. Defined.

(** Python's [str(n)] for a non-negative integer. *)
Definition str_nat (n : nat) : string := NilZero.string_of_uint (Nat.to_uint n).

(** ** The retry wrapper: [robust_api_call] of [src/fetch.py] *)

(** What the wrapper does, in order: an invocation of the wrapped
    function ([Invoke k] is the invocation made by attempt [k]) or a
    [time.sleep] of so many seconds. *)
Inductive retry_event : Type :=
| Invoke (attempt : nat)
| Sleep (seconds : Z).

Global Instance retry_event_eq_dec : EqDecision retry_event.
Proof. solve_decision. Defined.

Section robust_api_call.
Context {A : Type}.

(** The wrapped call of [func] on its arguments: the arguments are the
    same at every attempt, so its outcome at the attempt numbered [k] is
    [func k], a value or a raised exception. *)
Variable func : nat -> A + exn.
Variable max_retries : nat.

(** The body of [for attempt in range(max_retries)], with [remaining]
    iterations still to run from [attempt] on; when the range is
    exhausted the statement after the loop raises. *)
Fixpoint attempts (remaining attempt : nat) : (A + exn) * list retry_event :=
  match remaining with
  | O =>
      (inr (Exception ("Max retries (" +:+ str_nat max_retries +:+ ") exceeded")), [])
  | S remaining' =>
      match func attempt with
      | inl v => (inl v, [Invoke attempt])
      | inr (SpotifyException http_status headers msg) =>
          if (http_status =? 429)%Z then
            let retry_after := default 5%Z headers in
            let '(r, tr) := attempts remaining' (S attempt) in
            (r, Invoke attempt :: Sleep (retry_after + 1) :: tr)
          else if (http_status >=? 500)%Z then
            let wait_time := (2 ^ Z.of_nat attempt + 1)%Z in
            let '(r, tr) := attempts remaining' (S attempt) in
            (r, Invoke attempt :: Sleep wait_time :: tr)
          else
            (inr (SpotifyException http_status headers msg), [Invoke attempt])
      | inr (Exception msg) =>
          let wait_time := (2 ^ Z.of_nat attempt + 1)%Z in
          let '(r, tr) := attempts remaining' (S attempt) in
          (r, Invoke attempt :: Sleep wait_time :: tr)
      end
  end.

Definition robust_api_call : (A + exn) * list retry_event :=
  attempts max_retries 0.

End robust_api_call.

(** The default [max_retries=5]. *)
Definition default_max_retries : nat := 5.

(** The failure classes of the retry policy: the rate-limit signal, the
    server errors, and the upstream HTTP errors that are neither (the
    [else: raise] branch). *)
Definition is_rate_limit (e : exn) : bool :=
  match e with
  | SpotifyException st _ _ => (st =? 429)%Z
  | Exception _ => false
  end.

Definition is_server_error (e : exn) : bool :=
  match e with
  | SpotifyException st _ _ => negb (st =? 429)%Z && (st >=? 500)%Z
  | Exception _ => false
  end.

Definition is_client_error (e : exn) : bool :=
  match e with
  | SpotifyException st _ _ => negb (st =? 429)%Z && negb (st >=? 500)%Z
  | Exception _ => false
  end.

(** How many times a run invoked the wrapped function. *)
Fixpoint invocations (tr : list retry_event) : nat :=
  match tr with
  | [] => 0
  | Invoke _ :: tr' => S (invocations tr')
  | Sleep _ :: tr' => invocations tr'
  end.

(** ** Data model *)

(** An item of a playlist page, as far as the code reads it: the keys
    [track] and [added_at] of the item, and of the track the keys read by
    [store_tracks].  A key that the code reads with [.get] is optional. *)
Record artist : Type := {
  artist_name : string;
  artist_ident : string }.

Record album : Type := {
  album_name : string;
  album_ident : string;
  album_release_date : option string }.

Record track : Type := {
  track_id : option string;
  track_name : string;
  track_artists : list artist;
  track_album : option album;
  track_duration_ms : option Z;
  track_popularity : option Z;
  track_explicit : option bool;
  track_external_ids : option (option string) }.

Record item : Type := {
  item_track : option track;
  item_added_at : option Z }.

(** A row of the table [tracks] of [src/storage.py].  [cols] are the
    eleven columns the deduplication query groups by; a nullable column is
    an [option].  [fetched_at] is filled by its default,
    [CURRENT_TIMESTAMP]. *)
Record track_cols : Type := {
  t_id : string;
  t_name : string;
  t_artist : option string;
  t_artist_id : option string;
  t_album : option string;
  t_album_id : option string;
  t_release_date : option string;
  t_duration_ms : option Z;
  t_popularity : option Z;
  t_explicit : bool;
  t_isrc : option string }.

Record row : Type := {
  cols : track_cols;
  added_at : option Z;
  playlist_source : string;
  fetched_at : nat }.

Global Instance artist_eq_dec : EqDecision artist.
Proof. solve_decision. Defined.
Global Instance album_eq_dec : EqDecision album.
Proof. solve_decision. Defined.
Global Instance track_eq_dec : EqDecision track.
Proof. solve_decision. Defined.
Global Instance item_eq_dec : EqDecision item.
Proof. solve_decision. Defined.
Global Instance track_cols_eq_dec : EqDecision track_cols.
Proof. solve_decision. Defined.
Global Instance row_eq_dec : EqDecision row.
Proof. solve_decision. Defined.

(** A checkpoint file, decoded: the JSON object with the keys that
    [fetch_playlist_tracks] and [add_tracks_to_playlist] write; a key
    that is not in the object is [None]. *)
Record checkpoint : Type := {
  ck_tracks : option (list item);
  ck_next_offset : option nat;
  ck_playlist_id : option string;
  ck_tracks_added : option nat;
  ck_timestamp : option nat;
  ck_complete : option bool;
  ck_error : option string }.

Global Instance checkpoint_eq_dec : EqDecision checkpoint.
Proof. solve_decision. Defined.

(** ** The remote service and the local state *)

(** The requests the code sends through the Spotipy client. *)
Inductive request : Type :=
| CurrentUser
| Playlist (playlist_id : string)
| PlaylistTracks (playlist_id : string) (offset limit : nat)
| PlaylistAddItems (playlist_id : string) (items : list string).

Global Instance request_eq_dec : EqDecision request.
Proof. solve_decision. Defined.

Record page : Type := {
  page_items : list item;
  page_total : nat }.

(** The client [sp]: what each call answers, given every request sent
    before it.  Nothing is assumed of the answers. *)
Record Spotify : Type := {
  sp_current_user : list request -> string + exn;
  sp_playlist : list request -> string -> string + exn;
  sp_playlist_tracks : list request -> string -> nat -> nat -> page + exn;
  sp_playlist_add_items : list request -> string -> list string -> unit + exn }.

(** The state the programs act on: the requests sent so far (oldest
    first), the [time.sleep] calls of the writer in milliseconds, the
    clock read by [datetime.now] and [CURRENT_TIMESTAMP], the checkpoint
    directory and the table [tracks]. *)
Record World : Type := {
  requests : list request;
  sleeps : list nat;
  clock : nat;
  files : gmap string checkpoint;
  tracks : list row }.

Definition set_requests (v : list request) (w : World) : World :=
  {| requests := v; sleeps := sleeps w; clock := clock w; files := files w; tracks := tracks w |}.
Definition set_sleeps (v : list nat) (w : World) : World :=
  {| requests := requests w; sleeps := v; clock := clock w; files := files w; tracks := tracks w |}.
Definition set_clock (v : nat) (w : World) : World :=
  {| requests := requests w; sleeps := sleeps w; clock := v; files := files w; tracks := tracks w |}.
Definition set_files (v : gmap string checkpoint) (w : World) : World :=
  {| requests := requests w; sleeps := sleeps w; clock := clock w; files := v; tracks := tracks w |}.
Definition set_tracks (v : list row) (w : World) : World :=
  {| requests := requests w; sleeps := sleeps w; clock := clock w; files := files w; tracks := v |}.

(** A computation returns, raises, or runs out of the gas its [while]
    loop was given (which the loop of this program never does, see
    [fetch_playlist_tracks_frame]). *)
Inductive result (A : Type) : Type :=
| Return (a : A)
| Raise (e : exn)
| OutOfGas.
Arguments Return {A} a.
Arguments Raise {A} e.
Arguments OutOfGas {A}.

Definition M (A : Type) : Type := World -> result A * World.

Definition ret {A} (a : A) : M A := fun w => (Return a, w).
Definition raise {A} (e : exn) : M A := fun w => (Raise e, w).
Definition bind {A B} (m : M A) (k : A -> M B) : M B :=
  fun w =>
    match m w with
    | (Return a, w') => k a w'
    | (Raise e, w') => (Raise e, w')
    | (OutOfGas, w') => (OutOfGas, w')
    end.

(** [try: m except Exception as e: h e] *)
Definition try_except {A} (m : M A) (h : exn -> M A) : M A :=
  fun w =>
    match m w with
    | (Raise e, w') => h e w'
    | r => r
    end.

Notation "x <- m ;; k" := (bind m (fun x => k))
  (at level 100, m at next level, right associativity).
Notation "m ;;; k" := (bind m (fun _ => k))
  (at level 100, right associativity).

Definition of_sum {A} (r : A + exn) : result A :=
  match r with
  | inl a => Return a
  | inr e => Raise e
  end.

(** A call of the client: the request is sent, then answered. *)
Definition call {A} (rq : request) (answer : list request -> A + exn) : M A :=
  fun w => (of_sum (answer (requests w)), set_requests (requests w ++ [rq]) w).

Definition current_user (sp : Spotify) : M string :=
  call CurrentUser (sp_current_user sp).
Definition playlist (sp : Spotify) (playlist_id : string) : M string :=
  call (Playlist playlist_id) (fun h => sp_playlist sp h playlist_id).
Definition playlist_tracks (sp : Spotify) (playlist_id : string) (offset limit : nat) : M page :=
  call (PlaylistTracks playlist_id offset limit)
       (fun h => sp_playlist_tracks sp h playlist_id offset limit).
Definition playlist_add_items (sp : Spotify) (playlist_id : string) (items : list string) : M unit :=
  call (PlaylistAddItems playlist_id items)
       (fun h => sp_playlist_add_items sp h playlist_id items).

(** [datetime.now()] *)
Definition datetime_now : M nat :=
  fun w => (Return (clock w), set_clock (S (clock w)) w).

(** [time.sleep], in milliseconds *)
Definition time_sleep (ms : nat) : M unit :=
  fun w => (Return tt, set_sleeps (sleeps w ++ [ms]) w).

(** Reading a checkpoint file if it exists: [checkpoint_file.exists()]
    and [json.load]. *)
Definition load_checkpoint (filepath : string) : M (option checkpoint) :=
  fun w => (Return (files w !! filepath), w).

(** [with open(filepath, 'w') as f: json.dump(data, f)], seen from a run
    that is not interrupted: the file holds the new object. *)
Definition json_dump (filepath : string) (data : checkpoint) : M unit :=
  fun w => (Return tt, set_files (<[filepath := data]> (files w)) w).

(** [save_checkpoint] of [src/fetch.py] *)
Definition save_checkpoint (filepath : string) (data : checkpoint) : M unit :=
  json_dump filepath data.

(** ** The paginated fetcher: [fetch_playlist_tracks] of [src/fetch.py] *)

Definition checkpoint_dir : string := "data/checkpoints".

Definition fetch_checkpoint_file (playlist_id : string) : string :=
  checkpoint_dir +:+ "/playlist_" +:+ playlist_id +:+ ".json".

Definition fetch_progress (all_tracks : list item) (next_offset now : nat)
    (complete : bool) (error : option string) : checkpoint :=
  {| ck_tracks := Some all_tracks;
     ck_next_offset := Some next_offset;
     ck_playlist_id := None;
     ck_tracks_added := None;
     ck_timestamp := Some now;
     ck_complete := Some complete;
     ck_error := error |}.

Section fetch.
Variable sp : Spotify.
Variable playlist_id : string.

(** One iteration of the body of [while offset < total]: the [try]
    block and its [except] handler, which saves the buffer with the
    offset of the page that failed and raises again.  It gives back the
    extended buffer. *)
Definition fetch_page (checkpoint_file : string) (offset : nat)
    (all_tracks : list item) : M (list item) :=
  try_except
    (response <- playlist_tracks sp playlist_id offset 100;;
     let batch := page_items response in
     let all_tracks := all_tracks ++ batch in
     (if length all_tracks mod 500 <? 100 then
        now <- datetime_now;;
        save_checkpoint checkpoint_file
          (fetch_progress all_tracks (offset + 100) now false None)
      else ret tt);;;
     ret all_tracks)
    (fun e =>
       now <- datetime_now;;
       save_checkpoint checkpoint_file
         (fetch_progress all_tracks offset now false (Some (str_exn e)));;;
       raise e).

(** [while offset < total], with the gas that bounds its iterations. *)
Fixpoint fetch_pages (checkpoint_file : string) (total gas offset : nat)
    (all_tracks : list item) : M (list item * nat) :=
  if offset <? total then
    match gas with
    | O => fun w => (OutOfGas, w)
    | S gas' =>
        all_tracks <- fetch_page checkpoint_file offset all_tracks;;
        fetch_pages checkpoint_file total gas' (offset + 100) all_tracks
    end
  else ret (all_tracks, offset).

(** From the probe on: lines 52 to 103.  The offset grows by 100 at
    every iteration, so [total] iterations are enough. *)
Definition fetch_from (checkpoint_file : string) (all_tracks : list item)
    (start_offset : nat) : M (list item) :=
  initial <- playlist_tracks sp playlist_id 0 1;;
  let total := page_total initial in
  fetched <- fetch_pages checkpoint_file total total start_offset all_tracks;;
  let '(all_tracks, offset) := fetched in
  now <- datetime_now;;
  save_checkpoint checkpoint_file (fetch_progress all_tracks offset now true None);;;
  ret all_tracks.

Definition fetch_playlist_tracks : M (list item) :=
  let checkpoint_file := fetch_checkpoint_file playlist_id in
  checkpoint_data <- load_checkpoint checkpoint_file;;
  match checkpoint_data with
  | Some checkpoint_data =>
      if negb (default false (ck_complete checkpoint_data)) then
        fetch_from checkpoint_file
          (default [] (ck_tracks checkpoint_data))
          (default 0 (ck_next_offset checkpoint_data))
      else
        ret (default [] (ck_tracks checkpoint_data))
  | None => fetch_from checkpoint_file [] 0
  end.

End fetch.

(** ** The batched writer: [add_tracks_to_playlist] of [src/03_merge.py] *)

Definition write_checkpoint_file (playlist_id : string) : string :=
  checkpoint_dir +:+ "/write_" +:+ playlist_id +:+ ".json".

Definition write_progress (playlist_id : string) (tracks_added now : nat)
    (complete : option bool) (error : option string) : checkpoint :=
  {| ck_tracks := None;
     ck_next_offset := None;
     ck_playlist_id := Some playlist_id;
     ck_tracks_added := Some tracks_added;
     ck_timestamp := Some now;
     ck_complete := complete;
     ck_error := error |}.

(** [f"spotify:track:{tid}" if not tid.startswith("spotify:") else tid] *)
Definition track_uri (tid : string) : string :=
  if negb (String.prefix "spotify:" tid) then "spotify:track:" +:+ tid else tid.

(** [range(0, stop, step)] *)
Definition range_step (stop step : nat) : list nat :=
  (fun k => k * step) <$> seq 0 ((stop + step - 1) / step).

Section write.
Variable sp : Spotify.
Variable playlist_id : string.

(** The body of [for i in range(0, len(remaining_uris), 100)] for one
    [i]: the [try] block and its handler.  It gives back the new count. *)
Definition add_batch (checkpoint_file : string) (remaining_uris : list string)
    (i tracks_added : nat) : M nat :=
  let batch := take 100 (drop i remaining_uris) in
  try_except
    (playlist_add_items sp playlist_id batch;;;
     let tracks_added := tracks_added + length batch in
     now <- datetime_now;;
     json_dump checkpoint_file (write_progress playlist_id tracks_added now None None);;;
     time_sleep 100;;;
     ret tracks_added)
    (fun e =>
       now <- datetime_now;;
       json_dump checkpoint_file
         (write_progress playlist_id tracks_added now None (Some (str_exn e)));;;
       raise e).

Fixpoint add_batches (checkpoint_file : string) (remaining_uris : list string)
    (indices : list nat) (tracks_added : nat) : M nat :=
  match indices with
  | [] => ret tracks_added
  | i :: indices' =>
      tracks_added <- add_batch checkpoint_file remaining_uris i tracks_added;;
      add_batches checkpoint_file remaining_uris indices' tracks_added
  end.

Definition add_tracks_to_playlist (track_ids : list string) : M nat :=
  let checkpoint_file := write_checkpoint_file playlist_id in
  checkpoint_data <- load_checkpoint checkpoint_file;;
  let start_index :=
    match checkpoint_data with
    | Some checkpoint_data =>
        if negb (default false (ck_complete checkpoint_data))
        then default 0 (ck_tracks_added checkpoint_data)
        else 0
    | None => 0
    end in
  let uris := track_uri <$> track_ids in
  let remaining_uris := drop start_index uris in
  match remaining_uris with
  | [] => ret (length track_ids)
  | _ :: _ =>
      tracks_added <- add_batches checkpoint_file remaining_uris
                        (range_step (length remaining_uris) 100) start_index;;
      now <- datetime_now;;
      json_dump checkpoint_file
        (write_progress playlist_id tracks_added now (Some true) None);;;
      ret tracks_added
  end.

End write.

(** ** The canonical store: [SpotifyStorage] of [src/storage.py] *)

(** The values [store_tracks] builds for an item, or nothing when the
    item has no track or its track no id ([not track.get('id')] holds of
    a missing id and of the empty string). *)
Definition row_values (playlist_source : string) (it : item)
    : option (track_cols * option Z * string) :=
  match item_track it with
  | None => None
  | Some tr =>
      match track_id tr with
      | None => None
      | Some tid =>
          if decide (tid = "") then None
          else
            Some ({| t_id := tid;
                     t_name := track_name tr;
                     t_artist := artist_name <$> head (track_artists tr);
                     t_artist_id := artist_ident <$> head (track_artists tr);
                     t_album := album_name <$> track_album tr;
                     t_album_id := album_ident <$> track_album tr;
                     t_release_date := track_album tr ≫= album_release_date;
                     t_duration_ms := track_duration_ms tr;
                     t_popularity := track_popularity tr;
                     t_explicit := default false (track_explicit tr);
                     t_isrc := default None (track_external_ids tr) |},
                  item_added_at it, playlist_source)
      end
  end.

(** [INSERT INTO tracks (...) SELECT * FROM df]: the rows are appended,
    [fetched_at] taking [CURRENT_TIMESTAMP]. *)
Definition stamp_rows (now : nat) (rows : list (track_cols * option Z * string)) : list row :=
  (fun v => {| cols := v.1.1; added_at := v.1.2;
               playlist_source := v.2; fetched_at := now |}) <$> rows.

Definition insert_tracks (rows : list (track_cols * option Z * string)) : M unit :=
  fun w =>
    (Return tt,
     set_clock (S (clock w)) (set_tracks (tracks w ++ stamp_rows (clock w) rows) w)).

Definition store_tracks (fetched : list item) (playlist_source : string) : M unit :=
  let rows := omap (row_values playlist_source) fetched in
  match rows with
  | [] => ret tt
  | _ :: _ => insert_tracks rows
  end.

(** [DELETE FROM tracks] *)
Definition clear_tracks : M unit :=
  fun w => (Return tt, set_tracks [] w).

(** ** The ingestion run: [main] of [src/01_fetch.py]

    The playlist ids are those read from the file named on the command
    line.  Printing is left out. *)
Section ingest.
Variable sp : Spotify.

(** The body of the loop over the playlists: whatever is raised is
    printed and the loop goes on. *)
Definition ingest_playlist (playlist_id : string) : M unit :=
  try_except
    (playlist_info <- playlist sp playlist_id;;
     fetched <- fetch_playlist_tracks sp playlist_id;;
     store_tracks fetched playlist_id)
    (fun e => ret tt).

Fixpoint ingest_playlists (playlist_ids : list string) : M unit :=
  match playlist_ids with
  | [] => ret tt
  | playlist_id :: rest =>
      ingest_playlist playlist_id;;;
      ingest_playlists rest
  end.

Definition ingest_main (playlist_ids : list string) : M unit :=
  user <- current_user sp;;
  clear_tracks;;;
  ingest_playlists playlist_ids.

End ingest.

(** ** The deduplication query: [get_deduplicated_tracks] of [src/analyze.py] *)

(** A row of the result: the eleven grouped columns and [MAX(added_at)]. *)
Record dedup_row : Type := {
  d_cols : track_cols;
  d_added_at : option Z }.

Global Instance dedup_row_eq_dec : EqDecision dedup_row.
Proof. solve_decision. Defined.

(** SQL's [MAX] skips NULL and is NULL on no value. *)
Definition sql_max (a b : option Z) : option Z :=
  match a, b with
  | Some x, Some y => Some (Z.max x y)
  | Some x, None => Some x
  | None, _ => b
  end.

Definition max_added_at (rs : list row) : option Z :=
  foldr sql_max None (added_at <$> rs).

(** The rows of the table in the group of the key [k]. *)
Definition group_of (k : track_cols) (table : list row) : list row :=
  filter (fun r => cols r = k) table.

(** [GROUP BY id, name, artist, artist_id, album, album_id, release_date,
    duration_ms, popularity, explicit, isrc] with [MAX(added_at)]: one
    row for every distinct value of the eleven columns. *)
Definition group_by_cols (table : list row) : list dedup_row :=
  (fun k => {| d_cols := k; d_added_at := max_added_at (group_of k table) |})
    <$> remove_dups (cols <$> table).

(** [ORDER BY name, artist], ascending, byte order on the strings, NULL
    last. *)
Definition nulls_last_leb (a b : option string) : bool :=
  match a, b with
  | Some x, Some y => String.leb x y
  | Some _, None => true
  | None, Some _ => false
  | None, None => true
  end.

Definition order_leb (a b : dedup_row) : bool :=
  match String.compare (t_name (d_cols a)) (t_name (d_cols b)) with
  | Lt => true
  | Gt => false
  | Eq => nulls_last_leb (t_artist (d_cols a)) (t_artist (d_cols b))
  end.

Definition order_le (a b : dedup_row) : Prop := Is_true (order_leb a b).

Global Instance order_le_dec : RelDecision order_le.
Proof. intros a b. unfold order_le. apply _. Defined.

(** [DISTINCT ON (id)]: of the rows in order, the first of every id. *)
Fixpoint distinct_on_id (seen : list string) (rows : list dedup_row) : list dedup_row :=
  match rows with
  | [] => []
  | r :: rows' =>
      if decide (t_id (d_cols r) ∈ seen) then distinct_on_id seen rows'
      else r :: distinct_on_id (t_id (d_cols r) :: seen) rows'
  end.

(** The query: group, order, keep the first row of every id.  Among rows
    of one id that tie on name and artist the database may keep any; the
    model keeps the one the stable sort puts first. *)
Definition get_deduplicated_tracks (table : list row) : list dedup_row :=
  distinct_on_id [] (merge_sort order_le (group_by_cols table)).

(** ** Checkpoint files on disk: [save_checkpoint] of [src/fetch.py], step by step

    [open(filepath, 'w')] creates the file or truncates it; [json.dump]
    then writes the text of the object, and leaving the [with] block
    closes the file.  A process that dies in between leaves the file as
    the steps done so far made it.  How much of the text has reached the
    file at such a moment depends on buffering; every prefix is allowed
    for here. *)

(** The value handed to [json.dump]. *)
#[warnings="-register-all"] Inductive json : Type :=
| JNull
| JBool (b : bool)
| JInt (n : Z)
| JString (s : string)
| JList (l : list json)
| JDict (kvs : list (string * json)).

Definition quote : string := String "034"%char EmptyString.
Definition backslash : string := String "092"%char EmptyString.

(** The encoder's escapes of a double quote and of a backslash (the
    strings written here are printable ASCII). *)
Fixpoint json_escape (s : string) : string :=
  match s with
  | EmptyString => EmptyString
  | String c s' =>
      (if decide (c = "034"%char) then backslash +:+ quote
       else if decide (c = "092"%char) then backslash +:+ backslash
       else String c EmptyString) +:+ json_escape s'
  end.

Definition json_string (s : string) : string := quote +:+ json_escape s +:+ quote.

Fixpoint join (sep : string) (l : list string) : string :=
  match l with
  | [] => ""
  | [x] => x
  | x :: l' => x +:+ sep +:+ join sep l'
  end.

(** [json.dumps] with its default separators. *)
Fixpoint json_dumps (j : json) : string :=
  match j with
  | JNull => "null"
  | JBool true => "true"
  | JBool false => "false"
  | JInt n => NilZero.string_of_int (Z.to_int n)
  | JString s => json_string s
  | JList l => "[" +:+ join ", " (map json_dumps l) +:+ "]"
  | JDict kvs =>
      "{" +:+ join ", " (map (fun kv => json_string kv.1 +:+ ": " +:+ json_dumps kv.2) kvs) +:+ "}"
  end.

(** The checkpoint directory as text files. *)
Abbreviation disk := (gmap string string).

Inductive disk_step : Type :=
| OpenW (filepath : string)
| WriteChar (filepath : string) (c : ascii).

Definition do_step (s : disk_step) (d : disk) : disk :=
  match s with
  | OpenW filepath => <[filepath := ""]> d
  | WriteChar filepath c =>
      <[filepath := default "" (d !! filepath) +:+ String c EmptyString]> d
  end.

Definition do_steps (steps : list disk_step) (d : disk) : disk :=
  foldl (fun d s => do_step s d) d steps.

Definition save_checkpoint_steps (filepath : string) (data : json) : list disk_step :=
  OpenW filepath :: (WriteChar filepath <$> String.list_ascii_of_string (json_dumps data)).

(** The save run to its end, and the save of a process that dies after
    [n] steps. *)
Definition save_checkpoint_disk (filepath : string) (data : json) (d : disk) : disk :=
  do_steps (save_checkpoint_steps filepath data) d.

Definition interrupted_save (n : nat) (filepath : string) (data : json) (d : disk) : disk :=
  do_steps (take n (save_checkpoint_steps filepath data)) d.

(** What a later load can see of the state [data]: the file holds the
    whole text of [data]. *)
Definition holds_state (d : disk) (filepath : string) (data : json) : Prop :=
  d !! filepath = Some (json_dumps data).


(** ** What the retry wrapper is expected to do on a failed attempt *)

(** The sleep after a failure that is retried. *)
Definition backoff (attempt : nat) (e : exn) : Z :=
  match e with
  | SpotifyException st headers _ =>
      if (st =? 429)%Z then default 5%Z headers + 1 else 2 ^ Z.of_nat attempt + 1
  | Exception _ => 2 ^ Z.of_nat attempt + 1
  end%Z.

(** The events of the attempts [a], ..., [a + k - 1] when each of them
    fails and is retried. *)
Definition failed_attempts {A} (func : nat -> A + exn) (a k : nat) : list retry_event :=
  flat_map (fun i => match func i with
                     | inr e => [Invoke i; Sleep (backoff i e)]
                     | inl _ => []
                     end) (seq a k).

(** ** Queries of [SpotifyStorage]: [get_unique_track_ids] and [get_track_count] *)

(** [SELECT DISTINCT id FROM tracks], as the list of the first column.
    The database gives the distinct ids in no promised order; the model
    gives them in the order [remove_dups] leaves. *)
Definition get_unique_track_ids (table : list row) : list string :=
  remove_dups ((fun r => t_id (cols r)) <$> table).

(** A record of [get_track_count]: the keys [playlist_source], [count]
    and [unique_count]. *)
Record source_count : Type := {
  sc_playlist_source : string;
  sc_count : nat;
  sc_unique_count : nat }.

(** [SELECT playlist_source, COUNT( * ), COUNT(DISTINCT id) FROM tracks
    GROUP BY playlist_source], as a list of records. *)
Definition get_track_count (table : list row) : list source_count :=
  (fun s =>
     let g := filter (fun r => playlist_source r = s) table in
     {| sc_playlist_source := s;
        sc_count := length g;
        sc_unique_count := length (remove_dups ((fun r => t_id (cols r)) <$> g)) |})
    <$> remove_dups (playlist_source <$> table).

(** ** The merge run: [create_master_playlist] and [main] of [src/03_merge.py]

    The creation of a playlist is a call of the client of its own; the
    calls made are kept beside the state, and the answer to one may depend
    on the requests and the creations before it.  What the run prints is
    left out; it gives back the list [created_playlists] of its
    summary. *)

#[warnings="-abstract-large-number"] Definition SPOTIFY_PLAYLIST_LIMIT : nat := 10000.

(** The arguments of [sp.user_playlist_create]. *)
Record creation : Type := {
  cr_user : string;
  cr_name : string;
  cr_public : bool;
  cr_description : string }.

(** The keys of the created playlist the code reads: [id], [name] and
    [external_urls.spotify]. *)
Record created_playlist : Type := {
  pl_id : string;
  pl_name : string;
  pl_url : string }.

(** An entry of [created_playlists]. *)
Record merge_summary : Type := {
  ms_name : string;
  ms_tracks : nat;
  ms_url : string }.

Section merge.
Variable sp : Spotify.
Variable user_playlist_create :
  list request -> list creation -> creation -> created_playlist + exn.
(** [strftime('%Y-%m-%d')] of a reading of the clock *)
Variable strftime : nat -> string.

Definition create_master_playlist (user_id name : string) (description : option string)
    (st : World * list creation) : result created_playlist * (World * list creation) :=
  let '(w, made) := st in
  let '(desc, w) :=
    match description with
    | Some d => if decide (d = "") then
                  ("Merged playlist created on " +:+ strftime (clock w), set_clock (S (clock w)) w)
                else (d, w)
    | None => ("Merged playlist created on " +:+ strftime (clock w), set_clock (S (clock w)) w)
    end in
  let c := {| cr_user := user_id; cr_name := name; cr_public := false;
              cr_description := desc |} in
  (of_sum (user_playlist_create (requests w) made c), (w, made ++ [c])).

(** [track_ids[start_idx:end_idx]] of the part numbered [part]. *)
Definition part_ids (track_ids : list string) (total_unique part : nat) : list string :=
  let start_idx := part * SPOTIFY_PLAYLIST_LIMIT in
  let end_idx := Nat.min ((part + 1) * SPOTIFY_PLAYLIST_LIMIT) total_unique in
  take (end_idx - start_idx) (drop start_idx track_ids).

Definition part_name (playlist_name : string) (num_playlists part : nat) : string :=
  if 1 <? num_playlists
  then playlist_name +:+ " (Part " +:+ str_nat (part + 1) +:+ ")"
  else playlist_name.

(** The loop [for part in range(num_playlists)], over the parts still to
    do. *)
Fixpoint merge_parts (user_id playlist_name : string) (track_ids : list string)
    (total_unique num_playlists : nat) (parts : list nat)
    (created_playlists : list merge_summary) (st : World * list creation)
    : result (list merge_summary) * (World * list creation) :=
  match parts with
  | [] => (Return created_playlists, st)
  | part :: parts' =>
      let batch_ids := part_ids track_ids total_unique part in
      match create_master_playlist user_id (part_name playlist_name num_playlists part) None st with
      | (Return master, (w, made)) =>
          match add_tracks_to_playlist sp (pl_id master) batch_ids w with
          | (Return added, w') =>
              merge_parts user_id playlist_name track_ids total_unique num_playlists parts'
                (created_playlists ++
                   [{| ms_name := pl_name master; ms_tracks := added; ms_url := pl_url master |}])
                (w', made)
          | (Raise e, w') => (Raise e, (w', made))
          | (OutOfGas, w') => (OutOfGas, (w', made))
          end
      | (Raise e, st') => (Raise e, st')
      | (OutOfGas, st') => (OutOfGas, st')
      end
  end.

(** [main], from the loading of the data on.  [skip_confirm] and
    [playlist_name] come from the command line, [confirm] is the answer to
    [Confirm.ask] and [prompt] the answer to [Prompt.ask] given its
    default. *)
Definition merge_main (skip_confirm : bool) (playlist_name : option string)
    (confirm : bool) (prompt : string -> string)
    (st : World * list creation) : result (list merge_summary) * (World * list creation) :=
  let '(w, made) := st in
  let deduped := get_deduplicated_tracks (tracks w) in
  let total_unique := length deduped in
  let track_ids := (fun d => t_id (d_cols d)) <$> deduped in
  let num_playlists :=
    (total_unique + SPOTIFY_PLAYLIST_LIMIT - 1) / SPOTIFY_PLAYLIST_LIMIT in
  if negb skip_confirm && negb confirm then (Return [], st)
  else
    match current_user sp w with
    | (Return user, w) =>
        let '(playlist_name, w) :=
          match playlist_name with
          | Some name =>
              if decide (name = "") then
                let default_name := "Master Library " +:+ strftime (clock w) in
                (if skip_confirm then default_name else prompt default_name,
                 set_clock (S (clock w)) w)
              else (name, w)
          | None =>
              let default_name := "Master Library " +:+ strftime (clock w) in
              (if skip_confirm then default_name else prompt default_name,
               set_clock (S (clock w)) w)
          end in
        merge_parts user playlist_name track_ids total_unique num_playlists
          (seq 0 num_playlists) [] (w, made)
    | (Raise e, w) => (Raise e, (w, made))
    | (OutOfGas, w) => (OutOfGas, (w, made))
    end.

End merge.

(** ** The playlist file: [load_playlist_ids] of [src/01_fetch.py] *)

(** [str.isspace] on the characters of an ASCII text: the controls 9 to
    13 (tab, line feed, vertical tab, form feed, carriage return), the
    separators 28 to 31 and the space. *)
Definition is_space (c : ascii) : bool :=
  let n := nat_of_ascii c in
  (9 <=? n) && (n <=? 13) || (28 <=? n) && (n <=? 32).

Fixpoint lstrip (s : string) : string :=
  match s with
  | EmptyString => EmptyString
  | String c s' => if is_space c then lstrip s' else s
  end.

Fixpoint rstrip (s : string) : string :=
  match s with
  | EmptyString => EmptyString
  | String c s' =>
      match rstrip s' with
      | EmptyString => if is_space c then EmptyString else String c EmptyString
      | r => String c r
      end
  end.

(** [line.strip()] *)
Definition strip (s : string) : string := rstrip (lstrip s).

(** The loop [for line in f] over the lines of the file, each as the
    iteration yields it (with its line end). *)
Fixpoint load_lines (lines : list string) : list string :=
  match lines with
  | [] => []
  | line :: rest =>
      let line := strip line in
      if negb (String.eqb line "") && negb (String.prefix "#" line)
      then line :: load_lines rest
      else load_lines rest
  end.

(** [load_playlist_ids]: the ids of the file, or the exit status 1 when
    the file does not exist ([file] is [None]). *)
Definition load_playlist_ids (file : option (list string)) : list string + nat :=
  match file with
  | None => inr 1
  | Some lines => inl (load_lines lines)
  end.

(** ** The listing of the user's playlists: [get_user_playlists] of [src/auth.py]

    The client's [current_user_playlists] is a call of its own: its
    answer may depend on the offsets asked before.  The [while True] loop
    is given gas. *)

(** The keys of the response the code reads: [items] and [next]. *)
Record playlists_page (P : Type) : Type := {
  pp_items : list P;
  pp_next : option string }.
Arguments pp_items {P} _.
Arguments pp_next {P} _.

(** The truth value of [response['next']]: [None] and the empty string
    are false. *)
Definition has_next {P} (response : playlists_page P) : bool :=
  match pp_next response with
  | Some url => negb (String.eqb url "")
  | None => false
  end.

Section get_user_playlists.
Context {P : Type}.
(** [sp.current_user_playlists(limit=50, offset=offset)], given the
    offsets asked before *)
Variable current_user_playlists : list nat -> nat -> playlists_page P + exn.

Fixpoint playlists_loop (gas limit : nat) (playlists : list P) (offset : nat)
    (asked : list nat) : result (list P) * list nat :=
  match gas with
  | 0 => (OutOfGas, asked)
  | S gas' =>
      match current_user_playlists asked offset with
      | inr e => (Raise e, asked ++ [offset])
      | inl response =>
          let playlists := playlists ++ pp_items response in
          if negb (has_next response) || (limit <=? length playlists)
          then (Return playlists, asked ++ [offset])
          else playlists_loop gas' limit playlists (offset + 50) (asked ++ [offset])
      end
  end.

(** The result and the offsets asked. *)
Definition get_user_playlists (gas limit : nat) : result (list P) * list nat :=
  match playlists_loop gas limit [] 0 [] with
  | (Return playlists, asked) => (Return (take limit playlists), asked)
  | r => r
  end.

End get_user_playlists.

(** ** The audio features: [fetch_audio_features] of [src/fetch.py]

    A feature object is kept abstract; what the code tests of it is its
    truth value, and [None] below stands for a feature that is false
    ([None] or an empty object).  The client's [audio_features] is a call
    of its own: its answer may depend on the batches asked before. *)

(** The object saved in [audio_features.json]; a key that is not in the
    object is [None]. *)
Record features_checkpoint (F : Type) : Type := {
  fc_features : option (gmap string F);
  fc_timestamp : option nat;
  fc_complete : option bool;
  fc_error : option string }.
Arguments fc_features {F} _.
Arguments fc_timestamp {F} _.
Arguments fc_complete {F} _.
Arguments fc_error {F} _.

(** The batches asked so far (oldest first), the clock and the
    checkpoint file. *)
Record FeaturesWorld (F : Type) : Type := {
  fw_asked : list (list string);
  fw_clock : nat;
  fw_file : option (features_checkpoint F) }.
Arguments fw_asked {F} _.
Arguments fw_clock {F} _.
Arguments fw_file {F} _.

Section audio_features.
Context {F : Type}.
Variable audio_features : list (list string) -> list string -> list (option F) + exn.

(** [with open(checkpoint_file, 'w') as f: json.dump({...}, f)], the
    timestamp read from the clock *)
Definition save_features (features : gmap string F) (complete : option bool)
    (error : option string) (w : FeaturesWorld F) : FeaturesWorld F :=
  {| fw_asked := fw_asked w;
     fw_clock := S (fw_clock w);
     fw_file := Some {| fc_features := Some features;
                        fc_timestamp := Some (fw_clock w);
                        fc_complete := complete;
                        fc_error := error |} |}.

(** [for track_id, feature in zip(batch, response): if feature:
    features[track_id] = feature] *)
Definition update_features (features : gmap string F) (batch : list string)
    (response : list (option F)) : gmap string F :=
  foldl (fun features p =>
           match p.2 with
           | Some feature => <[p.1 := feature]> features
           | None => features
           end) features (zip batch response).

(** The body of the loop for one [i]: the [try] block and its handler. *)
Definition features_batch (remaining_ids : list string) (i : nat)
    (features : gmap string F) (w : FeaturesWorld F)
    : (gmap string F + exn) * FeaturesWorld F :=
  let batch := take 100 (drop i remaining_ids) in
  let w1 := {| fw_asked := fw_asked w ++ [batch]; fw_clock := fw_clock w;
               fw_file := fw_file w |} in
  match audio_features (fw_asked w) batch with
  | inl response =>
      let features := update_features features batch response in
      if size features mod 500 <? 100
      then (inl features, save_features features None None w1)
      else (inl features, w1)
  | inr e => (inr e, save_features features None (Some (str_exn e)) w1)
  end.

Fixpoint features_batches (remaining_ids : list string) (indices : list nat)
    (features : gmap string F) (w : FeaturesWorld F)
    : (gmap string F + exn) * FeaturesWorld F :=
  match indices with
  | [] => (inl features, w)
  | i :: indices' =>
      match features_batch remaining_ids i features w with
      | (inl features, w') => features_batches remaining_ids indices' features w'
      | (inr e, w') => (inr e, w')
      end
  end.

Definition fetch_audio_features (track_ids : list string) (w : FeaturesWorld F)
    : (gmap string F + exn) * FeaturesWorld F :=
  let features :=
    match fw_file w with
    | Some checkpoint_data => default ∅ (fc_features checkpoint_data)
    | None => ∅
    end in
  let remaining_ids := filter (fun tid => features !! tid = None) track_ids in
  match remaining_ids with
  | [] => (inl features, w)
  | _ :: _ =>
      match features_batches remaining_ids (range_step (length remaining_ids) 100)
              features w with
      | (inl features, w') => (inl features, save_features features (Some true) None w')
      | (inr e, w') => (inr e, w')
      end
  end.

End audio_features.

(** ** The overlap statistics: [get_overlap_analysis] and the counts of
    [generate_dry_run_report] of [src/analyze.py] *)

(** The common table expression [playlist_ids]: for every id, the array
    of its distinct sources.  The database promises no order of the
    array; the model's is that of [remove_dups]. *)
Definition playlist_ids_cte (table : list row) : list (string * list string) :=
  (fun i => (i, remove_dups (playlist_source
                               <$> filter (fun r => t_id (cols r) = i) table)))
    <$> remove_dups ((fun r => t_id (cols r)) <$> table).

(** The [CASE] expression: [sources[1]] is the first element. *)
Definition location (sources : list string) : string :=
  if 1 <? length sources then "both"
  else if decide (head sources = Some "playlist_1") then "only_p1"
  else "only_p2".

(** The rows of the query: the locations that occur, each with the
    number of ids there. *)
Definition overlap_rows (table : list row) : list (string * nat) :=
  let locations := (fun p => location p.2) <$> playlist_ids_cte table in
  (fun l => (l, length (filter (fun l' => l' = l) locations))) <$> remove_dups locations.

Record overlap : Type := {
  only_p1 : nat;
  only_p2 : nat;
  in_both : nat }.

(** The loop over the rows of the result. *)
Definition get_overlap_analysis (table : list row) : overlap :=
  foldl (fun overlap row =>
           if decide (row.1 = "both") then
             {| only_p1 := only_p1 overlap; only_p2 := only_p2 overlap; in_both := row.2 |}
           else if decide (row.1 = "only_p1") then
             {| only_p1 := row.2; only_p2 := only_p2 overlap; in_both := in_both overlap |}
           else
             {| only_p1 := only_p1 overlap; only_p2 := row.2; in_both := in_both overlap |})
        {| only_p1 := 0; only_p2 := 0; in_both := 0 |} (overlap_rows table).

(** The keys [before], [after], [impact] and [overlap] of the report
    (its weight statistics are left out). *)
Record dry_run_report : Type := {
  playlist_1_entries : Z;
  playlist_2_entries : Z;
  total_entries : Z;
  unique_tracks : Z;
  duplicates_removed : Z;
  report_overlap : overlap }.

(** [counts[counts['playlist_source'] == source]['entries'].iloc[0]],
    0 when no row has the source *)
Definition entries_of (counts : list source_count) (source : string) : Z :=
  match filter (fun c => sc_playlist_source c = source) counts with
  | c :: _ => Z.of_nat (sc_count c)
  | [] => 0
  end.

Definition generate_dry_run_report (table : list row) : dry_run_report :=
  let counts := get_track_count table in
  let p1_entries := entries_of counts "playlist_1" in
  let p2_entries := entries_of counts "playlist_2" in
  let total_unique := Z.of_nat (length (remove_dups ((fun r => t_id (cols r)) <$> table))) in
  let overlap := get_overlap_analysis table in
  {| playlist_1_entries := p1_entries;
     playlist_2_entries := p2_entries;
     total_entries := p1_entries + p2_entries;
     unique_tracks := total_unique;
     duplicates_removed := p1_entries + p2_entries - total_unique;
     report_overlap := overlap |}.

(** ** Vocabulary of the properties and sample data *)

(** The client serves the collection [items] for the playlist: every
    page call answers with the slice asked for and the size of the
    collection. *)
Definition serves (sp : Spotify) (playlist_id : string) (items : list item) : Prop :=
  forall h offset limit,
    sp_playlist_tracks sp h playlist_id offset limit =
      inl {| page_items := take limit (drop offset items); page_total := length items |}.

(** The page calls from [offset] on: [offset], [offset + 100], ... below
    [total]. *)
Definition page_requests (playlist_id : string) (offset total : nat) : list request :=
  (fun i => PlaylistTracks playlist_id (offset + 100 * i) 100)
    <$> seq 0 ((total - offset + 99) / 100).

(** Sample items: the item numbered [n] of a collection. *)
Definition sample_item (n : nat) : item :=
  {| item_track :=
       Some {| track_id := Some ("id" +:+ str_nat n);
               track_name := "Song " +:+ str_nat n;
               track_artists := [{| artist_name := "Band"; artist_ident := "a1" |}];
               track_album := None;
               track_duration_ms := Some 200000%Z;
               track_popularity := Some 50%Z;
               track_explicit := None;
               track_external_ids := None |};
     item_added_at := Some (Z.of_nat n) |}.

Definition sample_items (n : nat) : list item := sample_item <$> seq 0 n.

(** A client that never fails and serves fixed collections. *)
Definition stable_remote (collection : string -> list item) : Spotify :=
  {| sp_current_user := fun _ => inl "user";
     sp_playlist := fun _ playlist_id => inl ("Playlist " +:+ playlist_id);
     sp_playlist_tracks := fun _ playlist_id offset limit =>
       inl {| page_items := take limit (drop offset (collection playlist_id));
              page_total := length (collection playlist_id) |};
     sp_playlist_add_items := fun _ _ _ => inl tt |}.

(** A client that serves [items] but fails with [e] on the page call at
    the offset [fail_offset]. *)
Definition failing_remote (items : list item) (fail_offset : nat) (e : exn) : Spotify :=
  {| sp_current_user := fun _ => inl "user";
     sp_playlist := fun _ playlist_id => inl ("Playlist " +:+ playlist_id);
     sp_playlist_tracks := fun _ _ offset limit =>
       if decide (limit = 100 /\ offset = fail_offset) then inr e
       else inl {| page_items := take limit (drop offset items);
                   page_total := length items |};
     sp_playlist_add_items := fun _ _ _ => inl tt |}.

(** A client whose write fails with [e] when [n] requests have been sent
    before it, and succeeds otherwise. *)
Definition write_fails_after (n : nat) (e : exn) : Spotify :=
  {| sp_current_user := fun _ => inl "user";
     sp_playlist := fun _ playlist_id => inl ("Playlist " +:+ playlist_id);
     sp_playlist_tracks := fun _ _ _ _ => inl {| page_items := []; page_total := 0 |};
     sp_playlist_add_items := fun h _ _ =>
       if decide (length h = n) then inr e else inl tt |}.

(** Nothing sent, no checkpoint, an empty table. *)
Definition empty_world : World :=
  {| requests := []; sleeps := []; clock := 0; files := ∅; tracks := [] |}.

(** The batch the loop cuts at index [i]. *)
Definition batch_at (remaining_uris : list string) (i : nat) : list string :=
  take 100 (drop i remaining_uris).

(** The batches numbered [K], [K + 1], ... of the partition of [uris]
    into batches of 100 in order: those left after [K] batches. *)
Definition remaining_batches (K : nat) (uris : list string) : list (list string) :=
  (fun k => take 100 (drop ((K + k) * 100) uris))
    <$> seq 0 ((length uris + 99) / 100 - K).

(** Sample track ids. *)
Definition sample_ids (n : nat) : list string := (fun k => "id" +:+ str_nat k) <$> seq 0 n.




(** A row stored under the source tag B. *)
Definition other_row : row :=
  {| cols := {| t_id := "x1"; t_name := "Other"; t_artist := Some "Solo";
                t_artist_id := Some "a9"; t_album := None; t_album_id := None;
                t_release_date := None; t_duration_ms := None; t_popularity := None;
                t_explicit := false; t_isrc := None |};
     added_at := Some 1%Z;
     playlist_source := "B";
     fetched_at := 0 |}.

(** The identity of the specification: external identifier, display name
    and primary-artist name. *)
Definition identity (c : track_cols) : string * string * option string :=
  (t_id c, t_name c, t_artist c).

(** [m] is the greatest [added_at] of the rows [rs], NULL when none of
    them has one. *)
Definition is_max_added_at (rs : list row) (m : option Z) : Prop :=
  match m with
  | Some m =>
      (exists r, r ∈ rs /\ added_at r = Some m) /\
      (forall r a, r ∈ rs -> added_at r = Some a -> (a <= m)%Z)
  | None => forall r, r ∈ rs -> added_at r = None
  end.

(** The external identifier of a row of the result. *)
Definition d_id (d : dedup_row) : string := t_id (d_cols d).

(** Sample rows of the table. *)
Definition song (tid name band : string) (popularity : Z) : track_cols :=
  {| t_id := tid; t_name := name; t_artist := Some band; t_artist_id := Some "a1";
     t_album := Some "LP"; t_album_id := Some "b1"; t_release_date := Some "2020";
     t_duration_ms := Some 180000%Z; t_popularity := Some popularity;
     t_explicit := false; t_isrc := None |}.

Definition stored (c : track_cols) (added : Z) (source : string) : row :=
  {| cols := c; added_at := Some added; playlist_source := source; fetched_at := 0 |}.

(** The object [fetch_playlist_tracks] saves, for an empty buffer. *)
Definition fetch_progress_json (next_offset : Z) (complete : bool) : json :=
  JDict [("tracks", JList []); ("next_offset", JInt next_offset);
         ("timestamp", JString "2026-01-01T00:00:00"); ("complete", JBool complete)].

(** The id under which [store_tracks] stores an item: that of its track,
    when the item has a track and the track a non-empty id. *)
Definition item_id (it : item) : option string :=
  match item_track it with
  | Some tr =>
      match track_id tr with
      | Some tid => if decide (tid = "") then None else Some tid
      | None => None
      end
  | None => None
  end.

(** The index at which a write starts, as [add_tracks_to_playlist] reads it
    from the checkpoint of the playlist. *)
Definition write_start_index (w : World) (playlist_id : string) : nat :=
  match files w !! write_checkpoint_file playlist_id with
  | Some ckpt =>
      if negb (default false (ck_complete ckpt)) then default 0 (ck_tracks_added ckpt) else 0
  | None => 0
  end.

(** The fetch of the playlist would replay a complete checkpoint. *)
Definition fetch_complete (w : World) (playlist_id : string) : Prop :=
  exists ckpt, files w !! fetch_checkpoint_file playlist_id = Some ckpt /\
               default false (ck_complete ckpt) = true.

(** The seconds a run of the retry wrapper slept in all. *)
Fixpoint total_sleep (tr : list retry_event) : Z :=
  match tr with
  | [] => 0
  | Invoke _ :: tr' => total_sleep tr'
  | Sleep s :: tr' => s + total_sleep tr'
  end.

(** The offset at which a fetch that does not replay starts paging: the
    cursor of the checkpoint, 0 without a checkpoint. *)
Definition fetch_start_offset (w : World) (playlist_id : string) : nat :=
  match files w !! fetch_checkpoint_file playlist_id with
  | Some ckpt => default 0 (ck_next_offset ckpt)
  | None => 0
  end.

(** The batches the writer cuts when it starts at the index [start]. *)
Definition batches_from (start : nat) (uris : list string) : list (list string) :=
  batch_at (drop start uris) <$> range_step (length (drop start uris)) 100.

(** A client whose writes to the playlist all succeed. *)
Definition accepts_writes (sp : Spotify) (playlist_id : string) : Prop :=
  forall h b, sp_playlist_add_items sp h playlist_id b = inl tt.

(** The URIs of the write requests of a log, in the order sent. *)
Definition added_items (rs : list request) : list string :=
  flat_map (fun rq => match rq with
                      | PlaylistAddItems _ items => items
                      | _ => []
                      end) rs.

(** No write would resume: every write checkpoint is absent, complete,
    or at the count 0. *)
Definition no_write_to_resume (w : World) : Prop :=
  forall playlist_id, write_start_index w playlist_id = 0.

(** A service that creates every playlist asked for, numbering them. *)
Definition sample_create (h : list request) (made : list creation) (c : creation)
    : created_playlist + exn :=
  inl {| pl_id := "pl" +:+ str_nat (length made);
         pl_name := cr_name c;
         pl_url := "https://open.spotify.com/playlist/pl" +:+ str_nat (length made) |}.

(** The number of playlists [main] of [src/03_merge.py] makes for [n]
    ids. *)
Definition num_playlists_for (n : nat) : nat :=
  (n + SPOTIFY_PLAYLIST_LIMIT - 1) / SPOTIFY_PLAYLIST_LIMIT.

(** A table with two copies of one track and one copy of another, and
    nothing else in the state. *)
Definition merge_sample_world : World :=
  set_tracks [stored (song "t1" "One" "Band" 10) 1 "A";
              stored (song "t1" "One" "Band" 10) 2 "B";
              stored (song "t2" "Two" "Band" 20) 3 "A"] empty_world.

(** The line end. *)
Definition newline : string := String "010"%char EmptyString.

(** An id as [load_playlist_ids] gives it: not empty, no comment mark in
    front, no white space at either end. *)
Definition clean_id (i : string) : Prop :=
  i <> "" /\ String.prefix "#" i = false /\ strip i = i.

(** The client lists the playlists [all] of the user: a page holds the
    50 playlists from its offset on, with a link to the next page while
    playlists are left after it. *)
Definition lists_playlists {P} (current_user_playlists : list nat -> nat -> playlists_page P + exn)
    (all : list P) : Prop :=
  forall asked offset,
    current_user_playlists asked offset
    = inl {| pp_items := take 50 (drop offset all);
             pp_next := if offset + 50 <? length all then Some "next" else None |}.

(** The number of calls [get_user_playlists] needs for [limit] of [n]
    playlists. *)
Definition playlist_calls (limit n : nat) : nat :=
  Nat.max 1 ((Nat.min limit n + 49) / 50).

(** The features a run of [fetch_audio_features] starts from: those of
    the checkpoint file, none without a file. *)
Definition features_at_start {F} (w : FeaturesWorld F) : gmap string F :=
  match fw_file w with
  | Some checkpoint_data => default ∅ (fc_features checkpoint_data)
  | None => ∅
  end.

(** What the client answers is what the catalogue [cat] holds: the
    feature of every id of the batch, in order. *)
Definition consistent_features {F}
    (audio_features : list (list string) -> list string -> list (option F) + exn)
    (cat : string -> option F) : Prop :=
  forall asked batch response,
    audio_features asked batch = inl response -> response = cat <$> batch.

(** The client answers every call from the catalogue. *)
Definition serves_features {F}
    (audio_features : list (list string) -> list string -> list (option F) + exn)
    (cat : string -> option F) : Prop :=
  forall asked batch, audio_features asked batch = inl (cat <$> batch).

(** The features known once the catalogue has been asked for [ids]. *)
Definition add_known {F} (cat : string -> option F) (features : gmap string F)
    (ids : list string) : gmap string F :=
  foldl (fun features tid =>
           match cat tid with
           | Some feature => <[tid := feature]> features
           | None => features
           end) features ids.

(** The features a run ends with: those it returns, or those of the
    checkpoint it leaves when it raises. *)
Definition features_at_end {F} (run : (gmap string F + exn) * FeaturesWorld F)
    : option (gmap string F) :=
  match run.1 with
  | inl features => Some features
  | inr _ => fw_file run.2 ≫= fc_features
  end.

(** A sample catalogue: a number for every id that starts with [id]. *)
Definition sample_cat (tid : string) : option nat :=
  if String.prefix "id" tid then Some (String.length tid) else None.

(** A client that answers from the sample catalogue, and one whose call
    fails with [e] when [n] batches have been asked before it. *)
Definition sample_features (asked : list (list string)) (batch : list string)
    : list (option nat) + exn :=
  inl (sample_cat <$> batch).

Definition sample_features_failing (n : nat) (e : exn)
    (asked : list (list string)) (batch : list string) : list (option nat) + exn :=
  if decide (length asked = n) then inr e else inl (sample_cat <$> batch).

(** No batch asked, no checkpoint file. *)
Definition empty_features_world : FeaturesWorld nat :=
  {| fw_asked := []; fw_clock := 0; fw_file := None |}.

(** The distinct sources of an id in the table. *)
Definition sources_of (table : list row) (i : string) : list string :=
  remove_dups (playlist_source <$> filter (fun r => t_id (cols r) = i) table).

(** * Properties *)

(** ** The retry wrapper *)

Section retry_facts.
Context {A : Type}.
Variable func : nat -> A + exn.
Variable max_retries : nat.

Lemma attempts_invocations (remaining attempt : nat) :
  invocations (attempts func max_retries remaining attempt).2 <= remaining.
Proof.
  revert attempt. induction remaining as [|r IH]; intros k; simpl; [lia|].
  destruct (func k) as [v|[st headers msg|msg]]; simpl; [lia| |].
  - destruct (st =? 429)%Z.
    + specialize (IH (S k)). destruct (attempts func max_retries r (S k)). simpl in *. lia.
    + destruct (st >=? 500)%Z; simpl; [|lia].
      specialize (IH (S k)). destruct (attempts func max_retries r (S k)). simpl in *. lia.
  - specialize (IH (S k)). destruct (attempts func max_retries r (S k)). simpl in *. lia.
Qed.

Lemma attempts_all_fail (remaining attempt : nat) :
  (forall k, attempt <= k < attempt + remaining -> exists e, func k = inr e) ->
  exists e, (attempts func max_retries remaining attempt).1 = inr e.
Proof.
  revert attempt. induction remaining as [|r IH]; intros k Hfail; simpl; [eauto|].
  destruct (Hfail k ltac:(lia)) as [e He]. rewrite He.
  assert (Hrest : exists e', (attempts func max_retries r (S k)).1 = inr e').
  { apply IH. intros i Hi. apply Hfail. lia. }
  destruct Hrest as [e' He'].
  destruct e as [st headers msg|msg].
  - destruct (st =? 429)%Z.
    + destruct (attempts func max_retries r (S k)). simpl in *. eauto.
    + destruct (st >=? 500)%Z; simpl; [|eauto].
      destruct (attempts func max_retries r (S k)). simpl in *. eauto.
  - destruct (attempts func max_retries r (S k)). simpl in *. eauto.
Qed.

(** A run whose attempts [a], ..., [a + k - 1] fail with errors that are
    retried sleeps after each and goes on with the attempt [a + k]. *)
Lemma attempts_failed_prefix (k remaining a : nat) :
  (forall i, a <= i < a + k -> exists e, func i = inr e /\ is_client_error e = false) ->
  attempts func max_retries (k + remaining) a =
    ((attempts func max_retries remaining (a + k)).1,
     failed_attempts func a k ++ (attempts func max_retries remaining (a + k)).2).
Proof.
  revert a. induction k as [|k IH]; intros a Hfail.
  - simpl. rewrite Nat.add_0_r. unfold failed_attempts. simpl.
    by destruct (attempts func max_retries remaining a).
  - destruct (Hfail a ltac:(lia)) as (e & He & Hc).
    specialize (IH (S a)). replace (a + S k) with (S a + k) by lia.
    assert (Hrest : forall i, S a <= i < S a + k ->
              exists e, func i = inr e /\ is_client_error e = false).
    { intros i Hi. apply Hfail. lia. }
    specialize (IH Hrest).
    unfold failed_attempts in *. cbn [Nat.add attempts seq flat_map].
    rewrite He, IH. unfold backoff.
    destruct e as [st headers msg|msg]; simpl in Hc |- *.
    + destruct (st =? 429)%Z; simpl in *; [done|].
      destruct (st >=? 500)%Z; simpl in *; [done|discriminate].
    + done.
Qed.

End retry_facts.

(** C9: the wrapped function is invoked at most [max_retries] times (5 by
    default), whatever it raises, and when every attempt fails the wrapper
    raises. *)
Theorem robust_api_call_bounded {A : Type} (func : nat -> A + exn) (max_retries : nat) :
  default_max_retries = 5 /\
  invocations (robust_api_call func max_retries).2 <= max_retries /\
  ((forall k, k < max_retries -> exists e, func k = inr e) ->
   exists e, (robust_api_call func max_retries).1 = inr e).
Proof.
  split; [done|]. split.
  - apply attempts_invocations.
  - intros Hfail. apply attempts_all_fail. intros k Hk. apply Hfail. lia.
Qed.

Lemma robust_api_call_bounded_witness :
  exists e, (robust_api_call (fun _ => inr (Exception "timeout") : unit + exn) 5).1 = inr e.
Proof.
  apply (proj2 (proj2 (robust_api_call_bounded (fun _ => inr (Exception "timeout")) 5))).
  intros k _. eauto.
Defined.

(** C8, as stated, fails: an upstream error with status 403 is neither a
    rate-limit signal nor a server error, and the wrapper raises it after
    the first invocation, without a sleep and without a second attempt. *)
Lemma robust_api_call_client_error_raised_at_once :
  let e := SpotifyException 403 None "Forbidden" in
  let run := robust_api_call (fun _ => inr e : unit + exn) 5 in
  is_rate_limit e = false /\ is_server_error e = false /\
  run = (inr e, [Invoke 0]) /\ invocations run.2 = 1.
Proof. vm_compute. repeat split; reflexivity. Qed.

(** What the run does at the attempt [k] when the attempts before it
    failed and were retried. *)
Lemma robust_api_call_at_attempt {A : Type} (func : nat -> A + exn)
    (max_retries k : nat) :
  k < max_retries ->
  (forall i, i < k -> exists e, func i = inr e /\ is_client_error e = false) ->
  (forall msg, func k = inr (Exception msg) ->
     robust_api_call func max_retries =
       ((attempts func max_retries (max_retries - S k) (S k)).1,
        failed_attempts func 0 k ++ Invoke k :: Sleep (2 ^ Z.of_nat k + 1) ::
          (attempts func max_retries (max_retries - S k) (S k)).2)) /\
  (forall e, func k = inr e -> is_client_error e = true ->
     robust_api_call func max_retries = (inr e, failed_attempts func 0 k ++ [Invoke k])).
Proof.
  intros Hk Hfail. unfold robust_api_call.
  pose proof (attempts_failed_prefix func max_retries k (S (max_retries - S k)) 0) as Hrun.
  replace (k + S (max_retries - S k)) with max_retries in Hrun by lia.
  rewrite Hrun by (intros i Hi; apply Hfail; lia).
  clear Hrun. simpl. split.
  - intros msg He. rewrite He.
    by destruct (attempts func max_retries (max_retries - S k) (S k)).
  - intros e He Hc. rewrite He. destruct e as [st headers msg|msg]; simpl in Hc; [|done].
    destruct (st =? 429)%Z; simpl in *; [done|].
    destruct (st >=? 500)%Z; simpl in *; [done|done].
Qed.

(** C8, amended: when the attempts before [k] failed and were retried, a
    failure of the attempt [k] that is not an upstream HTTP error makes the
    wrapper sleep [2^k + 1] seconds and go on with the next iteration of
    the loop, while an upstream HTTP error whose status is neither 429 nor
    500 or more is raised at once, after no sleep and no further attempt;
    the invocations of a run stay bounded by [max_retries]. *)
Theorem robust_api_call_other_exception {A : Type} (func : nat -> A + exn)
    (max_retries k : nat) :
  k < max_retries ->
  (forall i, i < k -> exists e, func i = inr e /\ is_client_error e = false) ->
  (forall msg, func k = inr (Exception msg) ->
     robust_api_call func max_retries =
       ((attempts func max_retries (max_retries - S k) (S k)).1,
        failed_attempts func 0 k ++ Invoke k :: Sleep (2 ^ Z.of_nat k + 1) ::
          (attempts func max_retries (max_retries - S k) (S k)).2)) /\
  (forall e, func k = inr e -> is_client_error e = true ->
     robust_api_call func max_retries = (inr e, failed_attempts func 0 k ++ [Invoke k])) /\
  invocations (robust_api_call func max_retries).2 <= max_retries.
Proof.
  intros Hk Hfail.
  destruct (robust_api_call_at_attempt func max_retries k Hk Hfail) as [Hretry Hraise].
  split; [exact Hretry|]. split; [exact Hraise|]. apply attempts_invocations.
Qed.

Lemma robust_api_call_other_exception_witness :
  robust_api_call (fun i => if i <? 1 then inr (Exception "reset") else inl tt) 5 =
    (inl tt, [Invoke 0; Sleep 2; Invoke 1]).
Proof.
  destruct (robust_api_call_other_exception
              (fun i => if i <? 1 then inr (Exception "reset") else inl tt) 5 0
              ltac:(lia) ltac:(intros i Hi; lia)) as [H _].
  rewrite (H "reset" eq_refl). reflexivity.
Defined.

(** ** The paginated fetcher *)

Lemma page_requests_done playlist_id offset total :
  total <= offset -> page_requests playlist_id offset total = [].
Proof.
  intros H. unfold page_requests.
  replace (total - offset + 99) with 99 by lia. reflexivity.
Qed.

Lemma page_requests_next playlist_id offset total :
  offset < total ->
  page_requests playlist_id offset total =
    PlaylistTracks playlist_id offset 100 :: page_requests playlist_id (offset + 100) total.
Proof.
  intros H. unfold page_requests.
  assert (Hn : (total - offset + 99) / 100 = S ((total - (offset + 100) + 99) / 100)).
  { destruct (decide (total - offset < 100)) as [Hs|Hs].
    - replace (total - (offset + 100) + 99) with 99 by lia.
      change (99 / 100) with 0.
      symmetry. apply Nat.div_unique with (r := total - offset - 1); lia.
    - replace (total - offset + 99) with (1 * 100 + (total - (offset + 100) + 99)) by lia.
      rewrite Nat.div_add_l by lia. lia. }
  rewrite Hn. cbn [seq fmap list_fmap]. rewrite Nat.mul_0_r, Nat.add_0_r. f_equal.
  rewrite <- fmap_S_seq, <- list_fmap_compose. apply list_fmap_ext.
  intros _ i _. simpl. f_equal. lia.
Qed.

Section fetch_facts.
Variable sp : Spotify.
Variable playlist_id : string.
Variable items : list item.
Hypothesis Hserves : serves sp playlist_id items.

Lemma fetch_page_serves checkpoint_file offset all_tracks w :
  exists w',
    fetch_page sp playlist_id checkpoint_file offset all_tracks w =
      (Return (all_tracks ++ take 100 (drop offset items)), w') /\
    requests w' = requests w ++ [PlaylistTracks playlist_id offset 100] /\
    tracks w' = tracks w.
Proof.
  unfold fetch_page, try_except, bind, playlist_tracks, call. rewrite Hserves. simpl.
  destruct (_ <? 100); simpl; eauto.
Qed.

Lemma fetch_pages_serves checkpoint_file gas : forall offset all_tracks w,
  length items <= offset + gas ->
  all_tracks ++ drop offset items = items ->
  exists w' offset',
    fetch_pages sp playlist_id checkpoint_file (length items) gas offset all_tracks w =
      (Return (items, offset'), w') /\
    requests w' = requests w ++ page_requests playlist_id offset (length items) /\
    tracks w' = tracks w.
Proof.
  induction gas as [|gas IH]; intros offset all_tracks w Hgas Hinv.
  - simpl. destruct (Nat.ltb_spec offset (length items)) as [Hlt|Hge]; [lia|].
    exists w, offset. rewrite page_requests_done, app_nil_r by lia.
    rewrite drop_ge, app_nil_r in Hinv by lia. by subst.
  - cbn [fetch_pages]. destruct (Nat.ltb_spec offset (length items)) as [Hlt|Hge].
    + destruct (fetch_page_serves checkpoint_file offset all_tracks w)
        as (w1 & Hpage & Hreq1 & Htr1).
      unfold bind at 1. rewrite Hpage.
      destruct (IH (offset + 100) (all_tracks ++ take 100 (drop offset items)) w1)
        as (w' & offset' & Hrun & Hreq & Htr).
      { lia. }
      { rewrite <- Hinv at 3. rewrite <- (take_drop 100 (drop offset items)) at 2.
        rewrite drop_drop, <- app_assoc. done. }
      exists w', offset'. rewrite Hrun. split; [done|]. split; [|congruence].
      rewrite Hreq, Hreq1, (page_requests_next _ offset) by done.
      by rewrite <- app_assoc.
    + exists w, offset. rewrite page_requests_done, app_nil_r by lia.
      rewrite drop_ge, app_nil_r in Hinv by lia. by subst.
Qed.

Lemma fetch_from_serves checkpoint_file all_tracks start_offset w :
  all_tracks ++ drop start_offset items = items ->
  exists w' offset now,
    fetch_from sp playlist_id checkpoint_file all_tracks start_offset w = (Return items, w') /\
    requests w' = requests w ++ PlaylistTracks playlist_id 0 1
                    :: page_requests playlist_id start_offset (length items) /\
    files w' !! checkpoint_file = Some (fetch_progress items offset now true None) /\
    tracks w' = tracks w.
Proof.
  intros Hinv. unfold fetch_from, bind at 1, playlist_tracks, call.
  rewrite Hserves. cbn [of_sum page_total].
  destruct (fetch_pages_serves checkpoint_file (length items) start_offset all_tracks
              (set_requests (requests w ++ [PlaylistTracks playlist_id 0 1]) w))
    as (w1 & offset & Hrun & Hreq & Htr); [lia|done|].
  unfold bind at 1. rewrite Hrun. simpl.
  eexists _, offset, (clock w1). split; [reflexivity|]. simpl.
  rewrite Hreq. simpl. rewrite <- app_assoc. simpl.
  split; [done|]. split; [|done]. apply lookup_insert_eq.
Qed.

End fetch_facts.

(** Whatever the client answers, a fetch only adds requests to those
    sent, leaves the table alone and does not run out of gas. *)
Section fetch_frame.
Variable sp : Spotify.
Variable playlist_id : string.

Lemma fetch_page_frame checkpoint_file offset all_tracks w r w' :
  fetch_page sp playlist_id checkpoint_file offset all_tracks w = (r, w') ->
  r <> OutOfGas /\
  requests w' = requests w ++ [PlaylistTracks playlist_id offset 100] /\
  tracks w' = tracks w.
Proof.
  unfold fetch_page, try_except, bind, playlist_tracks, call.
  destruct (sp_playlist_tracks sp (requests w) playlist_id offset 100) as [pg|e]; simpl.
  - destruct (_ <? 100); simpl; intros [= <- <-]; done.
  - intros [= <- <-]; done.
Qed.

Lemma fetch_pages_frame checkpoint_file total gas : forall offset all_tracks w r w',
  total <= offset + gas ->
  fetch_pages sp playlist_id checkpoint_file total gas offset all_tracks w = (r, w') ->
  r <> OutOfGas /\ requests w `prefix_of` requests w' /\ tracks w' = tracks w.
Proof.
  induction gas as [|gas IH]; intros offset all_tracks w r w' Hgas; cbn [fetch_pages].
  - destruct (Nat.ltb_spec offset total); [lia|]. intros [= <- <-]. done.
  - destruct (Nat.ltb_spec offset total); [|intros [= <- <-]; done].
    unfold bind.
    destruct (fetch_page sp playlist_id checkpoint_file offset all_tracks w)
      as [[batch|e|] w1] eqn:Hpage;
      apply fetch_page_frame in Hpage as (Hg & Hreq & Htr).
    + intros Hrun. apply IH in Hrun as (Hg' & Hreq' & Htr'); [|lia].
      split; [done|]. split; [|congruence].
      etrans; [|exact Hreq']. rewrite Hreq. by apply prefix_app_r.
    + intros [= <- <-]. split; [done|]. split; [|done]. rewrite Hreq. by apply prefix_app_r.
    + done.
Qed.

Lemma fetch_from_frame checkpoint_file all_tracks start_offset w r w' :
  fetch_from sp playlist_id checkpoint_file all_tracks start_offset w = (r, w') ->
  r <> OutOfGas /\
  (requests w ++ [PlaylistTracks playlist_id 0 1]) `prefix_of` requests w' /\
  tracks w' = tracks w.
Proof.
  unfold fetch_from, bind at 1, playlist_tracks, call.
  destruct (sp_playlist_tracks sp (requests w) playlist_id 0 1) as [pg|e]; simpl;
    [|intros [= <- <-]; done].
  unfold bind at 1.
  destruct (fetch_pages _ _ _ _ _ _ _ _) as [[[buffer offset]|e|] w1] eqn:Hpages;
    apply fetch_pages_frame in Hpages as (Hg & Hreq & Htr); try lia; simpl in *.
  - unfold bind, datetime_now, save_checkpoint, json_dump, ret. simpl.
    intros [= <- <-]. done.
  - intros [= <- <-]. done.
  - done.
Qed.

Lemma fetch_playlist_tracks_frame w r w' :
  fetch_playlist_tracks sp playlist_id w = (r, w') ->
  r <> OutOfGas /\ requests w `prefix_of` requests w' /\ tracks w' = tracks w.
Proof.
  assert (Hfrom : forall buffer start,
    fetch_from sp playlist_id (fetch_checkpoint_file playlist_id) buffer start w = (r, w') ->
    r <> OutOfGas /\ requests w `prefix_of` requests w' /\ tracks w' = tracks w).
  { intros buffer start Hrun. apply fetch_from_frame in Hrun as (Hg & Hreq & Htr).
    split; [done|]. split; [|done]. etrans; [|exact Hreq]. by apply prefix_app_r. }
  unfold fetch_playlist_tracks, bind at 1, load_checkpoint. simpl.
  destruct (files w !! fetch_checkpoint_file playlist_id) as [ckpt|]; [|apply Hfrom].
  destruct (negb (default false (ck_complete ckpt))); [apply Hfrom|].
  intros [= <- <-]. done.
Qed.

(** Without a complete checkpoint the first request of a fetch is the
    probe of one item. *)
Lemma fetch_playlist_tracks_probe w :
  (forall ckpt, files w !! fetch_checkpoint_file playlist_id = Some ckpt ->
                default false (ck_complete ckpt) = false) ->
  (requests w ++ [PlaylistTracks playlist_id 0 1]) `prefix_of`
    requests (fetch_playlist_tracks sp playlist_id w).2.
Proof.
  intros Hck.
  destruct (fetch_playlist_tracks sp playlist_id w) as [r w'] eqn:Hrun. simpl.
  revert Hrun. unfold fetch_playlist_tracks, bind at 1, load_checkpoint. simpl.
  destruct (files w !! fetch_checkpoint_file playlist_id) as [ckpt|] eqn:Hf.
  - rewrite (Hck ckpt eq_refl). simpl. intros Hrun. by apply fetch_from_frame in Hrun as (_ & ? & _).
  - intros Hrun. by apply fetch_from_frame in Hrun as (_ & ? & _).
Qed.

End fetch_frame.

(** A fetch that returns leaves a complete checkpoint holding what it
    returned. *)
Lemma fetch_from_returns sp playlist_id checkpoint_file all_tracks start_offset w buffer w' :
  fetch_from sp playlist_id checkpoint_file all_tracks start_offset w = (Return buffer, w') ->
  exists offset now,
    files w' !! checkpoint_file = Some (fetch_progress buffer offset now true None).
Proof.
  unfold fetch_from, bind at 1, playlist_tracks, call.
  destruct (sp_playlist_tracks sp (requests w) playlist_id 0 1) as [pg|e]; simpl; [|done].
  unfold bind at 1.
  destruct (fetch_pages _ _ _ _ _ _ _ _) as [[[buffer' offset]|e|] w1]; simpl; [|done|done].
  unfold bind, datetime_now, save_checkpoint, json_dump, ret. simpl.
  intros [= <- <-]. simpl. exists offset, (clock w1). apply lookup_insert_eq.
Qed.

Lemma fetch_playlist_tracks_returns sp playlist_id w buffer w' :
  fetch_playlist_tracks sp playlist_id w = (Return buffer, w') ->
  exists ckpt,
    files w' !! fetch_checkpoint_file playlist_id = Some ckpt /\
    ck_complete ckpt = Some true /\ default [] (ck_tracks ckpt) = buffer.
Proof.
  assert (Hfrom : forall all_tracks start,
    fetch_from sp playlist_id (fetch_checkpoint_file playlist_id) all_tracks start w
      = (Return buffer, w') ->
    exists ckpt,
      files w' !! fetch_checkpoint_file playlist_id = Some ckpt /\
      ck_complete ckpt = Some true /\ default [] (ck_tracks ckpt) = buffer).
  { intros all_tracks start Hrun.
    apply fetch_from_returns in Hrun as (offset & now & Hfile). eauto. }
  unfold fetch_playlist_tracks, bind at 1, load_checkpoint. simpl.
  destruct (files w !! fetch_checkpoint_file playlist_id) as [ckpt|] eqn:Hf; [|apply Hfrom].
  destruct (ck_complete ckpt) as [[|]|] eqn:Hc; simpl; try apply Hfrom.
  intros [= <- <-]. exists ckpt. by rewrite Hc.
Qed.

(** The replay of a complete checkpoint. *)
Lemma fetch_playlist_tracks_complete sp playlist_id w ckpt :
  files w !! fetch_checkpoint_file playlist_id = Some ckpt ->
  ck_complete ckpt = Some true ->
  fetch_playlist_tracks sp playlist_id w = (Return (default [] (ck_tracks ckpt)), w).
Proof.
  intros Hf Hc. unfold fetch_playlist_tracks, bind, load_checkpoint. simpl.
  by rewrite Hf, Hc.
Qed.

(** The run from an incomplete checkpoint whose buffer is the first
    [cursor] items, and the run with no checkpoint, on a client that
    serves [items]. *)
Lemma fetch_playlist_tracks_resume sp playlist_id items w ckpt cursor :
  serves sp playlist_id items ->
  files w !! fetch_checkpoint_file playlist_id = Some ckpt ->
  default false (ck_complete ckpt) = false ->
  default 0 (ck_next_offset ckpt) = cursor ->
  default [] (ck_tracks ckpt) = take cursor items ->
  exists w',
    fetch_playlist_tracks sp playlist_id w = (Return items, w') /\
    requests w' = requests w ++ PlaylistTracks playlist_id 0 1
                    :: page_requests playlist_id cursor (length items) /\
    tracks w' = tracks w.
Proof.
  intros Hserves Hf Hc Hoff Hbuf.
  unfold fetch_playlist_tracks, bind at 1, load_checkpoint. simpl.
  rewrite Hf, Hc, Hoff, Hbuf. simpl.
  destruct (fetch_from_serves sp playlist_id items Hserves
              (fetch_checkpoint_file playlist_id) (take cursor items) cursor w)
    as (w' & offset & now & Hrun & Hreq & _ & Htr); [apply take_drop|].
  eauto.
Qed.

Lemma fetch_playlist_tracks_fresh sp playlist_id items w :
  serves sp playlist_id items ->
  files w !! fetch_checkpoint_file playlist_id = None ->
  exists w',
    fetch_playlist_tracks sp playlist_id w = (Return items, w') /\
    requests w' = requests w ++ PlaylistTracks playlist_id 0 1
                    :: page_requests playlist_id 0 (length items) /\
    tracks w' = tracks w.
Proof.
  intros Hserves Hf.
  unfold fetch_playlist_tracks, bind at 1, load_checkpoint. simpl. rewrite Hf.
  destruct (fetch_from_serves sp playlist_id items Hserves
              (fetch_checkpoint_file playlist_id) [] 0 w)
    as (w' & offset & now & Hrun & Hreq & _ & Htr); [done|].
  eauto.
Qed.

Lemma stable_remote_serves collection playlist_id :
  serves (stable_remote collection) playlist_id (collection playlist_id).
Proof. intros h offset limit. reflexivity. Qed.

(** C5: with a checkpoint marked complete, the fetch returns the buffer of
    the checkpoint in its order and changes nothing: no request is sent,
    no file written. *)
Theorem fetch_complete_replay (sp : Spotify) (playlist_id : string) (w : World)
    (ckpt : checkpoint) :
  files w !! fetch_checkpoint_file playlist_id = Some ckpt ->
  ck_complete ckpt = Some true ->
  fetch_playlist_tracks sp playlist_id w = (Return (default [] (ck_tracks ckpt)), w) /\
  requests (fetch_playlist_tracks sp playlist_id w).2 = requests w /\
  forall sp', fetch_playlist_tracks sp' playlist_id (fetch_playlist_tracks sp playlist_id w).2
              = fetch_playlist_tracks sp playlist_id w.
Proof.
  intros Hf Hc.
  rewrite (fetch_playlist_tracks_complete sp playlist_id w ckpt Hf Hc). simpl.
  split; [done|]. split; [done|]. intros sp'.
  apply (fetch_playlist_tracks_complete sp' playlist_id w ckpt Hf Hc).
Qed.

Lemma fetch_complete_replay_witness :
  let w := set_files {[ fetch_checkpoint_file "p1" :=
                          fetch_progress (sample_items 3) 100 7 true None ]} empty_world in
  fetch_playlist_tracks (stable_remote (fun _ => [])) "p1" w = (Return (sample_items 3), w).
Proof.
  intros w.
  apply (fetch_complete_replay (stable_remote (fun _ => [])) "p1" w
           (fetch_progress (sample_items 3) 100 7 true None)).
  - vm_compute. reflexivity.
  - reflexivity.
Defined.

(** A run interrupted by a failure of the page at offset [fail] leaves
    the checkpoint of the pages before it: cursor [fail], the first [fail]
    items, not complete. *)
Lemma fetch_pages_interrupted playlist_id checkpoint_file items e fail (j : nat) :
  forall gas offset w,
  fail = offset + 100 * j ->
  fail < length items ->
  length items <= offset + gas ->
  exists w' now,
    fetch_pages (failing_remote items fail e) playlist_id checkpoint_file (length items)
      gas offset (take offset items) w = (Raise e, w') /\
    files w' !! checkpoint_file
      = Some (fetch_progress (take fail items) fail now false (Some (str_exn e))).
Proof.
  induction j as [|j IH]; intros gas offset w Hfail Hlt Hgas.
  - assert (offset = fail) as -> by lia.
    destruct gas as [|gas]; [lia|]. cbn [fetch_pages].
    destruct (Nat.ltb_spec fail (length items)); [|lia].
    unfold bind at 1, fetch_page, try_except, bind at 1, playlist_tracks, call.
    cbn [sp_playlist_tracks failing_remote]. rewrite decide_True by done. cbn [of_sum].
    unfold bind, datetime_now, save_checkpoint, json_dump, raise. simpl.
    eexists _, (clock w). split; [reflexivity|]. apply lookup_insert_eq.
  - destruct gas as [|gas]; [lia|]. cbn [fetch_pages].
    destruct (Nat.ltb_spec offset (length items)); [|lia].
    unfold bind at 1, fetch_page, try_except, bind at 1, playlist_tracks, call.
    cbn [sp_playlist_tracks failing_remote]. rewrite decide_False by lia. cbn [of_sum page_items].
    rewrite take_take_drop.
    destruct (_ <? 100); unfold bind, datetime_now, save_checkpoint, json_dump, ret;
      cbn [fst snd]; apply IH; lia.
Qed.

Lemma fetch_interrupted_then_resumed sp2 playlist_id items e (N : nat) w :
  files w !! fetch_checkpoint_file playlist_id = None ->
  N * 100 < length items ->
  serves sp2 playlist_id items ->
  let interrupted := fetch_playlist_tracks (failing_remote items (N * 100) e) playlist_id w in
  let resumed := fetch_playlist_tracks sp2 playlist_id interrupted.2 in
  interrupted.1 = Raise e /\
  resumed.1 = Return items /\
  requests resumed.2 =
    requests interrupted.2 ++ PlaylistTracks playlist_id 0 1
      :: page_requests playlist_id (N * 100) (length items).
Proof.
  intros Hfresh HN Hserves interrupted resumed.
  assert (Hint : exists w1 now,
    interrupted = (Raise e, w1) /\
    files w1 !! fetch_checkpoint_file playlist_id
      = Some (fetch_progress (take (N * 100) items) (N * 100) now false (Some (str_exn e)))).
  { unfold interrupted, fetch_playlist_tracks, bind at 1, load_checkpoint. simpl.
    rewrite Hfresh. unfold fetch_from, bind at 1, playlist_tracks, call.
    cbn [sp_playlist_tracks failing_remote]. rewrite decide_False by lia.
    cbn [of_sum page_total].
    destruct (fetch_pages_interrupted playlist_id (fetch_checkpoint_file playlist_id)
                items e (N * 100) N (length items) 0
                (set_requests (requests w ++ [PlaylistTracks playlist_id 0 1]) w))
      as (w1 & now & Hrun & Hfile); [lia|lia|lia|].
    rewrite take_0 in Hrun. unfold bind. rewrite Hrun. eauto. }
  destruct Hint as (w1 & now & Hrun & Hfile).
  unfold resumed. rewrite Hrun. simpl. split; [done|].
  destruct (fetch_playlist_tracks_resume sp2 playlist_id items w1 _ (N * 100) Hserves Hfile)
    as (w2 & Hres & Hreq & _); [done..|].
  rewrite Hres. done.
Qed.

(** C4: on a client that serves the collection [items] without failing, a
    fetch that finds the incomplete checkpoint left after [N] full pages
    (cursor [N * 100], buffer the first [N * 100] items) sends the probe
    and then the page calls from offset [N * 100] on, and returns what the
    run with no checkpoint returns: [items]. *)
Theorem fetch_resume_equals_uninterrupted (sp : Spotify) (playlist_id : string)
    (items : list item) (N : nat) (w0 w : World) (ckpt : checkpoint) :
  serves sp playlist_id items ->
  N * 100 <= length items ->
  files w0 !! fetch_checkpoint_file playlist_id = None ->
  files w !! fetch_checkpoint_file playlist_id = Some ckpt ->
  ck_complete ckpt = Some false ->
  ck_next_offset ckpt = Some (N * 100) ->
  ck_tracks ckpt = Some (take (N * 100) items) ->
  (fetch_playlist_tracks sp playlist_id w).1 = (fetch_playlist_tracks sp playlist_id w0).1 /\
  (fetch_playlist_tracks sp playlist_id w0).1 = Return items /\
  requests (fetch_playlist_tracks sp playlist_id w).2 =
    requests w ++ PlaylistTracks playlist_id 0 1
      :: page_requests playlist_id (N * 100) (length items).
Proof.
  intros Hserves HN Hf0 Hf Hc Hoff Hbuf.
  destruct (fetch_playlist_tracks_fresh sp playlist_id items w0 Hserves Hf0)
    as (w0' & Hrun0 & _).
  destruct (fetch_playlist_tracks_resume sp playlist_id items w ckpt (N * 100) Hserves Hf)
    as (w' & Hrun & Hreq & _).
  { by rewrite Hc. }
  { by rewrite Hoff. }
  { by rewrite Hbuf. }
  rewrite Hrun, Hrun0. done.
Qed.

Lemma fetch_resume_equals_uninterrupted_witness :
  let sp := stable_remote (fun _ => sample_items 250) in
  let w := set_files {[ fetch_checkpoint_file "p1" :=
                          fetch_progress (sample_items 100) 100 7 false None ]} empty_world in
  (fetch_playlist_tracks sp "p1" w).1 = (fetch_playlist_tracks sp "p1" empty_world).1 /\
  (fetch_playlist_tracks sp "p1" empty_world).1 = Return (sample_items 250) /\
  requests (fetch_playlist_tracks sp "p1" w).2 =
    [PlaylistTracks "p1" 0 1; PlaylistTracks "p1" 100 100; PlaylistTracks "p1" 200 100].
Proof.
  intros sp w.
  apply (fetch_resume_equals_uninterrupted sp "p1" (sample_items 250) 1 empty_world w
           (fetch_progress (sample_items 100) 100 7 false None)).
  - apply (stable_remote_serves (fun _ => sample_items 250)).
  - vm_compute. lia.
  - reflexivity.
  - vm_compute. reflexivity.
  - reflexivity.
  - reflexivity.
  - vm_compute. reflexivity.
Defined.

(** C6, as stated, fails: with 250 items, pages of 100 and an incomplete
    checkpoint with cursor 200 holding the first 200 items, the resumed
    run returns the 250 items but sends two requests, the probe of one
    item first and then the page at offset 200. *)
Lemma fetch_resume_probes_again :
  let sp := stable_remote (fun _ => sample_items 250) in
  let w := set_files {[ fetch_checkpoint_file "p1" :=
                          fetch_progress (sample_items 200) 200 7 false None ]} empty_world in
  (fetch_playlist_tracks sp "p1" w).1 = Return (sample_items 250) /\
  requests (fetch_playlist_tracks sp "p1" w).2 =
    [PlaylistTracks "p1" 0 1; PlaylistTracks "p1" 200 100] /\
  requests (fetch_playlist_tracks sp "p1" w).2 <> [PlaylistTracks "p1" 200 100].
Proof.
  intros sp w.
  assert (Hreq : requests (fetch_playlist_tracks sp "p1" w).2 =
                   [PlaylistTracks "p1" 0 1; PlaylistTracks "p1" 200 100]).
  { vm_compute. reflexivity. }
  split; [vm_compute; reflexivity|]. split; [exact Hreq|].
  rewrite Hreq. discriminate.
Qed.

(** C6, amended: the size of the collection is probed by a call for one
    item at the start of every run that does not replay a complete
    checkpoint, on resume as well as on a fresh run: whatever the client
    answers, the first request of such a run is the probe; a fresh run on
    a client that serves the items sends the probe and then the pages
    from offset 0; and with 250 items and an incomplete checkpoint with
    cursor 200 holding the first 200 items, the resumed run sends exactly
    two requests, the probe and then the page at offset 200 with limit 100,
    and returns the 250 items. *)
Theorem fetch_probes_on_every_run (sp : Spotify) (playlist_id : string)
    (items : list item) (w : World) :
  (forall ckpt, files w !! fetch_checkpoint_file playlist_id = Some ckpt ->
                default false (ck_complete ckpt) = false) ->
  (requests w ++ [PlaylistTracks playlist_id 0 1])
     `prefix_of` requests (fetch_playlist_tracks sp playlist_id w).2 /\
  (serves sp playlist_id items ->
   files w !! fetch_checkpoint_file playlist_id = None ->
   (fetch_playlist_tracks sp playlist_id w).1 = Return items /\
   requests (fetch_playlist_tracks sp playlist_id w).2 =
     requests w ++ PlaylistTracks playlist_id 0 1
       :: page_requests playlist_id 0 (length items)) /\
  (forall ckpt,
   serves sp playlist_id items ->
   length items = 250 ->
   files w !! fetch_checkpoint_file playlist_id = Some ckpt ->
   ck_next_offset ckpt = Some 200 ->
   ck_tracks ckpt = Some (take 200 items) ->
   (fetch_playlist_tracks sp playlist_id w).1 = Return items /\
   requests (fetch_playlist_tracks sp playlist_id w).2 =
     requests w ++ [PlaylistTracks playlist_id 0 1; PlaylistTracks playlist_id 200 100]).
Proof.
  intros Hc. split; [by apply fetch_playlist_tracks_probe|]. split.
  - intros Hserves Hf.
    destruct (fetch_playlist_tracks_fresh sp playlist_id items w Hserves Hf)
      as (w' & Hrun & Hreq & _).
    rewrite Hrun. simpl. done.
  - intros ckpt Hserves Hlen Hf Hoff Hbuf.
    destruct (fetch_playlist_tracks_resume sp playlist_id items w ckpt 200 Hserves Hf)
      as (w' & Hrun & Hreq & _).
    { by apply Hc. }
    { by rewrite Hoff. }
    { by rewrite Hbuf. }
    rewrite Hrun. simpl. split; [done|]. rewrite Hreq, Hlen. reflexivity.
Qed.

Lemma fetch_probes_on_every_run_witness :
  let sp := stable_remote (fun _ => sample_items 250) in
  let w := set_files {[ fetch_checkpoint_file "p1" :=
                          fetch_progress (sample_items 200) 200 7 false None ]} empty_world in
  (fetch_playlist_tracks sp "p1" w).1 = Return (sample_items 250) /\
  requests (fetch_playlist_tracks sp "p1" w).2 =
    [PlaylistTracks "p1" 0 1; PlaylistTracks "p1" 200 100].
Proof.
  intros sp w.
  assert (Hf : files w !! fetch_checkpoint_file "p1"
               = Some (fetch_progress (sample_items 200) 200 7 false None))
    by (vm_compute; reflexivity).
  refine (proj2 (proj2 (fetch_probes_on_every_run sp "p1" (sample_items 250) w _))
            (fetch_progress (sample_items 200) 200 7 false None) _ _ _ _ _).
  - intros ckpt Hck. rewrite Hf in Hck. injection Hck as <-. reflexivity.
  - apply (stable_remote_serves (fun _ => sample_items 250)).
  - vm_compute. reflexivity.
  - exact Hf.
  - reflexivity.
  - vm_compute. reflexivity.
Defined.

(** ** The batched writer *)

Lemma batches_concat (n : nat) : forall l : list string,
  length l <= n * 100 ->
  concat ((fun k => take 100 (drop (k * 100) l)) <$> seq 0 n) = l.
Proof.
  induction n as [|n IH]; intros l Hlen.
  - destruct l; simpl in *; [done|lia].
  - cbn [seq fmap list_fmap concat]. rewrite <- fmap_S_seq, <- list_fmap_compose.
    simpl. rewrite drop_0.
    transitivity (take 100 l ++ drop 100 l); [|apply take_drop]. f_equal.
    rewrite <- (IH (drop 100 l)) by (rewrite length_drop; lia).
    f_equal. apply list_fmap_ext. intros _ k _. simpl.
    rewrite drop_drop. do 2 f_equal; lia.
Qed.

Lemma remaining_count (len K : nat) :
  (len - K * 100 + 100 - 1) / 100 = (len + 99) / 100 - K.
Proof.
  destruct (decide (K * 100 <= len)) as [Hle|Hgt].
  - replace (len + 99) with (K * 100 + (len - K * 100 + 100 - 1)) by lia.
    rewrite Nat.div_add_l by lia. lia.
  - replace (len - K * 100 + 100 - 1) with 99 by lia. change (99 / 100) with 0.
    assert ((len + 99) / 100 < S K); [|lia].
    apply Nat.Div0.div_lt_upper_bound. lia.
Qed.

Lemma remaining_batches_range (K : nat) (uris : list string) :
  batch_at (drop (K * 100) uris) <$> range_step (length (drop (K * 100) uris)) 100
    = remaining_batches K uris.
Proof.
  unfold range_step, remaining_batches, batch_at.
  rewrite length_drop, remaining_count, <- list_fmap_compose.
  apply list_fmap_ext. intros _ k _. simpl. rewrite drop_drop. do 2 f_equal. lia.
Qed.

Lemma remaining_batches_concat (K : nat) (uris : list string) :
  concat (remaining_batches K uris) = drop (K * 100) uris.
Proof.
  rewrite <- remaining_batches_range. unfold range_step, batch_at.
  rewrite <- list_fmap_compose.
  apply (batches_concat _ (drop (K * 100) uris)).
  pose proof (Nat.div_mod_eq (length (drop (K * 100) uris) + 100 - 1) 100) as Hd.
  pose proof (Nat.mod_upper_bound (length (drop (K * 100) uris) + 100 - 1) 100 ltac:(lia)).
  lia.
Qed.

Lemma remaining_batches_bounded (K : nat) (uris : list string) :
  Forall (fun b => length b <= 100) (remaining_batches K uris).
Proof.
  unfold remaining_batches. apply Forall_fmap, Forall_forall. intros k _. simpl.
  rewrite length_take. lia.
Qed.

Section write_facts.
Variable sp : Spotify.
Variable playlist_id : string.

Lemma add_batch_spec checkpoint_file remaining_uris i tracks_added w r w' :
  add_batch sp playlist_id checkpoint_file remaining_uris i tracks_added w = (r, w') ->
  requests w' = requests w ++ [PlaylistAddItems playlist_id (batch_at remaining_uris i)] /\
  tracks w' = tracks w /\
  match sp_playlist_add_items sp (requests w) playlist_id (batch_at remaining_uris i) with
  | inl _ => r = Return (tracks_added + length (batch_at remaining_uris i))
  | inr e => r = Raise e
  end.
Proof.
  unfold add_batch, try_except, bind, playlist_add_items, call. fold (batch_at remaining_uris i).
  destruct (sp_playlist_add_items sp (requests w) playlist_id (batch_at remaining_uris i))
    as [[]|e]; simpl; intros [= <- <-]; done.
Qed.

(** The loop over the indices: the requests it adds are the batches of a
    prefix of the indices, all of them when it returns, and it returns
    when no call of the client fails. *)
Lemma add_batches_spec checkpoint_file remaining_uris indices :
  forall tracks_added w r w',
  add_batches sp playlist_id checkpoint_file remaining_uris indices tracks_added w = (r, w') ->
  exists done_,
    done_ `prefix_of` indices /\
    requests w' = requests w
      ++ (PlaylistAddItems playlist_id <$> (batch_at remaining_uris <$> done_)) /\
    tracks w' = tracks w /\
    r <> OutOfGas /\
    (forall n, r = Return n ->
       done_ = indices /\
       n = tracks_added + length (concat (batch_at remaining_uris <$> indices))) /\
    ((forall h b, sp_playlist_add_items sp h playlist_id b = inl tt) -> exists n, r = Return n).
Proof.
  induction indices as [|i indices IH]; intros tracks_added w r w'; cbn [add_batches].
  - intros [= <- <-]. exists []. rewrite app_nil_r. simpl.
    repeat split; try done; try (injection H as <-; lia); eauto.
  - unfold bind.
    destruct (add_batch sp playlist_id checkpoint_file remaining_uris i tracks_added w)
      as [[n1|e|] w1] eqn:Hb; apply add_batch_spec in Hb as (Hreq & Htr & Hans).
    + intros Hrun. apply IH in Hrun as (done_ & Hpre & Hreq' & Htr' & Hg & Hret & Hok).
      exists (i :: done_). split; [by apply prefix_cons|].
      split; [rewrite Hreq', Hreq, <- app_assoc; done|]. split; [congruence|].
      split; [done|]. split; [|done].
      intros n Hn. destruct (Hret n Hn) as [-> ->]. split; [done|].
      destruct (sp_playlist_add_items sp _ _ _); [|done]. injection Hans as ->.
      rewrite fmap_cons. cbn [concat]. rewrite length_app. lia.
    + intros [= <- <-]. exists [i]. split; [apply prefix_cons, prefix_nil|].
      split; [done|]. split; [done|]. split; [done|]. split; [done|].
      intros Hall. rewrite Hall in Hans. done.
    + destruct (sp_playlist_add_items sp _ _ _); done.
Qed.

(** The whole write from the start index [start]. *)
Lemma add_tracks_from_spec track_ids w r w' (start : nat) :
  start = match files w !! write_checkpoint_file playlist_id with
          | Some ckpt => if negb (default false (ck_complete ckpt))
                         then default 0 (ck_tracks_added ckpt) else 0
          | None => 0
          end ->
  add_tracks_to_playlist sp playlist_id track_ids w = (r, w') ->
  exists done_,
    let remaining_uris := drop start (track_uri <$> track_ids) in
    done_ `prefix_of` range_step (length remaining_uris) 100 /\
    requests w' = requests w
      ++ (PlaylistAddItems playlist_id <$> (batch_at remaining_uris <$> done_)) /\
    tracks w' = tracks w /\
    r <> OutOfGas /\
    (forall n, r = Return n ->
       done_ = range_step (length remaining_uris) 100 /\ n = length track_ids) /\
    ((forall h b, sp_playlist_add_items sp h playlist_id b = inl tt) -> exists n, r = Return n).
Proof.
  intros Hstart. unfold add_tracks_to_playlist, bind at 1, load_checkpoint.
  cbn [fst snd]. rewrite <- Hstart.
  destruct (drop start (track_uri <$> track_ids)) as [|u rest] eqn:Hrem.
  - intros [= <- <-]. exists []. simpl. rewrite app_nil_r.
    split; [done|]. split; [done|]. split; [done|]. split; [done|]. split; [|eauto].
    intros n [= <-]. done.
  - rewrite <- Hrem. unfold bind at 1.
    destruct (add_batches _ _ _ _ _ _ _) as [[n|e|] w1] eqn:Hrun;
      apply add_batches_spec in Hrun as (done_ & Hpre & Hreq & Htr & Hg & Hret & Hok).
    + unfold bind, datetime_now, json_dump, ret. simpl. intros [= <- <-]. simpl.
      exists done_. destruct (Hret n eq_refl) as [Hdone Hn].
      split; [done|]. split; [done|]. split; [done|]. split; [done|]. split; [|eauto].
      intros n' [= <-]. split; [done|]. rewrite Hn.
      assert (Hle : start < length track_ids).
      { apply (f_equal length) in Hrem. rewrite length_drop, length_fmap in Hrem.
        simpl in Hrem. lia. }
      pose proof (remaining_batches_concat 0 (drop start (track_uri <$> track_ids))) as Hc.
      rewrite <- remaining_batches_range in Hc. simpl in Hc. rewrite drop_0 in Hc.
      rewrite Hc, length_drop, length_fmap. lia.
    + intros [= <- <-]. exists done_.
      split; [done|]. split; [done|]. split; [done|]. split; [done|]. split; [done|].
      intros Hall. destruct (Hok Hall) as [n Hn]. done.
    + done.
Qed.

End write_facts.

(** C2: a write that finds the incomplete checkpoint left after [K]
    batches (cursor [K * 100]) submits only batches of the ids after the
    first [K * 100], cut in order into batches of at most 100: what it
    submits is a prefix of the batches [K], [K + 1], ..., whose
    concatenation is the list of ids after the cursor and whose number is
    [M - K]; when no call fails it submits them all and returns the count
    of ids. *)
Theorem add_tracks_resume_no_double_write (sp : Spotify) (playlist_id : string)
    (track_ids : list string) (K : nat) (w : World) (ckpt : checkpoint) :
  files w !! write_checkpoint_file playlist_id = Some ckpt ->
  default false (ck_complete ckpt) = false ->
  ck_tracks_added ckpt = Some (K * 100) ->
  let uris := track_uri <$> track_ids in
  let M := (length track_ids + 99) / 100 in
  let run := add_tracks_to_playlist sp playlist_id track_ids w in
  exists submitted,
    requests run.2 = requests w ++ (PlaylistAddItems playlist_id <$> submitted) /\
    submitted `prefix_of` remaining_batches K uris /\
    Forall (fun b => length b <= 100) (remaining_batches K uris) /\
    concat (remaining_batches K uris) = drop (K * 100) uris /\
    length (remaining_batches K uris) = M - K /\
    ((forall h b, sp_playlist_add_items sp h playlist_id b = inl tt) ->
     submitted = remaining_batches K uris /\ run.1 = Return (length track_ids)).
Proof.
  intros Hf Hc Hadded uris M run.
  destruct run as [r w'] eqn:Hrun. subst run.
  apply (add_tracks_from_spec sp playlist_id track_ids w r w' (K * 100)) in Hrun
    as (done_ & Hpre & Hreq & _ & Hg & Hret & Hok).
  2:{ by rewrite Hf, Hc, Hadded. }
  fold uris in Hpre, Hreq, Hret.
  exists (batch_at (drop (K * 100) uris) <$> done_). simpl.
  split; [done|]. split.
  { rewrite <- remaining_batches_range. destruct Hpre as [rest ->].
    rewrite fmap_app. by apply prefix_app_r. }
  split; [apply remaining_batches_bounded|].
  split; [apply remaining_batches_concat|].
  split.
  { unfold remaining_batches. rewrite length_fmap, length_seq. unfold uris, M.
    by rewrite length_fmap. }
  intros Hall. destruct (Hok Hall) as [n ->]. destruct (Hret n eq_refl) as [-> ->].
  split; [apply remaining_batches_range|done].
Qed.

Lemma add_tracks_resume_no_double_write_witness :
  let w := set_files {[ write_checkpoint_file "pl" :=
                          write_progress "pl" 100 7 None None ]} empty_world in
  let run := add_tracks_to_playlist (stable_remote (fun _ => [])) "pl" (sample_ids 250) w in
  exists submitted,
    requests run.2 = PlaylistAddItems "pl" <$> submitted /\
    submitted = [track_uri <$> take 100 (drop 100 (sample_ids 250));
                 track_uri <$> drop 200 (sample_ids 250)] /\
    run.1 = Return 250.
Proof.
  intros w run.
  destruct (add_tracks_resume_no_double_write (stable_remote (fun _ => [])) "pl"
              (sample_ids 250) 1 w (write_progress "pl" 100 7 None None))
    as (submitted & Hreq & _ & _ & _ & _ & Hall).
  - vm_compute. reflexivity.
  - reflexivity.
  - reflexivity.
  - exists submitted. destruct Hall as [Hsub Hret]; [reflexivity|].
    split; [exact Hreq|]. split; [|exact Hret].
    rewrite Hsub. vm_compute. reflexivity.
Defined.


(** ** The ingestion run *)


Lemma row_values_source playlist_source it v :
  row_values playlist_source it = Some v -> v.2 = playlist_source.
Proof.
  unfold row_values. destruct (item_track it) as [tr|]; [|done].
  destruct (track_id tr) as [tid|]; [|done].
  destruct (decide (tid = "")); [done|]. by intros [= <-].
Qed.

Lemma store_tracks_spec fetched playlist_source w :
  exists now,
    store_tracks fetched playlist_source w =
      (Return tt, (store_tracks fetched playlist_source w).2) /\
    tracks (store_tracks fetched playlist_source w).2 =
      tracks w ++ stamp_rows now (omap (row_values playlist_source) fetched) /\
    files (store_tracks fetched playlist_source w).2 = files w /\
    requests (store_tracks fetched playlist_source w).2 = requests w.
Proof.
  exists (clock w). unfold store_tracks.
  destruct (omap (row_values playlist_source) fetched) as [|v rows]; simpl.
  - by rewrite app_nil_r.
  - done.
Qed.

Lemma stamp_rows_source now source fetched :
  Forall (fun r => playlist_source r = source)
         (stamp_rows now (omap (row_values source) fetched)).
Proof.
  unfold stamp_rows. apply Forall_fmap, Forall_forall. intros v Hv. simpl.
  apply list_elem_of_omap in Hv as (it & _ & Hit). by apply row_values_source in Hit.
Qed.

Section ingest_facts.
Variable sp : Spotify.

(** One playlist: the loop body returns whatever happens, appends rows
    tagged with the playlist and keeps the rows there were. *)
Lemma ingest_playlist_spec playlist_id w :
  exists added,
    (ingest_playlist sp playlist_id w).1 = Return tt /\
    tracks (ingest_playlist sp playlist_id w).2 = tracks w ++ added /\
    Forall (fun r => playlist_source r = playlist_id) added.
Proof.
  destruct (ingest_playlist sp playlist_id w) as [r w'] eqn:Hrun. simpl.
  revert Hrun. unfold ingest_playlist, try_except, bind at 1, playlist, call.
  destruct (sp_playlist sp (requests w) playlist_id) as [name|e]; simpl.
  2:{ intros [= <- <-]. exists []. rewrite app_nil_r. by repeat split. }
  unfold bind.
  destruct (fetch_playlist_tracks sp playlist_id _) as [[fetched|e|] w1] eqn:Hfetch;
    apply fetch_playlist_tracks_frame in Hfetch as (Hg & _ & Htr); simpl in Htr.
  - destruct (store_tracks_spec fetched playlist_id w1) as (now & Hstore & Hst & _).
    rewrite Hstore. intros [= <- <-].
    exists (stamp_rows now (omap (row_values playlist_id) fetched)).
    split; [done|]. split; [by rewrite Hst, Htr|]. apply stamp_rows_source.
  - intros [= <- <-]. exists []. rewrite app_nil_r. by repeat split.
  - done.
Qed.

Lemma ingest_playlists_spec playlist_ids : forall w,
  exists added,
    (ingest_playlists sp playlist_ids w).1 = Return tt /\
    tracks (ingest_playlists sp playlist_ids w).2 = tracks w ++ added /\
    Forall (fun r => playlist_source r ∈ playlist_ids) added.
Proof.
  induction playlist_ids as [|playlist_id rest IH]; intros w; cbn [ingest_playlists].
  - exists []. rewrite app_nil_r. by repeat split.
  - destruct (ingest_playlist_spec playlist_id w) as (added1 & Hr1 & Htr1 & Hsrc1).
    unfold bind. destruct (ingest_playlist sp playlist_id w) as [r1 w1]. simpl in *. subst r1.
    destruct (IH w1) as (added2 & Hr2 & Htr2 & Hsrc2).
    exists (added1 ++ added2). split; [done|]. split; [by rewrite Htr2, Htr1, app_assoc|].
    apply Forall_app. split.
    + eapply Forall_impl; [exact Hsrc1|]. intros r ->. apply list_elem_of_here.
    + eapply Forall_impl; [exact Hsrc2|]. intros r Hr. by apply list_elem_of_further.
Qed.

(** A run that gets past [current_user] starts from the empty table,
    whatever the table held. *)
Lemma ingest_main_clears playlist_ids w u :
  sp_current_user sp (requests w) = inl u ->
  ingest_main sp playlist_ids w =
    ingest_playlists sp playlist_ids
      (set_tracks [] (set_requests (requests w ++ [CurrentUser]) w)).
Proof.
  intros Hu. unfold ingest_main, bind, current_user, call, clear_tracks. by rewrite Hu.
Qed.

End ingest_facts.






(** ** The deduplication query *)

Lemma max_added_at_spec (rs : list row) : is_max_added_at rs (max_added_at rs).
Proof.
  unfold max_added_at. induction rs as [|r rs IH].
  - intros r Hr. by apply elem_of_nil in Hr.
  - rewrite fmap_cons. cbn [foldr].
    destruct (added_at r) as [a|] eqn:Ha, (foldr sql_max None (added_at <$> rs)) as [m|];
      unfold is_max_added_at in *; simpl in *.
    + destruct IH as [(r' & Hr' & Hm) Hle]. split.
      * destruct (Z.max_spec a m) as [[_ ->]|[_ ->]].
        -- exists r'. split; [by apply list_elem_of_further|done].
        -- exists r. split; [apply list_elem_of_here|done].
      * intros r0 a0 Hr0 Ha0. apply elem_of_cons in Hr0 as [->|Hr0].
        -- rewrite Ha in Ha0. injection Ha0 as <-. lia.
        -- specialize (Hle r0 a0 Hr0 Ha0). lia.
    + split.
      * exists r. split; [apply list_elem_of_here|done].
      * intros r0 a0 Hr0 Ha0. apply elem_of_cons in Hr0 as [->|Hr0].
        -- rewrite Ha in Ha0. injection Ha0 as <-. lia.
        -- rewrite (IH r0 Hr0) in Ha0. done.
    + destruct IH as [(r' & Hr' & Hm) Hle]. split.
      * exists r'. split; [by apply list_elem_of_further|done].
      * intros r0 a0 Hr0 Ha0. apply elem_of_cons in Hr0 as [->|Hr0].
        -- rewrite Ha in Ha0. done.
        -- by apply (Hle r0).
    + intros r0 Hr0. apply elem_of_cons in Hr0 as [->|Hr0]; [done|by apply IH].
Qed.

Lemma distinct_on_id_elem rows : forall seen d,
  d ∈ distinct_on_id seen rows -> d ∈ rows /\ d_id d ∉ seen.
Proof.
  induction rows as [|r rows IH]; intros seen d; simpl.
  - intros Hd. by apply elem_of_nil in Hd.
  - destruct (decide (t_id (d_cols r) ∈ seen)) as [Hin|Hnin].
    + intros Hd. apply IH in Hd as [Hd Hs]. split; [by apply list_elem_of_further|done].
    + intros Hd. apply elem_of_cons in Hd as [->|Hd].
      * split; [apply list_elem_of_here|done].
      * apply IH in Hd as [Hd Hs]. split; [by apply list_elem_of_further|].
        intros Hseen. apply Hs. by apply list_elem_of_further.
Qed.

Lemma distinct_on_id_ids rows : forall seen i,
  i ∈ d_id <$> distinct_on_id seen rows <-> i ∈ d_id <$> rows /\ i ∉ seen.
Proof.
  induction rows as [|r rows IH]; intros seen i; simpl.
  - split; [intros Hi; by apply elem_of_nil in Hi|intros [Hi _]; by apply elem_of_nil in Hi].
  - destruct (decide (t_id (d_cols r) ∈ seen)) as [Hin|Hnin].
    + rewrite IH, elem_of_cons. split; [intros [? ?]; auto|].
      intros [[->|Hi] Hs]; [done|auto].
    + rewrite fmap_cons, !elem_of_cons, IH. unfold d_id at 1 3. split.
      * intros [->|[Hi Hs]]; [auto|]. split; [auto|].
        intros Hseen. apply Hs. by apply list_elem_of_further.
      * intros [[->|Hi] Hs]; [auto|].
        destruct (decide (i = t_id (d_cols r))) as [->|Hne]; [auto|].
        right. split; [done|]. intros Hseen. apply elem_of_cons in Hseen as [?|?]; done.
Qed.

Lemma distinct_on_id_NoDup rows : forall seen,
  NoDup (d_id <$> distinct_on_id seen rows).
Proof.
  induction rows as [|r rows IH]; intros seen; simpl; [constructor|].
  destruct (decide (t_id (d_cols r) ∈ seen)) as [Hin|Hnin]; [apply IH|].
  rewrite fmap_cons. constructor; [|apply IH].
  intros Hi. apply distinct_on_id_ids in Hi as [_ Hs]. apply Hs, list_elem_of_here.
Qed.

Lemma group_by_cols_elem table d :
  d ∈ group_by_cols table <->
  d_cols d ∈ cols <$> table /\ d_added_at d = max_added_at (group_of (d_cols d) table).
Proof.
  unfold group_by_cols. rewrite list_elem_of_fmap. split.
  - intros (k & -> & Hk). rewrite elem_of_remove_dups in Hk. by split.
  - intros [Hk Hm]. exists (d_cols d). split; [|by rewrite elem_of_remove_dups].
    destruct d as [c a]. simpl in *. by rewrite Hm.
Qed.

Lemma get_deduplicated_tracks_elem table d :
  d ∈ get_deduplicated_tracks table ->
  d_cols d ∈ cols <$> table /\ d_added_at d = max_added_at (group_of (d_cols d) table).
Proof.
  unfold get_deduplicated_tracks. intros Hd.
  apply distinct_on_id_elem in Hd as [Hd _].
  rewrite merge_sort_Permutation in Hd. by apply group_by_cols_elem.
Qed.

Lemma get_deduplicated_tracks_ids table i :
  i ∈ d_id <$> get_deduplicated_tracks table <-> i ∈ (fun r => t_id (cols r)) <$> table.
Proof.
  unfold get_deduplicated_tracks. rewrite distinct_on_id_ids.
  rewrite merge_sort_Permutation. rewrite !list_elem_of_fmap. split.
  - intros [(d & -> & Hd) _]. apply group_by_cols_elem in Hd as [Hd _].
    apply list_elem_of_fmap in Hd as (r & Hr & Hin). exists r. unfold d_id. by rewrite Hr.
  - intros (r & -> & Hr). split; [|apply not_elem_of_nil].
    exists {| d_cols := cols r; d_added_at := max_added_at (group_of (cols r) table) |}.
    split; [done|]. apply group_by_cols_elem. simpl. split; [|done].
    apply list_elem_of_fmap. eauto.
Qed.

Lemma get_deduplicated_tracks_NoDup table :
  NoDup (d_id <$> get_deduplicated_tracks table).
Proof. apply distinct_on_id_NoDup. Qed.

(** When every row of an id carries the same eleven columns, the row kept
    for the id is that group with its greatest [added_at]. *)
Lemma get_deduplicated_tracks_consistent table c d :
  (forall r, r ∈ table -> t_id (cols r) = t_id c -> cols r = c) ->
  d ∈ get_deduplicated_tracks table ->
  d_id d = t_id c ->
  d = {| d_cols := c; d_added_at := max_added_at (group_of c table) |}.
Proof.
  intros Hsame Hd Hid. apply get_deduplicated_tracks_elem in Hd as [Hc Hm].
  apply list_elem_of_fmap in Hc as (r & Hr & Hin).
  assert (d_cols d = c) as Hdc.
  { rewrite Hr. apply Hsame; [done|]. rewrite <- Hr. exact Hid. }
  destruct d as [c' a]. cbn [d_cols d_added_at] in *. by rewrite Hm, Hdc.
Qed.

Lemma get_deduplicated_tracks_two_sources c a1 a2 s1 s2 f1 f2 :
  get_deduplicated_tracks
    [ {| cols := c; added_at := Some a1; playlist_source := s1; fetched_at := f1 |};
      {| cols := c; added_at := Some a2; playlist_source := s2; fetched_at := f2 |} ]
  = [ {| d_cols := c; d_added_at := Some (Z.max a1 a2) |} ].
Proof.
  set (table := [ _; _ ]).
  set (d0 := {| d_cols := c; d_added_at := Some (Z.max a1 a2) |}).
  assert (Hall : forall d, d ∈ get_deduplicated_tracks table -> d = d0).
  { intros d Hd.
    assert (Hcols : forall r, r ∈ table -> cols r = c).
    { intros r Hr. apply elem_of_cons in Hr as [->|Hr]; [done|].
      apply list_elem_of_singleton in Hr as ->. done. }
    pose proof (get_deduplicated_tracks_elem table d Hd) as [Hc _].
    apply list_elem_of_fmap in Hc as (r & Hr & Hin).
    rewrite (get_deduplicated_tracks_consistent table c d (fun r Hr _ => Hcols r Hr) Hd).
    - unfold d0, group_of, table. f_equal.
      rewrite !filter_cons, filter_nil. cbn [cols]. rewrite !decide_True by done.
      reflexivity.
    - unfold d_id. rewrite Hr. f_equal. apply (Hcols r Hin). }
  pose proof (get_deduplicated_tracks_NoDup table) as Hnd.
  assert (Hin : t_id c ∈ d_id <$> get_deduplicated_tracks table).
  { apply get_deduplicated_tracks_ids. apply list_elem_of_here. }
  destruct (get_deduplicated_tracks table) as [|d1 [|d2 rest]].
  - by apply elem_of_nil in Hin.
  - by rewrite (Hall d1 (list_elem_of_here _ _)).
  - rewrite (Hall d1 (list_elem_of_here _ _)) in Hnd.
    rewrite (Hall d2 (list_elem_of_further _ _ _ (list_elem_of_here _ _))) in Hnd.
    rewrite !fmap_cons in Hnd. apply NoDup_cons in Hnd as [Hnd _].
    exfalso. apply Hnd, list_elem_of_here.
Qed.

Lemma filter_ext_elem {A} (P Q : A -> Prop) `{!forall x, Decision (P x)}
    `{!forall x, Decision (Q x)} (l : list A) :
  (forall x, x ∈ l -> P x <-> Q x) -> filter P l = filter Q l.
Proof.
  induction l as [|x l IH]; intros Hext; [done|].
  rewrite !filter_cons.
  rewrite IH by (intros y Hy; apply Hext; by apply list_elem_of_further).
  destruct (decide (P x)) as [HP|HP], (decide (Q x)) as [HQ|HQ]; try done.
  - exfalso. apply HQ, Hext; [apply list_elem_of_here|done].
  - exfalso. apply HP, Hext; [apply list_elem_of_here|done].
Qed.

(** C1, as stated, fails: two stored records with the same external
    identifier and different display names are two identities, and the
    query keeps one row for the identifier, so the second identity has no
    record in the result. *)
Lemma dedup_keeps_one_row_per_id :
  let rA := stored (song "t1" "Alpha" "X" 10) 5 "p1" in
  let rB := stored (song "t1" "Beta" "X" 10) 9 "p2" in
  let result := get_deduplicated_tracks [rA; rB] in
  identity (cols rA) <> identity (cols rB) /\
  result = [ {| d_cols := cols rA; d_added_at := Some 5%Z |} ] /\
  ~ (exists d, d ∈ result /\ identity (d_cols d) = identity (cols rB)).
Proof.
  intros rA rB result.
  assert (Hres : result = [ {| d_cols := cols rA; d_added_at := Some 5%Z |} ])
    by (vm_compute; reflexivity).
  split; [discriminate|]. split; [exact Hres|].
  intros (d & Hd & Hid). rewrite Hres in Hd.
  apply list_elem_of_singleton in Hd as ->. discriminate.
Qed.

(** Two stored records of one identity that differ in another grouped
    column (here the popularity) are two groups; they tie on name and
    artist, the model keeps the first, and its timestamp is the greatest
    of its own group only, not of the identity. *)
Example dedup_added_at_of_group_only :
  let r1 := stored (song "t1" "Alpha" "X" 10) 5 "p1" in
  let r2 := stored (song "t1" "Alpha" "X" 20) 9 "p2" in
  identity (cols r1) = identity (cols r2) /\
  get_deduplicated_tracks [r1; r2] = [ {| d_cols := cols r1; d_added_at := Some 5%Z |} ].
Proof. split; [reflexivity|vm_compute; reflexivity]. Qed.

(** C1, amended: the result of the deduplication query holds exactly one
    record for every distinct external identifier of the store (not one
    for every identity tuple); its eleven grouped columns are those of a
    stored record of that identifier, and its [added_at] is the greatest
    [added_at] of the stored records that agree with it on all eleven
    grouped columns.  When the records of an identifier all carry the
    same eleven columns the record kept is that group; in particular two
    sources that each hold a record with the same eleven columns and
    different [added_at] values give exactly one record, with the later
    of the two timestamps. *)
Theorem dedup_one_record_per_id (table : list row) :
  NoDup (d_id <$> get_deduplicated_tracks table) /\
  (forall i, i ∈ d_id <$> get_deduplicated_tracks table
             <-> i ∈ (fun r => t_id (cols r)) <$> table) /\
  (forall d, d ∈ get_deduplicated_tracks table ->
     d_cols d ∈ cols <$> table /\
     is_max_added_at (group_of (d_cols d) table) (d_added_at d)) /\
  (forall c d,
     (forall r, r ∈ table -> t_id (cols r) = t_id c -> cols r = c) ->
     d ∈ get_deduplicated_tracks table -> d_id d = t_id c ->
     d_cols d = c /\
     is_max_added_at (filter (fun r => t_id (cols r) = t_id c) table) (d_added_at d)) /\
  (forall c a1 a2 s1 s2 f1 f2,
     get_deduplicated_tracks
       [ {| cols := c; added_at := Some a1; playlist_source := s1; fetched_at := f1 |};
         {| cols := c; added_at := Some a2; playlist_source := s2; fetched_at := f2 |} ]
     = [ {| d_cols := c; d_added_at := Some (Z.max a1 a2) |} ]).
Proof.
  split; [apply get_deduplicated_tracks_NoDup|].
  split; [apply get_deduplicated_tracks_ids|].
  split; [|split].
  - intros d Hd. apply get_deduplicated_tracks_elem in Hd as [Hc Hm].
    split; [done|]. rewrite Hm. apply max_added_at_spec.
  - intros c d Hsame Hd Hid.
    rewrite (get_deduplicated_tracks_consistent table c d Hsame Hd Hid). simpl.
    split; [done|].
    replace (filter (fun r => t_id (cols r) = t_id c) table) with (group_of c table).
    { apply max_added_at_spec. }
    unfold group_of. apply filter_ext_elem. intros r Hr. split.
    + by intros ->.
    + by apply Hsame.
  - apply get_deduplicated_tracks_two_sources.
Qed.

Lemma dedup_one_record_per_id_witness :
  let table := [stored (song "t1" "Alpha" "X" 10) 5 "p1";
                stored (song "t1" "Alpha" "X" 10) 9 "p2";
                stored (song "t2" "Beta" "Y" 30) 7 "p2"] in
  let d := {| d_cols := song "t1" "Alpha" "X" 10; d_added_at := Some 9%Z |} in
  d_cols d = song "t1" "Alpha" "X" 10 /\
  is_max_added_at (filter (fun r => t_id (cols r) = "t1") table) (d_added_at d).
Proof.
  intros table d.
  apply (proj1 (proj2 (proj2 (proj2 (dedup_one_record_per_id table))))
           (song "t1" "Alpha" "X" 10) d).
  - intros r Hr Hr1.
    apply elem_of_cons in Hr as [->|Hr]; [reflexivity|].
    apply elem_of_cons in Hr as [->|Hr]; [reflexivity|].
    apply list_elem_of_singleton in Hr as ->. discriminate.
  - vm_compute. apply list_elem_of_here.
  - reflexivity.
Defined.

(** ** Saving a checkpoint on disk *)

Lemma string_app_cons (c : ascii) (s t : string) :
  String c s +:+ t = String c (s +:+ t).
Proof. reflexivity. Qed.

Lemma string_app_empty (s : string) : s +:+ "" = s.
Proof.
  induction s as [|c s IH]; [reflexivity|]. by rewrite string_app_cons, IH.
Qed.

Lemma string_app_snoc (s : string) (c : ascii) (t : string) :
  (s +:+ String c EmptyString) +:+ t = s +:+ String c t.
Proof.
  induction s as [|c' s IH]; [reflexivity|]. by rewrite !string_app_cons, IH.
Qed.

Lemma length_list_ascii (s : string) :
  length (String.list_ascii_of_string s) = String.length s.
Proof. induction s as [|c s IH]; simpl; [done|]. by rewrite IH. Qed.

(** Writing characters one after the other appends them. *)
Lemma write_chars (filepath : string) (cs : list ascii) : forall (d : disk) (s0 : string),
  d !! filepath = Some s0 ->
  do_steps (WriteChar filepath <$> cs) d
    = <[filepath := s0 +:+ String.string_of_list_ascii cs]> d.
Proof.
  unfold do_steps. induction cs as [|c cs IH]; intros d s0 Hd; simpl.
  - rewrite string_app_empty. symmetry. by apply insert_id.
  - rewrite Hd. simpl.
    rewrite (IH _ (s0 +:+ String c EmptyString)) by apply lookup_insert_eq.
    by rewrite insert_insert_eq, string_app_snoc.
Qed.

(** The file after the truncation and the first [n] characters. *)
Lemma interrupted_save_prefix (n : nat) (filepath : string) (data : json) (d : disk) :
  interrupted_save (S n) filepath data d
    = <[filepath := String.string_of_list_ascii
                      (take n (String.list_ascii_of_string (json_dumps data)))]> d.
Proof.
  unfold interrupted_save, save_checkpoint_steps. rewrite firstn_cons, <- fmap_take.
  change (do_steps (?s :: ?l) d) with (do_steps l (do_step s d)).
  rewrite (write_chars filepath _ _ "") by apply lookup_insert_eq.
  simpl. by rewrite insert_insert_eq.
Qed.

Lemma save_checkpoint_disk_whole (filepath : string) (data : json) (d : disk) :
  save_checkpoint_disk filepath data d = <[filepath := json_dumps data]> d.
Proof.
  unfold save_checkpoint_disk, save_checkpoint_steps.
  change (do_steps (?s :: ?l) d) with (do_steps l (do_step s d)).
  rewrite (write_chars filepath _ _ "") by apply lookup_insert_eq.
  simpl. by rewrite insert_insert_eq, String.string_of_list_ascii_of_string.
Qed.

(** C10, as stated, fails: the save opens the checkpoint file for
    writing, which empties it, before the new text is written; a process
    that dies after this step leaves an empty file, which is neither the
    previous state nor the new one. *)
Lemma save_checkpoint_torn :
  let filepath := fetch_checkpoint_file "p1" in
  let previous := fetch_progress_json 500 false in
  let new := fetch_progress_json 1000 false in
  let d := save_checkpoint_disk filepath previous ∅ in
  let d' := interrupted_save 1 filepath new d in
  holds_state d filepath previous /\
  d' !! filepath = Some "" /\
  ~ holds_state d' filepath previous /\
  ~ holds_state d' filepath new.
Proof.
  intros filepath previous new d d'. unfold holds_state.
  assert (Hd : d !! filepath = Some (json_dumps previous)).
  { unfold d. rewrite save_checkpoint_disk_whole. apply lookup_insert_eq. }
  assert (Hd' : d' !! filepath = Some "").
  { unfold d'. rewrite interrupted_save_prefix. apply lookup_insert_eq. }
  split; [exact Hd|]. split; [exact Hd'|]. rewrite Hd'.
  split; intros H; injection H as H; vm_compute in H; discriminate.
Qed.

(** C10, amended: a save overwrites the checkpoint file in place.  Run to
    its end it leaves the whole new state, whatever the file held
    (last write wins), and no other file changes; it does not write to a
    temporary file and rename, so it is not atomic with respect to a
    crash: a process that dies during the save leaves the file empty or
    holding a prefix of the new text, never a part of the previous
    state. *)
Theorem save_checkpoint_in_place (filepath : string) (data : json) (d : disk) (n : nat) :
  holds_state (save_checkpoint_disk filepath data d) filepath data /\
  (forall other, other <> filepath ->
     save_checkpoint_disk filepath data d !! other = d !! other /\
     interrupted_save n filepath data d !! other = d !! other) /\
  interrupted_save 0 filepath data d = d /\
  interrupted_save (S n) filepath data d !! filepath
    = Some (String.string_of_list_ascii
              (take n (String.list_ascii_of_string (json_dumps data)))) /\
  (String.length (json_dumps data) <= n ->
   interrupted_save (S n) filepath data d = save_checkpoint_disk filepath data d).
Proof.
  unfold holds_state. rewrite save_checkpoint_disk_whole, interrupted_save_prefix.
  split; [apply lookup_insert_eq|]. split; [|split; [done|split; [apply lookup_insert_eq|]]].
  - intros other Hne. split; [by apply lookup_insert_ne|].
    destruct n as [|n]; [done|]. rewrite interrupted_save_prefix. by apply lookup_insert_ne.
  - intros Hlen. rewrite take_ge, String.string_of_list_ascii_of_string; [done|].
    by rewrite length_list_ascii.
Qed.

Lemma save_checkpoint_in_place_witness :
  interrupted_save 200 "f" (fetch_progress_json 0 true) ∅
    = save_checkpoint_disk "f" (fetch_progress_json 0 true) ∅.
Proof.
  apply (proj2 (proj2 (proj2 (proj2
           (save_checkpoint_in_place "f" (fetch_progress_json 0 true) ∅ 199))))).
  vm_compute. lia.
Defined.

(** ** The canonical store *)

Lemma row_values_item_id source it :
  (fun v => (t_id v.1.1, v.1.2, v.2)) <$> row_values source it
    = (fun tid => (tid, item_added_at it, source)) <$> item_id it.
Proof.
  unfold row_values, item_id. destruct (item_track it) as [tr|]; [|done].
  destruct (track_id tr) as [tid|]; [|done].
  by destruct (decide (tid = "")).
Qed.

Lemma omap_row_values_ids (source : string) (fetched : list item) :
  (fun v => t_id v.1.1) <$> omap (row_values source) fetched = omap item_id fetched.
Proof.
  induction fetched as [|it fetched IH]; [done|]. simpl.
  pose proof (row_values_item_id source it) as Hit.
  destruct (row_values source it) as [v|], (item_id it) as [tid|]; simpl in *;
    try discriminate; [|done].
  injection Hit as Hid _ _. rewrite Hid. f_equal. exact IH.
Qed.

Lemma stamp_rows_id_added (now : nat) (source : string) (fetched : list item) :
  (fun r => (t_id (cols r), added_at r)) <$> stamp_rows now (omap (row_values source) fetched)
    = omap (fun it => (fun tid => (tid, item_added_at it)) <$> item_id it) fetched.
Proof.
  unfold stamp_rows. rewrite <- list_fmap_compose.
  induction fetched as [|it fetched IH]; [done|]. simpl.
  pose proof (row_values_item_id source it) as Hit.
  destruct (row_values source it) as [v|], (item_id it) as [tid|]; simpl in *;
    try discriminate; [|apply IH].
  injection Hit as Hid Ha _. rewrite Hid, Ha. f_equal. exact IH.
Qed.

Lemma item_id_nonempty it tid : item_id it = Some tid -> tid <> "".
Proof.
  unfold item_id. destruct (item_track it) as [tr|]; [|done].
  destruct (track_id tr) as [tid'|]; [|done].
  destruct (decide (tid' = "")); [done|]. by intros [= <-].
Qed.

(** X1: [store_tracks] never raises; it appends, after the rows there
    were, one row for every fetched item that has a track with a non-empty
    id, in the order of the items, carrying the id of the item, its
    [added_at] and the given source tag; the items without a track or
    without an id are dropped. *)
Theorem store_tracks_appends_valid_items (fetched : list item) (source : string) (w : World) :
  exists new,
    store_tracks fetched source w = (Return tt, (store_tracks fetched source w).2) /\
    tracks (store_tracks fetched source w).2 = tracks w ++ new /\
    (fun r => t_id (cols r)) <$> new = omap item_id fetched /\
    Forall (fun r => t_id (cols r) <> "" /\ playlist_source r = source) new /\
    (fun r => (t_id (cols r), added_at r)) <$> new
      = omap (fun it => (fun tid => (tid, item_added_at it)) <$> item_id it) fetched.
Proof.
  destruct (store_tracks_spec fetched source w) as (now & Hrun & Htr & _).
  exists (stamp_rows now (omap (row_values source) fetched)).
  split; [exact Hrun|]. split; [exact Htr|].
  assert (Hids : (fun r => t_id (cols r)) <$> stamp_rows now (omap (row_values source) fetched)
                 = omap item_id fetched).
  { rewrite <- (omap_row_values_ids source). unfold stamp_rows.
    rewrite <- list_fmap_compose. by apply list_fmap_ext. }
  split; [exact Hids|]. split.
  - apply Forall_forall. intros r Hr. split.
    + assert (Hin : t_id (cols r) ∈ omap item_id fetched).
      { rewrite <- Hids. by apply (list_elem_of_fmap_2 (fun r0 => t_id (cols r0))). }
      apply list_elem_of_omap in Hin as (it & _ & Hit). by eapply item_id_nonempty.
    + pose proof (stamp_rows_source now source fetched) as Hsrc.
      by apply (proj1 (Forall_forall _ _) Hsrc).
  - apply stamp_rows_id_added.
Qed.

(** X2: when no fetched item has a track with a non-empty id, and so for
    the empty list, [store_tracks] runs no INSERT: the state is left as it
    was. *)
Theorem store_tracks_nothing_valid (fetched : list item) (source : string) (w : World) :
  omap item_id fetched = [] ->
  store_tracks fetched source w = (Return tt, w).
Proof.
  intros Hnone. unfold store_tracks.
  assert (Hrows : omap (row_values source) fetched = []).
  { apply (f_equal length) in Hnone. rewrite <- (omap_row_values_ids source) in Hnone.
    rewrite length_fmap in Hnone. by destruct (omap (row_values source) fetched). }
  by rewrite Hrows.
Qed.

Lemma store_tracks_nothing_valid_witness :
  store_tracks [ {| item_track := None; item_added_at := Some 5%Z |} ] "A" empty_world
    = (Return tt, empty_world).
Proof.
  apply (store_tracks_nothing_valid
           [ {| item_track := None; item_added_at := Some 5%Z |} ] "A" empty_world).
  reflexivity.
Defined.

(** A list is counted once when it is split by the value of a key over
    keys without repetition that cover it. *)
Lemma length_by_key {A K} `{EqDecision K} (f : A -> K) (keys : list K) (l : list A) :
  NoDup keys ->
  (forall x, x ∈ l -> f x ∈ keys) ->
  sum_list ((fun k => length (filter (fun x => f x = k) l)) <$> keys) = length l.
Proof.
  intros Hnd. induction l as [|x l IH]; intros Hcover.
  - clear Hnd Hcover. induction keys as [|k keys IHk]; [done|].
    rewrite fmap_cons. simpl in *. exact IHk.
  - assert (Hone : forall ks, NoDup ks ->
              sum_list ((fun k => length (filter (fun y => f y = k) (x :: l))) <$> ks)
              = (if decide (f x ∈ ks) then 1 else 0)
                + sum_list ((fun k => length (filter (fun y => f y = k) l)) <$> ks)).
    { clear. induction ks as [|k ks IHk]; intros Hnd; [done|].
      apply NoDup_cons in Hnd as [Hk Hnd]. rewrite !fmap_cons. simpl.
      rewrite (IHk Hnd), filter_cons.
      destruct (decide (f x = k)) as [Heq|Hne], (decide (f x ∈ ks)) as [Hin|Hnin],
        (decide (f x ∈ k :: ks)) as [Hin'|Hnin']; simpl; try lia; exfalso.
      - apply Hk. by rewrite <- Heq.
      - apply Hk. by rewrite <- Heq.
      - apply Hnin'. rewrite Heq. apply list_elem_of_here.
      - apply Hnin'. by apply list_elem_of_further.
      - apply elem_of_cons in Hin' as [?|?]; done. }
    rewrite (Hone keys Hnd), IH by (intros y Hy; apply Hcover; by apply list_elem_of_further).
    rewrite decide_True by (apply Hcover, list_elem_of_here). done.
Qed.

Lemma length_remove_dups_le {A} `{EqDecision A} (l : list A) :
  length (remove_dups l) <= length l.
Proof.
  induction l as [|x l IH]; simpl; [done|].
  destruct (decide_rel elem_of x l); simpl; lia.
Qed.

Lemma get_track_count_sources (table : list row) :
  sc_playlist_source <$> get_track_count table = remove_dups (playlist_source <$> table).
Proof.
  unfold get_track_count. rewrite <- list_fmap_compose.
  induction (remove_dups (playlist_source <$> table)) as [|s l IH]; [done|].
  rewrite fmap_cons. simpl. f_equal. exact IH.
Qed.

(** X3: the records of [get_track_count] have one record for every source
    tag of the table; their counts add up to the number of rows, and in
    each of them the count of distinct ids is at least 1 and at most the
    count of rows. *)
Theorem get_track_count_totals (table : list row) :
  NoDup (sc_playlist_source <$> get_track_count table) /\
  (forall s, s ∈ sc_playlist_source <$> get_track_count table
             <-> s ∈ playlist_source <$> table) /\
  sum_list (sc_count <$> get_track_count table) = length table /\
  Forall (fun c => 1 <= sc_unique_count c <= sc_count c) (get_track_count table).
Proof.
  rewrite get_track_count_sources.
  split; [apply NoDup_remove_dups|]. split; [intros s; apply elem_of_remove_dups|].
  unfold get_track_count. rewrite <- !list_fmap_compose. split.
  - rewrite <- (length_by_key playlist_source (remove_dups (playlist_source <$> table)) table).
    + f_equal.
    + apply NoDup_remove_dups.
    + intros r Hr. rewrite elem_of_remove_dups. by apply list_elem_of_fmap_2.
  - apply Forall_fmap, Forall_forall. intros s Hs. simpl.
    rewrite elem_of_remove_dups in Hs. apply list_elem_of_fmap in Hs as (r & -> & Hr).
    set (g := filter (fun r0 => playlist_source r0 = playlist_source r) table).
    assert (Hg : r ∈ g) by (by apply list_elem_of_filter).
    split.
    + assert (Hin : t_id (cols r) ∈ remove_dups ((fun r0 => t_id (cols r0)) <$> g)).
      { rewrite elem_of_remove_dups. by apply (list_elem_of_fmap_2 (fun r0 => t_id (cols r0))). }
      destruct (remove_dups _); [by apply elem_of_nil in Hin|simpl; lia].
    + rewrite <- (length_fmap (fun r0 => t_id (cols r0)) g).
      apply length_remove_dups_le.
Qed.

(** X4: [get_unique_track_ids] lists every id of the table once, and they
    are the ids of the deduplicated set: the number of records
    [get_deduplicated_tracks] returns is the number of unique ids. *)
Theorem unique_track_ids_agree (table : list row) :
  NoDup (get_unique_track_ids table) /\
  (forall i, i ∈ get_unique_track_ids table <-> i ∈ (fun r => t_id (cols r)) <$> table) /\
  d_id <$> get_deduplicated_tracks table ≡ₚ get_unique_track_ids table /\
  length (get_deduplicated_tracks table) = length (get_unique_track_ids table).
Proof.
  unfold get_unique_track_ids.
  assert (Hperm : d_id <$> get_deduplicated_tracks table
                  ≡ₚ remove_dups ((fun r => t_id (cols r)) <$> table)).
  { apply NoDup_Permutation.
    - apply get_deduplicated_tracks_NoDup.
    - apply NoDup_remove_dups.
    - intros i. rewrite get_deduplicated_tracks_ids. by rewrite elem_of_remove_dups. }
  split; [apply NoDup_remove_dups|]. split; [intros i; apply elem_of_remove_dups|].
  split; [exact Hperm|].
  rewrite <- (length_fmap d_id). by rewrite Hperm.
Qed.

(** ** The ingestion run, continued *)

Lemma stamp_rows_nonempty_ids (now : nat) (source : string) (fetched : list item) :
  Forall (fun r => t_id (cols r) <> "")
         (stamp_rows now (omap (row_values source) fetched)).
Proof.
  apply Forall_forall. intros r Hr.
  apply (list_elem_of_fmap_2 (fun r0 => t_id (cols r0))) in Hr.
  assert (Hids : (fun r0 => t_id (cols r0)) <$> stamp_rows now (omap (row_values source) fetched)
                 = omap item_id fetched).
  { rewrite <- (omap_row_values_ids source). unfold stamp_rows.
    rewrite <- list_fmap_compose. by apply list_fmap_ext. }
  rewrite Hids in Hr. apply list_elem_of_omap in Hr as (it & _ & Hit).
  by eapply item_id_nonempty.
Qed.

Lemma ingest_playlist_ids sp playlist_id w :
  Forall (fun r => t_id (cols r) <> "") (tracks w) ->
  Forall (fun r => t_id (cols r) <> "") (tracks (ingest_playlist sp playlist_id w).2).
Proof.
  intros Hinv.
  destruct (ingest_playlist sp playlist_id w) as [r w'] eqn:Hrun. simpl.
  revert Hrun. unfold ingest_playlist, try_except, bind at 1, playlist, call.
  destruct (sp_playlist sp (requests w) playlist_id) as [name|e]; simpl.
  2:{ by intros [= <- <-]. }
  unfold bind.
  destruct (fetch_playlist_tracks sp playlist_id _) as [[fetched|e|] w1] eqn:Hfetch;
    apply fetch_playlist_tracks_frame in Hfetch as (Hg & _ & Htr); simpl in Htr.
  - destruct (store_tracks_spec fetched playlist_id w1) as (now & Hstore & Hst & _).
    rewrite Hstore. intros [= <- <-]. rewrite Hst, Htr.
    apply Forall_app. split; [done|apply stamp_rows_nonempty_ids].
  - intros [= <- <-]. by rewrite Htr.
  - done.
Qed.

Lemma ingest_playlists_ids sp playlist_ids : forall w,
  Forall (fun r => t_id (cols r) <> "") (tracks w) ->
  Forall (fun r => t_id (cols r) <> "") (tracks (ingest_playlists sp playlist_ids w).2).
Proof.
  induction playlist_ids as [|playlist_id rest IH]; intros w Hinv; cbn [ingest_playlists].
  - done.
  - pose proof (ingest_playlist_ids sp playlist_id w Hinv) as H1.
    destruct (ingest_playlist_spec sp playlist_id w) as (added & Hr & _).
    unfold bind. destruct (ingest_playlist sp playlist_id w) as [r1 w1]. simpl in *. subst r1.
    by apply IH.
Qed.

(** X5: after an ingestion run that got past [current_user], every stored
    Record has a non-empty external identifier, whatever the client
    answered and whatever the table held before; and the run returns: a
    failure of a playlist is caught and the loop goes on. *)
Theorem ingest_main_ids_never_empty (sp : Spotify) (playlist_ids : list string)
    (w : World) (u : string) :
  sp_current_user sp (requests w) = inl u ->
  (ingest_main sp playlist_ids w).1 = Return tt /\
  Forall (fun r => t_id (cols r) <> "") (tracks (ingest_main sp playlist_ids w).2).
Proof.
  intros Hu. rewrite (ingest_main_clears sp playlist_ids w u Hu). split.
  - by destruct (ingest_playlists_spec sp playlist_ids
                   (set_tracks [] (set_requests (requests w ++ [CurrentUser]) w)))
      as (added & Hr & _).
  - apply ingest_playlists_ids. simpl. constructor.
Qed.

Lemma ingest_main_ids_never_empty_witness :
  let sp := stable_remote (fun _ => [ {| item_track := None; item_added_at := None |};
                                       sample_item 1 ]) in
  (ingest_main sp ["A"] empty_world).1 = Return tt /\
  Forall (fun r => t_id (cols r) <> "") (tracks (ingest_main sp ["A"] empty_world).2).
Proof.
  intros sp. apply (ingest_main_ids_never_empty sp ["A"] empty_world "user"). reflexivity.
Defined.

(** X6: when [current_user] raises, the ingestion run raises the same
    exception before it touches the store: the table and the checkpoint
    files are as they were, and no playlist is looked up. *)
Theorem ingest_main_auth_failure (sp : Spotify) (playlist_ids : list string)
    (w : World) (e : exn) :
  sp_current_user sp (requests w) = inr e ->
  (ingest_main sp playlist_ids w).1 = Raise e /\
  tracks (ingest_main sp playlist_ids w).2 = tracks w /\
  files (ingest_main sp playlist_ids w).2 = files w /\
  requests (ingest_main sp playlist_ids w).2 = requests w ++ [CurrentUser].
Proof.
  intros He. unfold ingest_main, bind, current_user, call. rewrite He. done.
Qed.

Lemma ingest_main_auth_failure_witness :
  let sp := {| sp_current_user := fun _ => inr (SpotifyException 401 None "Unauthorized");
               sp_playlist := fun _ _ => inl "x";
               sp_playlist_tracks := fun _ _ _ _ => inl {| page_items := []; page_total := 0 |};
               sp_playlist_add_items := fun _ _ _ => inl tt |} in
  let w := set_tracks [other_row] empty_world in
  tracks (ingest_main sp ["A"] w).2 = [other_row].
Proof.
  intros sp w.
  apply (ingest_main_auth_failure sp ["A"] w (SpotifyException 401 None "Unauthorized")).
  reflexivity.
Defined.

(** ** The paginated fetcher, continued *)

Section fetch_more.
Variable sp : Spotify.
Variable playlist_id : string.

(** One iteration, by the answer of the client. *)
Lemma fetch_page_result checkpoint_file offset all_tracks w :
  match sp_playlist_tracks sp (requests w) playlist_id offset 100 with
  | inl pg =>
      exists w',
        fetch_page sp playlist_id checkpoint_file offset all_tracks w
          = (Return (all_tracks ++ page_items pg), w') /\
        requests w' = requests w ++ [PlaylistTracks playlist_id offset 100]
  | inr e =>
      exists w',
        fetch_page sp playlist_id checkpoint_file offset all_tracks w = (Raise e, w') /\
        requests w' = requests w ++ [PlaylistTracks playlist_id offset 100] /\
        files w' !! checkpoint_file
          = Some (fetch_progress all_tracks offset (clock w) false (Some (str_exn e)))
  end.
Proof.
  unfold fetch_page, try_except, bind, playlist_tracks, call.
  destruct (sp_playlist_tracks sp (requests w) playlist_id offset 100) as [pg|e]; simpl.
  - destruct (_ <? 100); simpl; eauto.
  - eexists. split; [reflexivity|]. split; [done|]. apply lookup_insert_eq.
Qed.

(** The requests of the loop are page calls at ascending offsets below
    the total, and a run of the loop that raises has saved the buffer with
    the offset of the page that failed and the error. *)
Lemma fetch_pages_log checkpoint_file total gas : forall offset all_tracks w r w',
  total <= offset + gas ->
  fetch_pages sp playlist_id checkpoint_file total gas offset all_tracks w = (r, w') ->
  exists sent,
    requests w' = requests w ++ sent /\
    sent `prefix_of` page_requests playlist_id offset total /\
    match r with
    | Return (buffer, offset') => sent = page_requests playlist_id offset total
    | Raise e =>
        exists buffer failed now,
          files w' !! checkpoint_file
            = Some (fetch_progress buffer failed now false (Some (str_exn e))) /\
          last sent = Some (PlaylistTracks playlist_id failed 100) /\
          sp_playlist_tracks sp (removelast (requests w')) playlist_id failed 100 = inr e
    | OutOfGas => False
    end.
Proof.
  induction gas as [|gas IH]; intros offset all_tracks w r w' Hgas; cbn [fetch_pages].
  - destruct (Nat.ltb_spec offset total); [lia|]. intros [= <- <-].
    exists []. rewrite app_nil_r, page_requests_done by lia. done.
  - destruct (Nat.ltb_spec offset total) as [Hlt|Hge].
    2:{ intros [= <- <-]. exists []. rewrite app_nil_r, page_requests_done by lia. done. }
    rewrite (page_requests_next _ offset total Hlt). unfold bind.
    pose proof (fetch_page_result checkpoint_file offset all_tracks w) as Hpage.
    destruct (sp_playlist_tracks sp (requests w) playlist_id offset 100) as [pg|e] eqn:Hans.
    + destruct Hpage as (w1 & -> & Hreq1). intros Hrest.
      apply IH in Hrest as (sent & Hreq & Hpre & Hres); [|lia].
      exists (PlaylistTracks playlist_id offset 100 :: sent).
      split; [by rewrite Hreq, Hreq1, <- app_assoc|].
      split; [by apply prefix_cons|].
      destruct r as [[buffer offset']|e|]; [by rewrite Hres| |done].
      destruct Hres as (buffer & failed & now & Hfile & Hlast & Hfail).
      exists buffer, failed, now. split; [done|]. split; [|done].
      destruct sent; [done|]. by rewrite last_cons, Hlast.
    + destruct Hpage as (w1 & -> & Hreq1 & Hfile). intros [= <- <-].
      exists [PlaylistTracks playlist_id offset 100].
      split; [done|]. split; [apply prefix_cons, prefix_nil|].
      exists all_tracks, offset, (clock w).
      split; [done|]. split; [done|]. by rewrite Hreq1, removelast_last.
Qed.

End fetch_more.

(** A fetch either replays a complete checkpoint or runs [fetch_from] from
    the cursor of the checkpoint. *)
Lemma fetch_playlist_tracks_cases sp playlist_id w :
  (fetch_complete w playlist_id /\
   exists buffer, fetch_playlist_tracks sp playlist_id w = (Return buffer, w)) \/
  (~ fetch_complete w playlist_id /\
   exists buffer,
     fetch_playlist_tracks sp playlist_id w =
       fetch_from sp playlist_id (fetch_checkpoint_file playlist_id) buffer
         (fetch_start_offset w playlist_id) w).
Proof.
  unfold fetch_complete, fetch_start_offset.
  assert (Hrun : fetch_playlist_tracks sp playlist_id w =
    match files w !! fetch_checkpoint_file playlist_id with
    | Some ckpt =>
        if negb (default false (ck_complete ckpt)) then
          fetch_from sp playlist_id (fetch_checkpoint_file playlist_id)
            (default [] (ck_tracks ckpt)) (default 0 (ck_next_offset ckpt)) w
        else (Return (default [] (ck_tracks ckpt)), w)
    | None => fetch_from sp playlist_id (fetch_checkpoint_file playlist_id) [] 0 w
    end).
  { unfold fetch_playlist_tracks, bind, load_checkpoint. simpl.
    destruct (files w !! fetch_checkpoint_file playlist_id) as [ckpt|]; [|done].
    by destruct (negb (default false (ck_complete ckpt))). }
  rewrite Hrun. clear Hrun.
  destruct (files w !! fetch_checkpoint_file playlist_id) as [ckpt|] eqn:Hf.
  - destruct (default false (ck_complete ckpt)) eqn:Hc; simpl.
    + left. split; [by exists ckpt|]. by eexists.
    + right. split; [|by eexists].
      intros (ckpt' & Hf' & Hc'). injection Hf' as <-. congruence.
  - right. split; [|by eexists]. by intros (ckpt' & ? & _).
Qed.

(** X7: a fetch that raises has either failed on the probe, and then it
    saved nothing (the checkpoint files are as they were), or failed on a
    page, and then the checkpoint of the playlist is saved as not
    complete, with the error message and with the cursor at the page that
    failed, which is the last request sent. *)
Theorem fetch_failure_checkpointed (sp : Spotify) (playlist_id : string) (w : World) (e : exn) :
  (fetch_playlist_tracks sp playlist_id w).1 = Raise e ->
  let w' := (fetch_playlist_tracks sp playlist_id w).2 in
  (sp_playlist_tracks sp (requests w) playlist_id 0 1 = inr e /\
   files w' = files w /\
   requests w' = requests w ++ [PlaylistTracks playlist_id 0 1]) \/
  (exists ckpt failed,
     files w' !! fetch_checkpoint_file playlist_id = Some ckpt /\
     ck_complete ckpt = Some false /\
     ck_error ckpt = Some (str_exn e) /\
     ck_next_offset ckpt = Some failed /\
     last (requests w') = Some (PlaylistTracks playlist_id failed 100) /\
     sp_playlist_tracks sp (removelast (requests w')) playlist_id failed 100 = inr e).
Proof.
  intros Hraise w'. subst w'.
  destruct (fetch_playlist_tracks_cases sp playlist_id w) as [[_ [buffer Hrun]]|[_ [buffer Hrun]]].
  { rewrite Hrun in Hraise. done. }
  rewrite Hrun in Hraise |- *. clear Hrun. revert Hraise.
  destruct (fetch_from sp playlist_id _ buffer _ w) as [r w'] eqn:Hfrom. simpl.
  intros ->. revert Hfrom. unfold fetch_from, bind at 1, playlist_tracks, call.
  destruct (sp_playlist_tracks sp (requests w) playlist_id 0 1) as [pg|e0]; cbn [of_sum].
  2:{ intros [= -> <-]. left. done. }
  unfold bind at 1.
  destruct (fetch_pages _ _ _ _ _ _ _ _) as [[[buffer' offset]|e0|] w1] eqn:Hpages.
  - unfold bind, datetime_now, save_checkpoint, json_dump, ret. simpl. done.
  - intros [= -> <-]. right.
    apply fetch_pages_log in Hpages as (sent & Hreq & _ & Hres); [|lia].
    destruct Hres as (buf & failed & now & Hfile & Hlast & Hfail).
    exists (fetch_progress buf failed now false (Some (str_exn e))), failed.
    split; [done|]. split; [done|]. split; [done|]. split; [done|]. split; [|done].
    rewrite Hreq. destruct sent as [|rq sent]; [done|].
    rewrite last_app. by rewrite Hlast.
  - done.
Qed.

Lemma fetch_failure_checkpointed_witness :
  let sp := failing_remote (sample_items 250) 100 (Exception "timeout") in
  let w' := (fetch_playlist_tracks sp "p1" empty_world).2 in
  (sp_playlist_tracks sp [] "p1" 0 1 = inr (Exception "timeout") /\
   files w' = ∅ /\ requests w' = [PlaylistTracks "p1" 0 1]) \/
  (exists ckpt failed,
     files w' !! fetch_checkpoint_file "p1" = Some ckpt /\
     ck_complete ckpt = Some false /\
     ck_error ckpt = Some "timeout" /\
     ck_next_offset ckpt = Some failed /\
     last (requests w') = Some (PlaylistTracks "p1" failed 100) /\
     sp_playlist_tracks sp (removelast (requests w')) "p1" failed 100
       = inr (Exception "timeout")).
Proof.
  intros sp w'.
  apply (fetch_failure_checkpointed sp "p1" empty_world (Exception "timeout")).
  vm_compute. reflexivity.
Defined.

(** X8: a fetch that returns has left a complete checkpoint that holds
    what it returned: the next fetch of the playlist, with any client,
    returns the same sequence and changes nothing. *)
Theorem fetch_twice_same (sp sp' : Spotify) (playlist_id : string) (w : World)
    (buffer : list item) :
  (fetch_playlist_tracks sp playlist_id w).1 = Return buffer ->
  fetch_playlist_tracks sp' playlist_id (fetch_playlist_tracks sp playlist_id w).2
    = (Return buffer, (fetch_playlist_tracks sp playlist_id w).2).
Proof.
  destruct (fetch_playlist_tracks sp playlist_id w) as [r w'] eqn:Hrun. simpl. intros ->.
  apply fetch_playlist_tracks_returns in Hrun as (ckpt & Hf & Hc & <-).
  by apply fetch_playlist_tracks_complete.
Qed.

Lemma fetch_twice_same_witness :
  let sp := stable_remote (fun _ => sample_items 120) in
  let w' := (fetch_playlist_tracks sp "p1" empty_world).2 in
  fetch_playlist_tracks (failing_remote [] 0 (Exception "down")) "p1" w'
    = (Return (sample_items 120), w').
Proof.
  intros sp w'.
  apply (fetch_twice_same sp (failing_remote [] 0 (Exception "down")) "p1" empty_world).
  vm_compute. reflexivity.
Defined.

(** X9: whatever the client answers, a fetch that does not replay sends
    the probe and then only page calls with limit 100, at the cursor, the
    cursor plus 100 and so on in ascending order and always below the
    total the probe reported; a fetch that returns has sent all of
    them. *)
Theorem fetch_requests_in_order (sp : Spotify) (playlist_id : string) (w : World) (pg : page) :
  ~ fetch_complete w playlist_id ->
  sp_playlist_tracks sp (requests w) playlist_id 0 1 = inl pg ->
  let run := fetch_playlist_tracks sp playlist_id w in
  exists sent,
    requests run.2 = requests w ++ PlaylistTracks playlist_id 0 1 :: sent /\
    sent `prefix_of`
      page_requests playlist_id (fetch_start_offset w playlist_id) (page_total pg) /\
    (forall buffer, run.1 = Return buffer ->
       sent = page_requests playlist_id (fetch_start_offset w playlist_id) (page_total pg)).
Proof.
  intros Hnc Hprobe run. subst run.
  destruct (fetch_playlist_tracks_cases sp playlist_id w) as [[Hc _]|[_ [buffer Hrun]]]; [done|].
  rewrite Hrun. clear Hrun.
  destruct (fetch_from sp playlist_id _ buffer _ w) as [r w'] eqn:Hfrom. simpl.
  revert Hfrom. unfold fetch_from, bind at 1, playlist_tracks, call.
  rewrite Hprobe. cbn [of_sum]. unfold bind at 1.
  destruct (fetch_pages _ _ _ _ _ _ _ _) as [[[buffer' offset]|e0|] w1] eqn:Hpages;
    apply fetch_pages_log in Hpages as (sent & Hreq & Hpre & Hres); try lia.
  - unfold bind, datetime_now, save_checkpoint, json_dump, ret. simpl. intros [= <- <-].
    exists sent. simpl. rewrite Hreq. simpl. rewrite <- app_assoc. done.
  - intros [= <- <-]. exists sent. rewrite Hreq. simpl. rewrite <- app_assoc.
    split; [done|]. split; [done|]. done.
Qed.

Lemma fetch_requests_in_order_witness :
  let sp := failing_remote (sample_items 250) 100 (Exception "timeout") in
  let run := fetch_playlist_tracks sp "p1" empty_world in
  exists sent,
    requests run.2 = PlaylistTracks "p1" 0 1 :: sent /\
    sent `prefix_of` page_requests "p1" 0 250 /\
    (forall buffer, run.1 = Return buffer -> sent = page_requests "p1" 0 250).
Proof.
  intros sp run.
  apply (fetch_requests_in_order sp "p1" empty_world
           {| page_items := take 1 (sample_items 250); page_total := 250 |}).
  - intros (ckpt & Hf & _). discriminate.
  - reflexivity.
Defined.

(** ** The batched writer, continued *)

Lemma batches_from_closed (start : nat) (uris : list string) :
  batches_from start uris =
    (fun k => take 100 (drop (start + k * 100) uris))
      <$> seq 0 ((length uris - start + 99) / 100).
Proof.
  unfold batches_from, range_step, batch_at. rewrite <- list_fmap_compose, length_drop.
  replace (length uris - start + 100 - 1) with (length uris - start + 99) by lia.
  apply list_fmap_ext. intros _ k _. simpl. by rewrite drop_drop.
Qed.

Lemma batches_from_drop (start K : nat) (uris : list string) :
  batches_from (start + K * 100) uris = drop K (batches_from start uris).
Proof.
  rewrite !batches_from_closed, <- fmap_drop.
  replace ((length uris - (start + K * 100) + 99) / 100)
    with ((length uris - start + 99) / 100 - K).
  2:{ pose proof (remaining_count (length uris - start) K) as Hc.
      replace (length uris - start - K * 100 + 100 - 1)
        with (length uris - (start + K * 100) + 99) in Hc by lia.
      by rewrite Hc. }
  rewrite drop_seq. replace (0 + K) with (K + 0) by lia.
  rewrite <- (fmap_add_seq K), <- list_fmap_compose.
  apply list_fmap_ext. intros _ k _. simpl. do 2 f_equal. lia.
Qed.

Lemma batches_from_lookup (start K : nat) (uris : list string) (b : list string) :
  batches_from start uris !! K = Some b ->
  b = take 100 (drop (start + K * 100) uris) /\ start + K * 100 < length uris.
Proof.
  rewrite batches_from_closed, list_lookup_fmap.
  destruct (seq 0 _ !! K) as [k|] eqn:Hk; [|done]. simpl. intros [= <-].
  apply lookup_seq in Hk as [-> Hlt]. simpl. split; [done|].
  assert (S K * 100 <= length uris - start + 99); [|lia].
  pose proof (Nat.div_mod_eq (length uris - start + 99) 100) as Hd.
  set (q := (length uris - start + 99) / 100) in *. nia.
Qed.

(** The batches before the last one that is cut are full. *)
Lemma batches_from_full (start K : nat) (uris : list string) :
  K < length (batches_from start uris) ->
  sum_list_with length (take K (batches_from start uris)) = K * 100.
Proof.
  induction K as [|K IH]; intros HK; [by rewrite take_0|].
  destruct (lookup_lt_is_Some_2 (batches_from start uris) K ltac:(lia)) as [b Hb].
  rewrite (take_S_r _ _ _ Hb), sum_list_with_app, IH by lia. simpl.
  destruct (lookup_lt_is_Some_2 (batches_from start uris) (S K) HK) as [b' Hb'].
  apply batches_from_lookup in Hb as [-> _]. apply batches_from_lookup in Hb' as [_ Hlt].
  rewrite length_take, length_drop. lia.
Qed.

Section write_more.
Variable sp : Spotify.
Variable playlist_id : string.

(** One batch, by the answer of the client. *)
Lemma add_batch_result checkpoint_file remaining_uris i tracks_added w :
  exists w',
    requests w' = requests w ++ [PlaylistAddItems playlist_id (batch_at remaining_uris i)] /\
    match sp_playlist_add_items sp (requests w) playlist_id (batch_at remaining_uris i) with
    | inl _ =>
        add_batch sp playlist_id checkpoint_file remaining_uris i tracks_added w
          = (Return (tracks_added + length (batch_at remaining_uris i)), w') /\
        sleeps w' = sleeps w ++ [100] /\
        files w' !! checkpoint_file
          = Some (write_progress playlist_id
                    (tracks_added + length (batch_at remaining_uris i)) (clock w) None None)
    | inr e =>
        add_batch sp playlist_id checkpoint_file remaining_uris i tracks_added w
          = (Raise e, w') /\
        sleeps w' = sleeps w /\
        files w' !! checkpoint_file
          = Some (write_progress playlist_id tracks_added (clock w) None (Some (str_exn e)))
    end.
Proof.
  unfold add_batch, try_except, bind, playlist_add_items, call.
  fold (batch_at remaining_uris i).
  destruct (sp_playlist_add_items sp (requests w) playlist_id (batch_at remaining_uris i))
    as [[]|e]; simpl; eexists; (split; [|split; [reflexivity|split]]); simpl;
    try done; apply lookup_insert_eq.
Qed.

Lemma add_batches_result checkpoint_file remaining_uris indices :
  forall tracks_added w r w',
  add_batches sp playlist_id checkpoint_file remaining_uris indices tracks_added w = (r, w') ->
  match r with
  | Return n =>
      n = tracks_added + sum_list_with length (batch_at remaining_uris <$> indices) /\
      requests w' = requests w
        ++ (PlaylistAddItems playlist_id <$> (batch_at remaining_uris <$> indices)) /\
      sleeps w' = sleeps w ++ replicate (length indices) 100 /\
      (indices <> [] ->
       exists now, files w' !! checkpoint_file
                   = Some (write_progress playlist_id n now None None))
  | Raise e =>
      exists K now,
        K < length indices /\
        requests w' = requests w
          ++ (PlaylistAddItems playlist_id <$> (batch_at remaining_uris <$> take (S K) indices)) /\
        files w' !! checkpoint_file
          = Some (write_progress playlist_id
                    (tracks_added
                     + sum_list_with length (batch_at remaining_uris <$> take K indices))
                    now None (Some (str_exn e)))
  | OutOfGas => False
  end.
Proof.
  induction indices as [|i indices IH]; intros tracks_added w r w'; cbn [add_batches].
  - intros [= <- <-]. simpl. rewrite !app_nil_r. split; [lia|]. done.
  - unfold bind.
    destruct (add_batch_result checkpoint_file remaining_uris i tracks_added w)
      as (w1 & Hreq1 & Hans).
    destruct (sp_playlist_add_items sp (requests w) playlist_id (batch_at remaining_uris i))
      as [[]|e].
    + destruct Hans as (-> & Hsl1 & Hfile1). intros Hrest.
      pose proof (IH _ _ _ _ Hrest) as Hres.
      destruct r as [n|e|]; [| |done].
      * destruct Hres as (-> & Hreq & Hsl & Hfile).
        split; [rewrite fmap_cons; simpl; lia|].
        split; [rewrite Hreq, Hreq1, <- app_assoc; done|].
        split; [rewrite Hsl, Hsl1, <- app_assoc; done|].
        intros _. destruct indices as [|i' indices'].
        -- injection Hrest as _ <-. exists (clock w).
           rewrite Hfile1. do 2 f_equal; simpl; lia.
        -- destruct Hfile as [now Hfile]; [done|]. exists now. rewrite Hfile.
           do 2 f_equal; rewrite ?fmap_cons; simpl; lia.
      * destruct Hres as (K & now & HK & Hreq & Hfile).
        exists (S K), now. split; [simpl; lia|].
        split; [rewrite Hreq, Hreq1, <- app_assoc; done|].
        rewrite Hfile. do 2 f_equal;
          rewrite ?(firstn_cons K), ?fmap_cons; simpl; lia.
    + destruct Hans as (-> & Hsl1 & Hfile1). intros [= <- <-].
      exists 0, (clock w). split; [simpl; lia|]. split; [done|].
      rewrite Hfile1. do 2 f_equal; simpl; lia.
Qed.

(** The whole write, by its outcome. *)
Lemma add_tracks_to_playlist_result track_ids w :
  let start := write_start_index w playlist_id in
  let uris := track_uri <$> track_ids in
  let run := add_tracks_to_playlist sp playlist_id track_ids w in
  match run.1 with
  | Return n =>
      n = length track_ids /\
      requests run.2 = requests w ++ (PlaylistAddItems playlist_id <$> batches_from start uris) /\
      sleeps run.2 = sleeps w ++ replicate (length (batches_from start uris)) 100 /\
      (start < length track_ids ->
       exists now, files run.2 !! write_checkpoint_file playlist_id
                   = Some (write_progress playlist_id (length track_ids) now (Some true) None)) /\
      (length track_ids <= start -> run.2 = w)
  | Raise e =>
      exists K now,
        K < length (batches_from start uris) /\
        requests run.2 = requests w
          ++ (PlaylistAddItems playlist_id <$> take (S K) (batches_from start uris)) /\
        files run.2 !! write_checkpoint_file playlist_id
          = Some (write_progress playlist_id (start + K * 100) now None (Some (str_exn e)))
  | OutOfGas => False
  end.
Proof.
  intros start uris run. subst run.
  destruct (add_tracks_to_playlist sp playlist_id track_ids w) as [r w'] eqn:Hrun. simpl.
  revert Hrun. unfold add_tracks_to_playlist, bind at 1, load_checkpoint. cbn [fst snd].
  fold (write_start_index w playlist_id). fold start. fold uris.
  assert (Hlen : length (drop start uris) = length track_ids - start).
  { unfold uris. by rewrite length_drop, length_fmap. }
  destruct (drop start uris) as [|u rest] eqn:Hrem.
  - intros [= <- <-]. unfold batches_from. rewrite Hrem. simpl in *.
    rewrite !app_nil_r. split; [done|]. split; [done|]. split; [done|].
    split; [lia|done].
  - rewrite <- Hrem in *. simpl in Hlen. unfold bind at 1.
    destruct (add_batches _ _ _ _ _ _ _) as [[n|e|] w1] eqn:Hb;
      apply add_batches_result in Hb; fold (batches_from start uris) in Hb.
    + destruct Hb as (-> & Hreq & Hsl & _).
      unfold bind, datetime_now, json_dump, ret. simpl. intros [= <- <-]. simpl.
      assert (Hsum : start + sum_list_with length (batches_from start uris) = length track_ids).
      { pose proof (remaining_batches_concat 0 (drop start uris)) as Hc.
        rewrite <- remaining_batches_range in Hc. simpl in Hc. rewrite drop_0 in Hc.
        fold (batches_from start uris) in Hc.
        assert (Hl : sum_list_with length (batches_from start uris)
                     = length (concat (batches_from start uris))).
        { clear. induction (batches_from start uris) as [|b l IH]; [done|].
          simpl. rewrite length_app. lia. }
        rewrite Hl, Hc, Hlen. rewrite Hrem in Hlen. simpl in Hlen. lia. }
      split; [done|]. split; [done|].
      split; [unfold batches_from; by rewrite length_fmap in *|].
      split.
      * intros _. exists (clock w1). rewrite lookup_insert_eq. by rewrite Hsum.
      * intros Hge. rewrite Hrem in Hlen. simpl in Hlen. lia.
    + destruct Hb as (K & now & HK & Hreq & Hfile). intros [= <- <-].
      exists K, now. split; [unfold batches_from; by rewrite length_fmap|].
      rewrite fmap_take in Hreq, Hfile. fold (batches_from start uris) in Hreq, Hfile.
      split; [done|]. rewrite Hfile. do 2 f_equal.
      rewrite batches_from_full; [done|]. unfold batches_from. by rewrite length_fmap.
    + done.
Qed.

End write_more.

(** X10: when the cursor of an incomplete checkpoint is at or past the
    end of the ids, and so whenever there is no id to write, the write
    returns the count of the ids and does nothing else: no request, no
    sleep, and the checkpoint is not rewritten (so it is not marked
    complete). *)
Theorem add_tracks_nothing_to_do (sp : Spotify) (playlist_id : string)
    (track_ids : list string) (w : World) :
  length track_ids <= write_start_index w playlist_id ->
  add_tracks_to_playlist sp playlist_id track_ids w = (Return (length track_ids), w).
Proof.
  intros Hge. unfold add_tracks_to_playlist, bind at 1, load_checkpoint. cbn [fst snd].
  fold (write_start_index w playlist_id).
  rewrite drop_ge by (by rewrite length_fmap). done.
Qed.

Lemma add_tracks_nothing_to_do_witness :
  let w := set_files {[ write_checkpoint_file "pl" :=
                          write_progress "pl" 3 7 None (Some "timeout") ]} empty_world in
  add_tracks_to_playlist (stable_remote (fun _ => [])) "pl" ["a"; "b"; "c"] w = (Return 3, w).
Proof.
  intros w.
  apply (add_tracks_nothing_to_do (stable_remote (fun _ => [])) "pl" ["a"; "b"; "c"] w).
  vm_compute. lia.
Defined.

(** The write on a client whose writes succeed. *)
Lemma add_tracks_accepted (sp : Spotify) (playlist_id : string)
    (track_ids : list string) (w : World) :
  accepts_writes sp playlist_id ->
  write_start_index w playlist_id < length track_ids ->
  let start := write_start_index w playlist_id in
  let batches := batches_from start (track_uri <$> track_ids) in
  let run := add_tracks_to_playlist sp playlist_id track_ids w in
  run.1 = Return (length track_ids) /\
  requests run.2 = requests w ++ (PlaylistAddItems playlist_id <$> batches) /\
  concat batches = drop start (track_uri <$> track_ids) /\
  sleeps run.2 = sleeps w ++ replicate (length batches) 100 /\
  exists now,
    files run.2 !! write_checkpoint_file playlist_id
      = Some (write_progress playlist_id (length track_ids) now (Some true) None).
Proof.
  intros Hok Hlt start batches run.
  pose proof (add_tracks_to_playlist_result sp playlist_id track_ids w) as Hres.
  cbv zeta in Hres. fold start batches run in Hres.
  assert (Hret : exists n, run.1 = Return n).
  { destruct run as [r w'] eqn:Hrun. subst run.
    apply (add_tracks_from_spec sp playlist_id track_ids w r w' start eq_refl) in Hrun
      as (done_ & _ & _ & _ & _ & _ & Hall).
    apply Hall, Hok. }
  destruct Hret as [n Hn]. rewrite Hn in Hres.
  destruct Hres as (-> & Hreq & Hsl & Hfile & _).
  split; [done|]. split; [done|]. split; [|split; [done|by apply Hfile]].
  pose proof (remaining_batches_concat 0 (drop start (track_uri <$> track_ids))) as Hc.
  rewrite <- remaining_batches_range in Hc. simpl in Hc. by rewrite drop_0 in Hc.
Qed.

(** X11: on a client whose writes succeed, a write that has ids left to
    write returns the count of all the ids, submits the batches from its
    start index on, sleeps 100 ms after every batch, and leaves the
    checkpoint of the playlist marked complete with the count of all the
    ids. *)
Theorem add_tracks_success (sp : Spotify) (playlist_id : string)
    (track_ids : list string) (w : World) :
  accepts_writes sp playlist_id ->
  write_start_index w playlist_id < length track_ids ->
  let start := write_start_index w playlist_id in
  let batches := batches_from start (track_uri <$> track_ids) in
  let run := add_tracks_to_playlist sp playlist_id track_ids w in
  run.1 = Return (length track_ids) /\
  requests run.2 = requests w ++ (PlaylistAddItems playlist_id <$> batches) /\
  concat batches = drop start (track_uri <$> track_ids) /\
  sleeps run.2 = sleeps w ++ replicate (length batches) 100 /\
  exists now,
    files run.2 !! write_checkpoint_file playlist_id
      = Some (write_progress playlist_id (length track_ids) now (Some true) None).
Proof. apply add_tracks_accepted. Qed.

Lemma add_tracks_success_witness :
  let run := add_tracks_to_playlist (stable_remote (fun _ => [])) "pl" (sample_ids 150)
               empty_world in
  run.1 = Return 150 /\ sleeps run.2 = [100; 100].
Proof.
  intros run.
  destruct (add_tracks_success (stable_remote (fun _ => [])) "pl" (sample_ids 150) empty_world)
    as (Hret & _ & _ & Hsl & _).
  - intros h b. reflexivity.
  - vm_compute. lia.
  - split; [exact Hret|exact Hsl].
Defined.

(** X12: a write that raises has saved, in a checkpoint that is not
    complete, the count of the ids of the batches that succeeded, the
    last request being the batch that failed; a later write of the same
    ids on a client whose writes succeed then submits that batch and the
    batches after it, and none of the batches that succeeded: across the
    two runs every batch is accepted exactly once. *)
Theorem add_tracks_interrupted_then_resumed (sp sp2 : Spotify) (playlist_id : string)
    (track_ids : list string) (w : World) (e : exn) :
  (add_tracks_to_playlist sp playlist_id track_ids w).1 = Raise e ->
  accepts_writes sp2 playlist_id ->
  let start := write_start_index w playlist_id in
  let batches := batches_from start (track_uri <$> track_ids) in
  let w1 := (add_tracks_to_playlist sp playlist_id track_ids w).2 in
  let resumed := add_tracks_to_playlist sp2 playlist_id track_ids w1 in
  exists K,
    K < length batches /\
    requests w1 = requests w ++ (PlaylistAddItems playlist_id <$> take (S K) batches) /\
    write_start_index w1 playlist_id = start + K * 100 /\
    resumed.1 = Return (length track_ids) /\
    requests resumed.2 = requests w1 ++ (PlaylistAddItems playlist_id <$> drop K batches).
Proof.
  intros Hraise Hok start batches w1 resumed.
  pose proof (add_tracks_to_playlist_result sp playlist_id track_ids w) as Hres.
  cbv zeta in Hres. rewrite Hraise in Hres. fold start batches w1 in Hres.
  destruct Hres as (K & now & HK & Hreq & Hfile).
  assert (Hstart1 : write_start_index w1 playlist_id = start + K * 100).
  { unfold write_start_index at 1. by rewrite Hfile. }
  assert (Hlt : start + K * 100 < length track_ids).
  { destruct (lookup_lt_is_Some_2 batches K HK) as [b Hb].
    apply batches_from_lookup in Hb as [_ Hb]. by rewrite length_fmap in Hb. }
  exists K. split; [done|]. split; [done|]. split; [done|].
  destruct (add_tracks_accepted sp2 playlist_id track_ids w1 Hok) as (Hret & Hreq2 & _).
  { by rewrite Hstart1. }
  rewrite Hstart1, batches_from_drop in Hreq2. done.
Qed.

Lemma add_tracks_interrupted_then_resumed_witness :
  let sp := write_fails_after 1 (Exception "reset") in
  let w1 := (add_tracks_to_playlist sp "pl" (sample_ids 250) empty_world).2 in
  let resumed := add_tracks_to_playlist (stable_remote (fun _ => [])) "pl" (sample_ids 250) w1 in
  exists K,
    K < length (batches_from 0 (track_uri <$> sample_ids 250)) /\
    requests w1
      = PlaylistAddItems "pl" <$> take (S K) (batches_from 0 (track_uri <$> sample_ids 250)) /\
    write_start_index w1 "pl" = K * 100 /\
    resumed.1 = Return 250 /\
    requests resumed.2
      = requests w1
        ++ (PlaylistAddItems "pl" <$> drop K (batches_from 0 (track_uri <$> sample_ids 250))).
Proof.
  intros sp w1 resumed.
  apply (add_tracks_interrupted_then_resumed sp (stable_remote (fun _ => [])) "pl"
           (sample_ids 250) empty_world (Exception "reset")).
  - vm_compute. reflexivity.
  - intros h b. reflexivity.
Defined.

(** X13: the URI the writer submits for an id always starts with
    [spotify:]; an id that already does is submitted as it is, so forming
    the URI twice changes nothing. *)
Theorem track_uri_idempotent (tid : string) :
  String.prefix "spotify:" (track_uri tid) = true /\
  track_uri (track_uri tid) = track_uri tid /\
  (String.prefix "spotify:" tid = true -> track_uri tid = tid) /\
  (String.prefix "spotify:" tid = false -> track_uri tid = "spotify:track:" +:+ tid).
Proof.
  assert (Hp : String.prefix "spotify:" (track_uri tid) = true).
  { unfold track_uri. destruct (String.prefix "spotify:" tid) eqn:Hpre; simpl; [done|].
    reflexivity. }
  split; [exact Hp|]. split.
  - unfold track_uri at 1. by rewrite Hp.
  - unfold track_uri. split; intros ->; reflexivity.
Qed.

(** ** The retry wrapper, continued *)

Section retry_more.
Context {A : Type}.
Variable func : nat -> A + exn.

Lemma failed_attempts_S (a k : nat) :
  failed_attempts func a (S k) =
    match func a with
    | inr e => [Invoke a; Sleep (backoff a e)]
    | inl _ => []
    end ++ failed_attempts func (S a) k.
Proof. reflexivity. Qed.

Lemma failed_attempts_invocations (k : nat) : forall a,
  (forall i, a <= i < a + k -> exists e, func i = inr e) ->
  invocations (failed_attempts func a k) = k.
Proof.
  induction k as [|k IH]; intros a Hfail; [done|].
  rewrite failed_attempts_S. destruct (Hfail a ltac:(lia)) as [e ->]. simpl.
  rewrite IH; [done|]. intros i Hi. apply Hfail. lia.
Qed.

Lemma failed_attempts_sleep_exponential (k : nat) : forall a,
  (forall i, a <= i < a + k -> exists e, func i = inr e /\ is_rate_limit e = false) ->
  total_sleep (failed_attempts func a k)
    = (2 ^ Z.of_nat (a + k) - 2 ^ Z.of_nat a + Z.of_nat k)%Z.
Proof.
  induction k as [|k IH]; intros a Hfail.
  - rewrite Nat.add_0_r. simpl. lia.
  - rewrite failed_attempts_S. destruct (Hfail a ltac:(lia)) as (e & -> & Hrl).
    cbn [app total_sleep]. rewrite IH by (intros i Hi; apply Hfail; lia).
    assert (Hb : backoff a e = (2 ^ Z.of_nat a + 1)%Z).
    { destruct e as [st headers msg|msg]; [|done]. simpl in *. by rewrite Hrl. }
    rewrite Hb. replace (S a + k) with (a + S k) by lia.
    replace (Z.of_nat (S a)) with (Z.of_nat a + 1)%Z by lia.
    rewrite Z.pow_add_r by lia. lia.
Qed.

Lemma failed_attempts_sleep_rate_limited (retry_after : option Z) (k : nat) : forall a,
  (forall i, a <= i < a + k -> exists msg, func i = inr (SpotifyException 429 retry_after msg)) ->
  total_sleep (failed_attempts func a k) = (Z.of_nat k * (default 5 retry_after + 1))%Z.
Proof.
  induction k as [|k IH]; intros a Hfail; [done|].
  rewrite failed_attempts_S. destruct (Hfail a ltac:(lia)) as (msg & ->).
  cbn [app total_sleep backoff]. rewrite IH by (intros i Hi; apply Hfail; lia).
  simpl. lia.
Qed.

End retry_more.

(** X14: when the wrapped call succeeds at the attempt [k], after
    failures that were all retried, the wrapper returns its value after
    [k + 1] invocations, having slept after each of the failures and not
    after the success. *)
Theorem robust_api_call_succeeds_at {A : Type} (func : nat -> A + exn)
    (max_retries k : nat) (v : A) :
  k < max_retries ->
  (forall i, i < k -> exists e, func i = inr e /\ is_client_error e = false) ->
  func k = inl v ->
  robust_api_call func max_retries = (inl v, failed_attempts func 0 k ++ [Invoke k]) /\
  invocations (robust_api_call func max_retries).2 = S k.
Proof.
  intros Hk Hfail Hv.
  assert (Hrun : robust_api_call func max_retries
                 = (inl v, failed_attempts func 0 k ++ [Invoke k])).
  { unfold robust_api_call.
    pose proof (attempts_failed_prefix func max_retries k (S (max_retries - S k)) 0) as Hrun.
    replace (k + S (max_retries - S k)) with max_retries in Hrun by lia.
    rewrite Hrun by (intros i Hi; apply Hfail; lia). simpl. by rewrite Hv. }
  split; [exact Hrun|]. rewrite Hrun. simpl.
  assert (Hinv : forall tr1 tr2, invocations (tr1 ++ tr2) = invocations tr1 + invocations tr2).
  { clear. induction tr1 as [|[?|?] tr1 IH]; intros tr2; simpl; [done| |]; by rewrite IH. }
  rewrite Hinv, failed_attempts_invocations; [simpl; lia|].
  intros i Hi. destruct (Hfail i ltac:(lia)) as (e & He & _). eauto.
Qed.

Lemma robust_api_call_succeeds_at_witness :
  robust_api_call
    (fun i => if i <? 2 then inr (SpotifyException 429 (Some 3%Z) "rate") else inl "ok") 5
  = (inl "ok", [Invoke 0; Sleep 4; Invoke 1; Sleep 4; Invoke 2]).
Proof.
  apply (robust_api_call_succeeds_at
           (fun i => if i <? 2 then inr (SpotifyException 429 (Some 3%Z) "rate") else inl "ok")
           5 2 "ok").
  - lia.
  - intros i Hi. exists (SpotifyException 429 (Some 3%Z) "rate").
    destruct i as [|[|i]]; [done|done|lia].
  - reflexivity.
Defined.

(** X15: when every attempt fails with an error that is retried, the
    rate-limit signals among them too, the wrapper invokes the call
    [max_retries] times, sleeps after each, the last one too, and raises
    an exception with the message "Max retries (n) exceeded"; with
    [max_retries = 0] the call is never invoked. *)
Theorem robust_api_call_exhausted {A : Type} (func : nat -> A + exn) (max_retries : nat) :
  (forall i, i < max_retries -> exists e, func i = inr e /\ is_client_error e = false) ->
  robust_api_call func max_retries
    = (inr (Exception ("Max retries (" +:+ str_nat max_retries +:+ ") exceeded")),
       failed_attempts func 0 max_retries) /\
  invocations (robust_api_call func max_retries).2 = max_retries.
Proof.
  intros Hfail.
  assert (Hrun : robust_api_call func max_retries
    = (inr (Exception ("Max retries (" +:+ str_nat max_retries +:+ ") exceeded")),
       failed_attempts func 0 max_retries)).
  { unfold robust_api_call.
    pose proof (attempts_failed_prefix func max_retries max_retries 0 0) as Hrun.
    rewrite Nat.add_0_r in Hrun. rewrite Hrun by (intros i Hi; apply Hfail; lia).
    simpl. by rewrite app_nil_r. }
  split; [exact Hrun|]. rewrite Hrun. simpl.
  apply failed_attempts_invocations. intros i Hi.
  destruct (Hfail i ltac:(lia)) as (e & He & _). eauto.
Qed.

Lemma robust_api_call_exhausted_witness :
  robust_api_call (fun _ => inr (SpotifyException 503 None "unavailable") : unit + exn) 2
  = (inr (Exception "Max retries (2) exceeded"),
     [Invoke 0; Sleep 2; Invoke 1; Sleep 3]).
Proof.
  apply (robust_api_call_exhausted
           (fun _ => inr (SpotifyException 503 None "unavailable") : unit + exn) 2).
  intros i Hi. exists (SpotifyException 503 None "unavailable"). done.
Defined.

(** X16: the time a run sleeps when every attempt fails: [2^n + n - 1]
    seconds over [n] attempts when no failure is a rate-limit signal (36
    seconds for the default 5), and [n] times the announced delay plus one
    (6 seconds each without a [Retry-After] header) when every failure is
    a rate-limit signal, which uses up the attempts like any other
    failure. *)
Theorem robust_api_call_total_sleep {A : Type} (func : nat -> A + exn)
    (max_retries : nat) (retry_after : option Z) :
  ((forall i, i < max_retries ->
      exists e, func i = inr e /\ is_client_error e = false /\ is_rate_limit e = false) ->
   total_sleep (robust_api_call func max_retries).2
     = (2 ^ Z.of_nat max_retries + Z.of_nat max_retries - 1)%Z) /\
  ((forall i, i < max_retries ->
      exists msg, func i = inr (SpotifyException 429 retry_after msg)) ->
   total_sleep (robust_api_call func max_retries).2
     = (Z.of_nat max_retries * (default 5 retry_after + 1))%Z /\
   invocations (robust_api_call func max_retries).2 = max_retries).
Proof.
  assert (Hrun : (forall i, i < max_retries ->
                    exists e, func i = inr e /\ is_client_error e = false) ->
                 (robust_api_call func max_retries).2 = failed_attempts func 0 max_retries).
  { intros Hfail. unfold robust_api_call.
    pose proof (attempts_failed_prefix func max_retries max_retries 0 0) as Hrun.
    rewrite Nat.add_0_r in Hrun. rewrite Hrun by (intros i Hi; apply Hfail; lia).
    simpl. by rewrite app_nil_r. }
  split.
  - intros Hfail. rewrite Hrun.
    + rewrite failed_attempts_sleep_exponential; [simpl; lia|].
      intros i Hi. destruct (Hfail i ltac:(lia)) as (e & He & _ & Hrl). eauto.
    + intros i Hi. destruct (Hfail i Hi) as (e & He & Hc & _). eauto.
  - intros Hfail. rewrite Hrun.
    + split.
      * apply failed_attempts_sleep_rate_limited. intros i Hi. apply Hfail. lia.
      * apply failed_attempts_invocations. intros i Hi.
        destruct (Hfail i ltac:(lia)) as (msg & He). eauto.
    + intros i Hi. destruct (Hfail i Hi) as (msg & He). eauto.
Qed.

Lemma robust_api_call_total_sleep_witness :
  total_sleep (robust_api_call (fun _ => inr (Exception "reset") : unit + exn)
                 default_max_retries).2 = 36%Z.
Proof.
  apply (proj1 (robust_api_call_total_sleep
                  (fun _ => inr (Exception "reset") : unit + exn) default_max_retries None)).
  intros i Hi. exists (Exception "reset"). done.
Defined.

(** ** The merge run *)

Lemma SPOTIFY_PLAYLIST_LIMIT_pos : 0 < SPOTIFY_PLAYLIST_LIMIT.
Proof. apply Nat.ltb_lt. vm_compute. reflexivity. Qed.

(** Cutting a list into [n] consecutive slices of [L] loses nothing when
    [n * L] reaches its end. *)
Lemma slices_concat (L n : nat) : forall l : list string,
  length l <= n * L ->
  concat ((fun k => take L (drop (k * L) l)) <$> seq 0 n) = l.
Proof.
  induction n as [|n IH]; intros l Hlen.
  - destruct l; simpl in *; [done|lia].
  - cbn [seq fmap list_fmap concat]. rewrite <- fmap_S_seq, <- list_fmap_compose.
    simpl. rewrite drop_0.
    transitivity (take L l ++ drop L l); [|apply take_drop]. f_equal.
    rewrite <- (IH (drop L l)) by (rewrite length_drop; lia).
    f_equal. apply list_fmap_ext. intros _ k _. simpl.
    rewrite drop_drop. do 2 f_equal; lia.
Qed.

(** The rounded-up quotient. *)
Lemma ceil_div_bounds (L n : nat) :
  0 < L ->
  n <= (n + L - 1) / L * L /\ (n + L - 1) / L * L < n + L.
Proof.
  intros HL.
  pose proof (Nat.div_mod_eq (n + L - 1) L) as Hd.
  pose proof (Nat.mod_upper_bound (n + L - 1) L ltac:(lia)) as Hm.
  nia.
Qed.

(** The slice [track_ids[start_idx:end_idx]] of a part is the slice of
    the limit's length at the part's start. *)
Lemma part_ids_slice (track_ids : list string) (part : nat) :
  part_ids track_ids (length track_ids) part
  = take SPOTIFY_PLAYLIST_LIMIT (drop (part * SPOTIFY_PLAYLIST_LIMIT) track_ids).
Proof.
  unfold part_ids. cbv zeta.
  generalize SPOTIFY_PLAYLIST_LIMIT. intros L.
  destruct (decide ((part + 1) * L <= length track_ids)) as [Hle|Hgt].
  - rewrite Nat.min_l by lia. f_equal. lia.
  - rewrite Nat.min_r by lia.
    rewrite !take_ge; [done| |]; rewrite length_drop; lia.
Qed.

Lemma part_ids_length (track_ids : list string) (part : nat) :
  length (part_ids track_ids (length track_ids) part)
  = SPOTIFY_PLAYLIST_LIMIT `min` (length track_ids - part * SPOTIFY_PLAYLIST_LIMIT).
Proof. by rewrite part_ids_slice, length_take, length_drop. Qed.

Lemma part_ids_concat (track_ids : list string) :
  concat (part_ids track_ids (length track_ids)
            <$> seq 0 (num_playlists_for (length track_ids))) = track_ids.
Proof.
  erewrite list_fmap_ext; [|intros _ part _; apply part_ids_slice].
  apply slices_concat.
  apply (ceil_div_bounds _ _ SPOTIFY_PLAYLIST_LIMIT_pos).
Qed.

Lemma added_items_app (rs rs' : list request) :
  added_items (rs ++ rs') = added_items rs ++ added_items rs'.
Proof. apply flat_map_app. Qed.

Lemma added_items_batches (playlist_id : string) (batches : list (list string)) :
  added_items (PlaylistAddItems playlist_id <$> batches) = concat batches.
Proof.
  induction batches as [|b batches IH]; [done|].
  rewrite fmap_cons. simpl. by rewrite IH.
Qed.

Lemma batches_from_concat (start : nat) (uris : list string) :
  concat (batches_from start uris) = drop start uris.
Proof.
  pose proof (remaining_batches_concat 0 (drop start uris)) as Hc.
  rewrite <- remaining_batches_range in Hc. simpl in Hc. by rewrite drop_0 in Hc.
Qed.

Lemma concat_take_prefix {A} (k : nat) (ls : list (list A)) :
  concat (take k ls) `prefix_of` concat ls.
Proof.
  exists (concat (drop k ls)). by rewrite <- concat_app, take_drop.
Qed.

(** The writer leaves every file but the checkpoint of its playlist as
    it was. *)
Section write_files.
Variable sp : Spotify.
Variable playlist_id : string.

Lemma add_batch_files checkpoint_file remaining_uris i tracks_added w r w' path :
  add_batch sp playlist_id checkpoint_file remaining_uris i tracks_added w = (r, w') ->
  path <> checkpoint_file ->
  files w' !! path = files w !! path.
Proof.
  unfold add_batch, try_except, bind, playlist_add_items, call.
  destruct (sp_playlist_add_items sp (requests w) playlist_id _) as [[]|e];
    simpl; intros [= <- <-] Hne; simpl; by rewrite lookup_insert_ne.
Qed.

Lemma add_batches_files checkpoint_file remaining_uris indices path :
  path <> checkpoint_file ->
  forall tracks_added w r w',
  add_batches sp playlist_id checkpoint_file remaining_uris indices tracks_added w = (r, w') ->
  files w' !! path = files w !! path.
Proof.
  intros Hne. induction indices as [|i indices IH]; intros tracks_added w r w';
    cbn [add_batches].
  - by intros [= <- <-].
  - unfold bind.
    destruct (add_batch sp playlist_id checkpoint_file remaining_uris i tracks_added w)
      as [[n1|e|] w1] eqn:Hb; pose proof (add_batch_files _ _ _ _ _ _ _ path Hb Hne) as Hf.
    + intros Hrun. apply IH in Hrun. congruence.
    + intros [= <- <-]. done.
    + intros [= <- <-]. done.
Qed.

Lemma add_tracks_to_playlist_files track_ids w r w' path :
  add_tracks_to_playlist sp playlist_id track_ids w = (r, w') ->
  path <> write_checkpoint_file playlist_id ->
  files w' !! path = files w !! path.
Proof.
  unfold add_tracks_to_playlist, bind at 1, load_checkpoint. cbn [fst snd].
  intros Hrun Hne. revert Hrun.
  destruct (drop _ (track_uri <$> track_ids)) as [|u rest].
  - by intros [= <- <-].
  - unfold bind at 1.
    destruct (add_batches _ _ _ _ _ _ _) as [[n|e|] w1] eqn:Hb;
      apply (add_batches_files _ _ _ path Hne) in Hb.
    + unfold bind, datetime_now, json_dump, ret. simpl. intros [= <- <-]. simpl.
      by rewrite lookup_insert_ne.
    + by intros [= <- <-].
    + by intros [= <- <-].
Qed.

(** A write that returns leaves no write to resume when there was none
    before it. *)
Lemma add_tracks_to_playlist_quiet track_ids w n w' :
  no_write_to_resume w ->
  add_tracks_to_playlist sp playlist_id track_ids w = (Return n, w') ->
  no_write_to_resume w'.
Proof.
  intros Hq Hrun pid.
  destruct (decide (write_checkpoint_file pid = write_checkpoint_file playlist_id)) as [Heq|Hne].
  - pose proof (add_tracks_to_playlist_result sp playlist_id track_ids w) as Hres.
    cbv zeta in Hres. rewrite Hrun, Hq in Hres. cbn [fst snd] in Hres.
    destruct Hres as (_ & _ & _ & Hfile & Hsame).
    destruct (decide (0 < length track_ids)) as [Hpos|Hz].
    + destruct (Hfile Hpos) as [now Hnow].
      unfold write_start_index. by rewrite Heq, Hnow.
    + rewrite Hsame by lia. apply Hq.
  - unfold write_start_index.
    rewrite (add_tracks_to_playlist_files _ _ _ _ _ Hrun Hne). apply Hq.
Qed.

End write_files.

Section merge_facts.
Variable sp : Spotify.
Variable user_playlist_create :
  list request -> list creation -> creation -> created_playlist + exn.
Variable strftime : nat -> string.

Lemma create_master_playlist_spec user_id name w made :
  create_master_playlist user_playlist_create strftime user_id name None (w, made)
  = let c := {| cr_user := user_id; cr_name := name; cr_public := false;
                cr_description := "Merged playlist created on " +:+ strftime (clock w) |} in
    (of_sum (user_playlist_create (requests w) made c),
     (set_clock (S (clock w)) w, made ++ [c])).
Proof. reflexivity. Qed.

(** The loop over the parts, on any client, from a state with no write
    to resume: the parts it reaches are a prefix of the parts, a playlist
    is asked for each of them, and the URIs sent are a prefix of those of
    the parts in order, all of them when it returns. *)
Lemma merge_parts_spec user_id playlist_name track_ids total num parts :
  forall created w made r w' made',
  no_write_to_resume w ->
  merge_parts sp user_playlist_create strftime user_id playlist_name track_ids total num
    parts created (w, made) = (r, (w', made')) ->
  exists done_ sent new_made,
    done_ `prefix_of` parts /\
    made' = made ++ new_made /\
    cr_name <$> new_made = part_name playlist_name num <$> done_ /\
    Forall (fun c => cr_user c = user_id /\ cr_public c = false) new_made /\
    added_items (requests w') = added_items (requests w) ++ sent /\
    sent `prefix_of` track_uri <$> concat (part_ids track_ids total <$> done_) /\
    tracks w' = tracks w /\
    match r with
    | Return s =>
        done_ = parts /\
        sent = track_uri <$> concat (part_ids track_ids total <$> parts) /\
        no_write_to_resume w' /\
        exists new, s = created ++ new /\
          ms_tracks <$> new = (fun p => length (part_ids track_ids total p)) <$> parts
    | Raise e => True
    | OutOfGas => False
    end /\
    ((forall h pid b, sp_playlist_add_items sp h pid b = inl tt) ->
     (forall h made c, exists p, user_playlist_create h made c = inl p) ->
     exists s, r = Return s).
Proof.
  induction parts as [|part parts' IH]; intros created w made r w' made' Hq;
    cbn [merge_parts].
  - intros [= <- <- <-]. exists [], [], []. rewrite !app_nil_r.
    repeat split; try done.
    + exists []. by rewrite app_nil_r.
    + eauto.
  - rewrite create_master_playlist_spec. cbv zeta.
    set (c := {| cr_user := user_id; cr_name := part_name playlist_name num part;
                 cr_public := false;
                 cr_description := "Merged playlist created on " +:+ strftime (clock w) |}).
    set (w1 := set_clock (S (clock w)) w).
    assert (Hq1 : no_write_to_resume w1) by (intros pid; apply (Hq pid)).
    destruct (user_playlist_create (requests w) made c) as [master|e] eqn:Hcreate;
      cbn [of_sum].
    + set (batch_ids := part_ids track_ids total part).
      destruct (add_tracks_to_playlist sp (pl_id master) batch_ids w1) as [[added|e|] w2]
        eqn:Hadd.
      * pose proof (add_tracks_to_playlist_result sp (pl_id master) batch_ids w1) as Hres.
        cbv zeta in Hres. rewrite Hadd, Hq1 in Hres. cbn [fst snd] in Hres.
        destruct Hres as (-> & Hreq & _).
        pose proof (add_tracks_to_playlist_quiet _ _ _ _ _ _ Hq1 Hadd) as Hq2.
        pose proof (add_tracks_from_spec sp (pl_id master) batch_ids w1 _ w2 _ eq_refl Hadd)
          as (_ & _ & _ & Htr & _).
        intros Hrest. apply IH in Hrest as
          (done_ & sent & new_made & Hpre & -> & Hnames & Hall & Hsent & Hsp & Htr' & Hr & Hlive);
          [|done].
        exists (part :: done_), ((track_uri <$> batch_ids) ++ sent), (c :: new_made).
        split; [by apply prefix_cons|].
        split; [by rewrite <- app_assoc|].
        split; [by rewrite !fmap_cons, Hnames|].
        split; [by constructor|].
        split.
        { rewrite Hsent, Hreq, added_items_app, added_items_batches, batches_from_concat,
            drop_0, <- app_assoc. done. }
        split.
        { rewrite fmap_cons. cbn [concat]. rewrite fmap_app. by apply prefix_app. }
        split; [by rewrite Htr', Htr|].
        split; [|done].
        destruct r as [s|e|]; [|done|done].
        destruct Hr as (-> & -> & Hq' & new & -> & Hnew).
        split; [done|].
        split; [rewrite fmap_cons; cbn [concat]; by rewrite fmap_app|]. split; [done|].
        eexists (_ :: new). split; [by rewrite <- app_assoc|].
        by rewrite !fmap_cons, Hnew.
      * intros [= <- <- <-].
        pose proof (add_tracks_to_playlist_result sp (pl_id master) batch_ids w1) as Hres.
        cbv zeta in Hres. rewrite Hadd, Hq1 in Hres. cbn [fst snd] in Hres.
        destruct Hres as (K & now & HK & Hreq & _).
        pose proof (add_tracks_from_spec sp (pl_id master) batch_ids w1 _ w2 _ eq_refl Hadd)
          as (_ & _ & _ & Htr & _ & _ & Hlive).
        exists [part], (concat (take (S K) (batches_from 0 (track_uri <$> batch_ids)))), [c].
        split; [apply prefix_cons, prefix_nil|]. split; [done|]. split; [done|].
        split; [by repeat constructor|].
        split; [by rewrite Hreq, added_items_app, added_items_batches|].
        split.
        { simpl. rewrite app_nil_r. fold batch_ids.
          rewrite <- (drop_0 (track_uri <$> batch_ids)) at 2.
          rewrite <- batches_from_concat. apply concat_take_prefix. }
        split; [done|]. split; [done|].
        intros Hok _. destruct Hlive as [n Hn]; [intros h b; apply Hok|done].
      * pose proof (add_tracks_to_playlist_result sp (pl_id master) batch_ids w1) as Hres.
        cbv zeta in Hres. by rewrite Hadd in Hres.
    + intros [= <- <- <-]. exists [part], [], [c].
      split; [apply prefix_cons, prefix_nil|]. split; [done|]. split; [done|].
      split; [by repeat constructor|]. split; [by rewrite app_nil_r|].
      split; [apply prefix_nil|]. split; [done|]. split; [done|].
      intros _ Hmk. destruct (Hmk (requests w) made c) as [p Hp]. congruence.
Qed.

End merge_facts.

Lemma get_deduplicated_tracks_nil : get_deduplicated_tracks [] = [].
Proof. reflexivity. Qed.

Lemma num_playlists_for_0 : num_playlists_for 0 = 0.
Proof. vm_compute. reflexivity. Qed.

Section merge_main_facts.
Variable sp : Spotify.
Variable user_playlist_create :
  list request -> list creation -> creation -> created_playlist + exn.
Variable strftime : nat -> string.

(** A run that goes on past the confirmation and whose [current_user]
    call is answered is the loop over the parts, under the name chosen. *)
Lemma merge_main_proceeds skip_confirm playlist_name confirm prompt w made user :
  negb skip_confirm && negb confirm = false ->
  sp_current_user sp (requests w) = inl user ->
  let ids := d_id <$> get_deduplicated_tracks (tracks w) in
  let num := num_playlists_for (length ids) in
  exists pname w2,
    merge_main sp user_playlist_create strftime skip_confirm playlist_name confirm prompt
      (w, made)
    = merge_parts sp user_playlist_create strftime user pname ids (length ids) num
        (seq 0 num) [] (w2, made) /\
    requests w2 = requests w ++ [CurrentUser] /\
    files w2 = files w /\
    tracks w2 = tracks w /\
    (forall name, playlist_name = Some name -> name <> "" -> pname = name) /\
    (skip_confirm = true -> playlist_name = None ->
     pname = "Master Library " +:+ strftime (clock w)).
Proof.
  intros Hgo Huser ids num. unfold merge_main. rewrite Hgo.
  unfold current_user, call. rewrite Huser. cbn [of_sum].
  fold d_id. fold ids. replace (length (get_deduplicated_tracks (tracks w))) with (length ids)
    by apply length_fmap.
  fold (num_playlists_for (length ids)). fold num.
  destruct playlist_name as [name|]; [destruct (decide (name = "")) as [->|Hne]|].
  - eexists _, _. split; [reflexivity|]. repeat split; try done. by intros ? [= <-].
  - eexists _, _. split; [reflexivity|]. repeat split; try done. by intros ? [= <-].
  - eexists _, _. split; [reflexivity|]. repeat split; try done. by intros ->.
Qed.

End merge_main_facts.

Section merge_main_more.
Variable sp : Spotify.
Variable user_playlist_create :
  list request -> list creation -> creation -> created_playlist + exn.
Variable strftime : nat -> string.

(** The run on any client, from a state with no write to resume. *)
Lemma merge_main_spec skip_confirm playlist_name confirm prompt w made r w' made' :
  no_write_to_resume w ->
  merge_main sp user_playlist_create strftime skip_confirm playlist_name confirm prompt
    (w, made) = (r, (w', made')) ->
  let ids := d_id <$> get_deduplicated_tracks (tracks w) in
  let num := num_playlists_for (length ids) in
  exists sent new_made,
    made' = made ++ new_made /\
    length new_made <= num /\
    Forall (fun c => cr_public c = false) new_made /\
    added_items (requests w') = added_items (requests w) ++ sent /\
    sent `prefix_of` track_uri <$> ids /\
    tracks w' = tracks w /\
    match r with
    | Return s =>
        no_write_to_resume w' /\
        if negb skip_confirm && negb confirm then s = [] /\ w' = w /\ new_made = []
        else
          sent = track_uri <$> ids /\
          length s = num /\
          sum_list (ms_tracks <$> s) = length ids /\
          exists pname,
            cr_name <$> new_made = part_name pname num <$> seq 0 num /\
            (forall name, playlist_name = Some name -> name <> "" -> pname = name) /\
            (skip_confirm = true -> playlist_name = None ->
             pname = "Master Library " +:+ strftime (clock w))
    | Raise e => negb skip_confirm && negb confirm = false
    | OutOfGas => False
    end /\
    ((forall h pid b, sp_playlist_add_items sp h pid b = inl tt) ->
     (forall h made c, exists p, user_playlist_create h made c = inl p) ->
     (forall h, exists u, sp_current_user sp h = inl u) ->
     exists s, r = Return s).
Proof.
  intros Hq Hrun ids num. destruct (negb skip_confirm && negb confirm) eqn:Hgo.
  - unfold merge_main in Hrun. rewrite Hgo in Hrun. injection Hrun as <- <- <-.
    exists [], []. rewrite !app_nil_r.
    split; [done|]. split; [simpl; lia|]. split; [done|]. split; [done|].
    split; [apply prefix_nil|]. split; [done|]. split; [done|]. eauto.
  - destruct (sp_current_user sp (requests w)) as [user|e] eqn:Huser.
    + destruct (merge_main_proceeds sp user_playlist_create strftime skip_confirm
                  playlist_name confirm prompt w made user Hgo Huser)
        as (pname & w2 & Heq & Hreq2 & Hf2 & Ht2 & Hn1 & Hn2).
      fold ids num in Heq. rewrite Heq in Hrun.
      apply merge_parts_spec in Hrun as
        (done_ & sent & new_made & Hpre & -> & Hnames & Hall & Hsent & Hsp & Htr & Hr & Hlive).
      2:{ intros pid. unfold write_start_index. rewrite Hf2. apply Hq. }
      assert (Hlen : length new_made = length done_).
      { apply (f_equal length) in Hnames. by rewrite !length_fmap in Hnames. }
      exists sent, new_made. split; [done|].
      split.
      { rewrite Hlen. apply prefix_length in Hpre. by rewrite length_seq in Hpre. }
      split; [eapply Forall_impl; [exact Hall|]; by intros c [_ Hc]|].
      split.
      { rewrite Hsent, Hreq2, added_items_app. simpl. by rewrite app_nil_r. }
      split.
      { etrans; [exact Hsp|]. destruct Hpre as [rest Hrest].
        exists (track_uri <$> concat (part_ids ids (length ids) <$> rest)).
        rewrite <- fmap_app, <- concat_app, <- fmap_app, <- Hrest.
        unfold num. by rewrite part_ids_concat. }
      split; [congruence|]. split.
      * destruct r as [s|e|]; [|done|done].
        destruct Hr as (-> & -> & Hq' & new & -> & Hnew).
        split; [done|].
        split; [by rewrite part_ids_concat|].
        assert (Hl : length new = num).
        { apply (f_equal length) in Hnew. by rewrite !length_fmap, length_seq in Hnew. }
        split; [done|]. split; [|by exists pname].
        simpl. rewrite Hnew.
        transitivity (length (concat (part_ids ids (length ids) <$> seq 0 num)));
          [|unfold num; by rewrite part_ids_concat].
        rewrite length_concat, <- list_fmap_compose. done.
      * intros Hok Hmk _. by apply Hlive.
    + unfold merge_main in Hrun. rewrite Hgo in Hrun.
      unfold current_user, call in Hrun. rewrite Huser in Hrun. injection Hrun as <- <- <-.
      exists [], []. rewrite !app_nil_r.
      split; [done|]. split; [simpl; lia|]. split; [done|].
      split; [simpl; by rewrite added_items_app, app_nil_r|].
      split; [apply prefix_nil|]. split; [done|]. split; [done|].
      intros _ _ Hu. destruct (Hu (requests w)) as [u Hu']. congruence.
Qed.

End merge_main_more.

(** X17: the loop of the merge run cuts the ids into consecutive parts
    that lose and repeat nothing: the parts in order give back the list,
    every part has at least one and at most [SPOTIFY_PLAYLIST_LIMIT] ids,
    every part but the last has exactly that many, a part past the last
    would be empty, and no part is made for an empty list. *)
Theorem part_ids_partition (track_ids : list string) :
  let n := length track_ids in
  let num := num_playlists_for n in
  concat (part_ids track_ids n <$> seq 0 num) = track_ids /\
  (forall part, part < num ->
     0 < length (part_ids track_ids n part) <= SPOTIFY_PLAYLIST_LIMIT) /\
  (forall part, S part < num ->
     length (part_ids track_ids n part) = SPOTIFY_PLAYLIST_LIMIT) /\
  (forall part, num <= part -> part_ids track_ids n part = []) /\
  (num = 0 <-> track_ids = []).
Proof.
  intros n num. split; [apply part_ids_concat|].
  pose proof (ceil_div_bounds SPOTIFY_PLAYLIST_LIMIT n SPOTIFY_PLAYLIST_LIMIT_pos) as Hb.
  fold (num_playlists_for n) in Hb. fold num in Hb.
  pose proof SPOTIFY_PLAYLIST_LIMIT_pos as HL.
  assert (Hlen : forall part, length (part_ids track_ids n part)
                 = SPOTIFY_PLAYLIST_LIMIT `min` (n - part * SPOTIFY_PLAYLIST_LIMIT))
    by (intros part; apply part_ids_length).
  clearbody num. revert Hb HL Hlen. generalize SPOTIFY_PLAYLIST_LIMIT. intros L Hb HL Hlen.
  split; [|split; [|split]].
  - intros part Hpart. rewrite Hlen. nia.
  - intros part Hpart. rewrite Hlen. nia.
  - intros part Hpart. apply nil_length_inv. rewrite Hlen. nia.
  - split.
    + intros ->. apply nil_length_inv. fold n. lia.
    + intros ->. simpl in *. nia.
Qed.

Lemma part_ids_partition_witness :
  0 < length (part_ids (sample_ids 3) 3 0) <= SPOTIFY_PLAYLIST_LIMIT.
Proof.
  apply (proj1 (proj2 (part_ids_partition (sample_ids 3))) 0).
  vm_compute. lia.
Defined.

(** X18: whatever the client answers, a merge run that starts with no
    write to resume sends the URIs of the deduplicated ids in their order
    and each at most once, up to the point where it stops; it sends all
    of them when it returns after going on, it asks for no more playlists
    than there are parts, all of them private, and it leaves the table as
    it was. *)
Theorem merge_main_sends_in_order (sp : Spotify)
    (user_playlist_create : list request -> list creation -> creation -> created_playlist + exn)
    (strftime : nat -> string) (skip_confirm : bool) (playlist_name : option string)
    (confirm : bool) (prompt : string -> string) (w : World) (made : list creation) :
  no_write_to_resume w ->
  let run := merge_main sp user_playlist_create strftime skip_confirm playlist_name
               confirm prompt (w, made) in
  let ids := d_id <$> get_deduplicated_tracks (tracks w) in
  NoDup ids /\
  (forall i, i ∈ ids <-> i ∈ (fun r => t_id (cols r)) <$> tracks w) /\
  run.1 <> OutOfGas /\
  tracks run.2.1 = tracks w /\
  exists sent new_made,
    added_items (requests run.2.1) = added_items (requests w) ++ sent /\
    sent `prefix_of` track_uri <$> ids /\
    (forall s, run.1 = Return s -> negb skip_confirm && negb confirm = false ->
       sent = track_uri <$> ids) /\
    run.2.2 = made ++ new_made /\
    length new_made <= num_playlists_for (length ids) /\
    Forall (fun c => cr_public c = false) new_made.
Proof.
  intros Hq run ids.
  split; [apply get_deduplicated_tracks_NoDup|].
  split; [intros i; apply get_deduplicated_tracks_ids|].
  destruct run as [r [w' made']] eqn:Hrun. subst run.
  apply merge_main_spec in Hrun as
    (sent & new_made & -> & Hlen & Hall & Hsent & Hpre & Htr & Hr & _); [|done].
  cbn [fst snd]. split; [by intros ->|]. split; [done|].
  exists sent, new_made. split; [done|]. split; [done|]. split; [|done].
  intros s -> Hgo. rewrite Hgo in Hr. by destruct Hr as (_ & -> & _).
Qed.

Lemma merge_main_sends_in_order_witness :
  let run := merge_main (write_fails_after 1 (Exception "reset")) sample_create str_nat
               true None false (fun s => s) (merge_sample_world, []) in
  let ids := d_id <$> get_deduplicated_tracks (tracks merge_sample_world) in
  NoDup ids /\
  (forall i, i ∈ ids <-> i ∈ (fun r => t_id (cols r)) <$> tracks merge_sample_world) /\
  run.1 <> OutOfGas /\
  tracks run.2.1 = tracks merge_sample_world /\
  exists sent new_made,
    added_items (requests run.2.1) = added_items (requests merge_sample_world) ++ sent /\
    sent `prefix_of` track_uri <$> ids /\
    (forall s, run.1 = Return s -> negb true && negb false = false ->
       sent = track_uri <$> ids) /\
    run.2.2 = [] ++ new_made /\
    length new_made <= num_playlists_for (length ids) /\
    Forall (fun c => cr_public c = false) new_made.
Proof.
  apply (merge_main_sends_in_order (write_fails_after 1 (Exception "reset")) sample_create
           str_nat true None false (fun s => s) merge_sample_world []).
  intros pid. reflexivity.
Defined.

Lemma num_playlists_for_one (n : nat) :
  0 < n -> n <= SPOTIFY_PLAYLIST_LIMIT -> num_playlists_for n = 1.
Proof.
  pose proof (ceil_div_bounds SPOTIFY_PLAYLIST_LIMIT n SPOTIFY_PLAYLIST_LIMIT_pos) as Hb.
  fold (num_playlists_for n) in Hb. revert Hb.
  generalize (num_playlists_for n) SPOTIFY_PLAYLIST_LIMIT. intros num L Hb Hn HL. nia.
Qed.

(** X19: when the client answers [current_user], creates every playlist
    asked for and accepts every write, a merge run that goes on and
    starts with no write to resume returns one summary per part, whose
    track counts add up to the number of deduplicated ids; it has sent
    the URI of every deduplicated id, in order, and asked for one
    playlist per part under the name given on the command line, with the
    part number appended when there are several parts and as it is when
    the ids fit one playlist. *)
Theorem merge_main_success (sp : Spotify)
    (user_playlist_create : list request -> list creation -> creation -> created_playlist + exn)
    (strftime : nat -> string) (skip_confirm : bool) (playlist_name : option string)
    (confirm : bool) (prompt : string -> string) (w : World) (made : list creation) :
  no_write_to_resume w ->
  (forall h pid b, sp_playlist_add_items sp h pid b = inl tt) ->
  (forall h made c, exists p, user_playlist_create h made c = inl p) ->
  (forall h, exists u, sp_current_user sp h = inl u) ->
  negb skip_confirm && negb confirm = false ->
  let run := merge_main sp user_playlist_create strftime skip_confirm playlist_name
               confirm prompt (w, made) in
  let ids := d_id <$> get_deduplicated_tracks (tracks w) in
  let num := num_playlists_for (length ids) in
  exists s new_made pname,
    run.1 = Return s /\
    length s = num /\
    sum_list (ms_tracks <$> s) = length ids /\
    added_items (requests run.2.1) = added_items (requests w) ++ (track_uri <$> ids) /\
    run.2.2 = made ++ new_made /\
    cr_name <$> new_made = part_name pname num <$> seq 0 num /\
    (forall name, playlist_name = Some name -> name <> "" -> pname = name) /\
    (skip_confirm = true -> playlist_name = None ->
     pname = "Master Library " +:+ strftime (clock w)) /\
    (0 < length ids <= SPOTIFY_PLAYLIST_LIMIT -> cr_name <$> new_made = [pname]).
Proof.
  intros Hq Hok Hmk Hu Hgo run ids num.
  destruct run as [r [w' made']] eqn:Hrun. subst run.
  apply merge_main_spec in Hrun as
    (sent & new_made & -> & Hlen & Hall & Hsent & Hpre & Htr & Hr & Hlive); [|done].
  destruct (Hlive Hok Hmk Hu) as [s ->]. rewrite Hgo in Hr.
  destruct Hr as (_ & -> & Hs & Hsum & pname & Hnames & Hn1 & Hn2).
  exists s, new_made, pname. cbn [fst snd].
  repeat (split; [done|]).
  intros [Hpos Hle]. rewrite Hnames. fold ids.
  unfold num. rewrite (num_playlists_for_one _ Hpos Hle). reflexivity.
Qed.

Lemma merge_main_success_witness :
  let w := merge_sample_world in
  let run := merge_main (stable_remote (fun _ => [])) sample_create str_nat
               true (Some "Mix") false (fun s => s) (w, []) in
  let ids := d_id <$> get_deduplicated_tracks (tracks w) in
  let num := num_playlists_for (length ids) in
  exists s new_made pname,
    run.1 = Return s /\
    length s = num /\
    sum_list (ms_tracks <$> s) = length ids /\
    added_items (requests run.2.1) = added_items (requests w) ++ (track_uri <$> ids) /\
    run.2.2 = [] ++ new_made /\
    cr_name <$> new_made = part_name pname num <$> seq 0 num /\
    (forall name, Some "Mix" = Some name -> name <> "" -> pname = name) /\
    (true = true -> Some "Mix" = None ->
     pname = "Master Library " +:+ str_nat (clock w)) /\
    (0 < length ids <= SPOTIFY_PLAYLIST_LIMIT -> cr_name <$> new_made = [pname]).
Proof.
  apply (merge_main_success (stable_remote (fun _ => [])) sample_create str_nat
           true (Some "Mix") false (fun s => s) merge_sample_world []).
  - intros pid. reflexivity.
  - intros h pid b. reflexivity.
  - intros h made c. eexists. reflexivity.
  - intros h. eexists. reflexivity.
  - reflexivity.
Defined.

(** X20: a merge run creates nothing and writes nothing when the user
    declines or the table is empty.  Declined, it returns at once with the
    state untouched; on an empty table it sends [current_user] at most
    and, when that is answered, returns an empty summary. *)
Theorem merge_main_nothing_to_merge (sp : Spotify)
    (user_playlist_create : list request -> list creation -> creation -> created_playlist + exn)
    (strftime : nat -> string) (skip_confirm : bool) (playlist_name : option string)
    (confirm : bool) (prompt : string -> string) (w : World) (made : list creation) :
  let run := merge_main sp user_playlist_create strftime skip_confirm playlist_name
               confirm prompt (w, made) in
  (skip_confirm = false -> confirm = false -> run = (Return [], (w, made))) /\
  (tracks w = [] ->
   run.2.2 = made /\
   added_items (requests run.2.1) = added_items (requests w) /\
   files run.2.1 = files w /\
   requests run.2.1 `prefix_of` requests w ++ [CurrentUser] /\
   forall user, sp_current_user sp (requests w) = inl user ->
     negb skip_confirm && negb confirm = false ->
     run.1 = Return [] /\ requests run.2.1 = requests w ++ [CurrentUser]).
Proof.
  intros run. split.
  - intros -> ->. reflexivity.
  - intros Hempty. subst run.
    destruct (negb skip_confirm && negb confirm) eqn:Hgo.
    { unfold merge_main. rewrite Hgo. cbn [fst snd].
      split; [done|]. split; [done|]. split; [done|].
      split; [by apply prefix_app_r|]. done. }
    destruct (sp_current_user sp (requests w)) as [user|e] eqn:Huser.
    + destruct (merge_main_proceeds sp user_playlist_create strftime skip_confirm
                  playlist_name confirm prompt w made user Hgo Huser)
        as (pname & w2 & Heq & Hreq2 & Hf2 & _).
      rewrite Heq, Hempty, get_deduplicated_tracks_nil. cbn [fmap list_fmap length].
      rewrite num_playlists_for_0. cbn [seq merge_parts fst snd].
      split; [done|].
      split; [rewrite Hreq2, added_items_app; simpl; by rewrite app_nil_r|].
      split; [done|]. split; [by rewrite Hreq2|].
      intros user' _ _. done.
    + unfold merge_main. rewrite Hgo. unfold current_user, call. rewrite Huser.
      cbn [of_sum fst snd]. split; [done|].
      split; [simpl; rewrite added_items_app; simpl; by rewrite app_nil_r|].
      split; [done|]. split; [done|]. intros user' [=].
Qed.

Lemma merge_main_nothing_to_merge_witness :
  let run := merge_main (stable_remote (fun _ => [])) sample_create str_nat
               true None false (fun s => s) (empty_world, []) in
  run.1 = Return [] /\ requests run.2.1 = requests empty_world ++ [CurrentUser].
Proof.
  apply (proj2 (merge_main_nothing_to_merge (stable_remote (fun _ => [])) sample_create str_nat
                  true None false (fun s => s) empty_world []) eq_refl) with (user := "user");
    reflexivity.
Defined.

(** X21: a merge run that succeeded leaves nothing that makes the next
    run do less: run again on the same table, with a client that goes on
    answering, it asks for as many playlists again and sends the URI of
    every deduplicated id a second time. *)
Theorem merge_main_rerun_repeats (sp : Spotify)
    (user_playlist_create : list request -> list creation -> creation -> created_playlist + exn)
    (strftime : nat -> string) (skip_confirm : bool) (playlist_name : option string)
    (confirm : bool) (prompt : string -> string) (w : World) (made : list creation) :
  no_write_to_resume w ->
  (forall h pid b, sp_playlist_add_items sp h pid b = inl tt) ->
  (forall h made c, exists p, user_playlist_create h made c = inl p) ->
  (forall h, exists u, sp_current_user sp h = inl u) ->
  negb skip_confirm && negb confirm = false ->
  let run1 := merge_main sp user_playlist_create strftime skip_confirm playlist_name
                confirm prompt (w, made) in
  let run2 := merge_main sp user_playlist_create strftime skip_confirm playlist_name
                confirm prompt run1.2 in
  let uris := track_uri <$> (d_id <$> get_deduplicated_tracks (tracks w)) in
  let num := num_playlists_for (length uris) in
  exists s1 s2,
    run1.1 = Return s1 /\ run2.1 = Return s2 /\
    length s1 = num /\ length s2 = num /\
    length run1.2.2 = length made + num /\
    length run2.2.2 = length made + 2 * num /\
    added_items (requests run1.2.1) = added_items (requests w) ++ uris /\
    added_items (requests run2.2.1) = added_items (requests w) ++ uris ++ uris.
Proof.
  intros Hq Hok Hmk Hu Hgo run1 run2 uris num.
  assert (Hnum : num = num_playlists_for
                         (length (d_id <$> get_deduplicated_tracks (tracks w))))
    by (unfold num, uris; by rewrite length_fmap).
  destruct run1 as [r1 [w1 made1]] eqn:Hrun1. subst run1. cbn [snd] in run2.
  destruct run2 as [r2 [w2 made2]] eqn:Hrun2. subst run2. cbn [fst snd].
  apply merge_main_spec in Hrun1 as
    (sent1 & new1 & -> & _ & _ & Hsent1 & _ & Htr1 & Hr1 & Hlive1); [|done].
  destruct (Hlive1 Hok Hmk Hu) as [s1 ->]. rewrite Hgo in Hr1.
  destruct Hr1 as (Hq1 & -> & Hs1 & _ & pname1 & Hnames1 & _).
  apply merge_main_spec in Hrun2 as
    (sent2 & new2 & -> & _ & _ & Hsent2 & _ & Htr2 & Hr2 & Hlive2); [|done].
  destruct (Hlive2 Hok Hmk Hu) as [s2 ->]. rewrite Hgo in Hr2.
  destruct Hr2 as (_ & -> & Hs2 & _ & pname2 & Hnames2 & _).
  rewrite Htr1 in *.
  apply (f_equal length) in Hnames1, Hnames2.
  rewrite !length_fmap, length_seq in Hnames1, Hnames2.
  exists s1, s2. rewrite !length_app, Hnames1, Hnames2, Hs1, Hs2, Hsent2, Hsent1, <- Hnum,
    <- app_assoc.
  repeat split; try done; rewrite Hnum, ?length_fmap; lia.
Qed.

Lemma merge_main_rerun_repeats_witness :
  let sp := stable_remote (fun _ => []) in
  let w := merge_sample_world in
  let run1 := merge_main sp sample_create str_nat true None false (fun s => s) (w, []) in
  let run2 := merge_main sp sample_create str_nat true None false (fun s => s) run1.2 in
  let uris := track_uri <$> (d_id <$> get_deduplicated_tracks (tracks w)) in
  let num := num_playlists_for (length uris) in
  exists s1 s2,
    run1.1 = Return s1 /\ run2.1 = Return s2 /\
    length s1 = num /\ length s2 = num /\
    length run1.2.2 = length ([] : list creation) + num /\
    length run2.2.2 = length ([] : list creation) + 2 * num /\
    added_items (requests run1.2.1) = added_items (requests w) ++ uris /\
    added_items (requests run2.2.1) = added_items (requests w) ++ uris ++ uris.
Proof.
  apply (merge_main_rerun_repeats (stable_remote (fun _ => [])) sample_create str_nat
           true None false (fun s => s) merge_sample_world []).
  - intros pid. reflexivity.
  - intros h pid b. reflexivity.
  - intros h made c. eexists. reflexivity.
  - intros h. eexists. reflexivity.
  - reflexivity.
Defined.

(** ** The playlist file *)

Lemma lstrip_head (s : string) (c : ascii) (t : string) :
  lstrip s = String c t -> is_space c = false.
Proof.
  induction s as [|a s IH]; simpl; [done|].
  destruct (is_space a) eqn:Ha; [done|]. by intros [= <- <-].
Qed.

Lemma rstrip_idem (s : string) : rstrip (rstrip s) = rstrip s.
Proof.
  induction s as [|c s IH]; [done|]. cbn [rstrip].
  destruct (rstrip s) as [|c' r] eqn:Hr.
  - destruct (is_space c) eqn:Hc; [done|]. simpl. by rewrite Hc.
  - cbn [rstrip]. cbn [rstrip] in IH. by rewrite IH.
Qed.

(** What is left of a string after [rstrip] starts as the string does. *)
Lemma rstrip_head (c : ascii) (s : string) :
  rstrip (String c s) = "" \/ exists r, rstrip (String c s) = String c r.
Proof.
  cbn [rstrip]. destruct (rstrip s) as [|c' r]; [|eauto].
  destruct (is_space c); eauto.
Qed.

Lemma strip_head (s : string) (c : ascii) (t : string) :
  strip s = String c t -> is_space c = false.
Proof.
  unfold strip. destruct (lstrip s) as [|a u] eqn:Hl; [done|].
  apply lstrip_head in Hl.
  destruct (rstrip_head a u) as [->|[r ->]]; [done|]. by intros [= <- <-].
Qed.

Lemma strip_idem (s : string) : strip (strip s) = strip s.
Proof.
  destruct (strip s) as [|c t] eqn:Hs; [done|].
  pose proof (strip_head _ _ _ Hs) as Hc.
  unfold strip at 1. cbn [lstrip]. rewrite Hc, <- Hs. apply rstrip_idem.
Qed.

Lemma rstrip_snoc_space (s : string) (c : ascii) :
  is_space c = true -> rstrip (s +:+ String c EmptyString) = rstrip s.
Proof.
  intros Hc. induction s as [|a s IH].
  - simpl. by rewrite Hc.
  - rewrite string_app_cons. cbn [rstrip]. by rewrite IH.
Qed.

(** A clean id followed by a line end strips to the id. *)
Lemma strip_clean_line (i : string) :
  clean_id i -> strip (i +:+ newline) = i.
Proof.
  intros (Hne & _ & Hs). destruct i as [|c t]; [done|].
  pose proof (strip_head _ _ _ Hs) as Hc.
  assert (Hr : rstrip (String c t) = String c t).
  { rewrite <- Hs at 2. unfold strip. cbn [lstrip]. by rewrite Hc. }
  unfold strip. rewrite string_app_cons. cbn [lstrip]. rewrite Hc.
  rewrite <- string_app_cons. unfold newline. by rewrite rstrip_snoc_space.
Qed.

Lemma load_lines_clean (lines : list string) :
  Forall clean_id (load_lines lines).
Proof.
  induction lines as [|line rest IH]; [constructor|]. cbn [load_lines].
  destruct (String.eqb (strip line) "") eqn:He; [done|].
  destruct (String.prefix "#" (strip line)) eqn:Hp; [done|]. simpl.
  constructor; [|done]. split; [by apply String.eqb_neq|]. split; [done|apply strip_idem].
Qed.

Lemma load_lines_of_clean (ids : list string) :
  Forall clean_id ids -> load_lines ((fun i => i +:+ newline) <$> ids) = ids.
Proof.
  induction 1 as [|i ids Hi _ IH]; [done|].
  rewrite fmap_cons. cbn [load_lines]. rewrite (strip_clean_line i Hi), IH.
  destruct Hi as (Hne & -> & _). apply String.eqb_neq in Hne. by rewrite Hne.
Qed.

Lemma load_lines_filter (lines : list string) :
  load_lines lines
  = filter (fun i => i <> "" /\ String.prefix "#" i = false) (strip <$> lines).
Proof.
  induction lines as [|line rest IH]; [done|].
  rewrite fmap_cons. cbn [load_lines]. rewrite IH.
  destruct (String.eqb (strip line) "") eqn:He.
  - apply String.eqb_eq in He. rewrite filter_cons_False; [done|]. by intros [? _].
  - apply String.eqb_neq in He.
    destruct (String.prefix "#" (strip line)) eqn:Hp; simpl.
    + rewrite filter_cons_False; [done|]. rewrite Hp. by intros [_ ?].
    + rewrite filter_cons_True; [done|]. by rewrite Hp.
Qed.

(** X22: the ids read from a playlist file that exists are the stripped
    lines that are not empty and do not start with the comment mark, in
    the order of the file and as often as they occur; every id returned
    is non-empty, has no white space at either end and no comment mark in
    front. *)
Theorem load_playlist_ids_stripped_lines (lines : list string) :
  exists ids,
    load_playlist_ids (Some lines) = inl ids /\
    Forall clean_id ids /\
    ids `sublist_of` strip <$> lines /\
    (forall i, i ∈ ids <-> clean_id i /\ exists line, line ∈ lines /\ strip line = i) /\
    (forall i, clean_id i ->
       length (filter (fun j => j = i) ids)
       = length (filter (fun line => strip line = i) lines)).
Proof.
  exists (load_lines lines). split; [done|].
  split; [apply load_lines_clean|].
  split; [rewrite load_lines_filter; apply sublist_filter|].
  split.
  - intros i. split.
    + intros Hi. split.
      * pose proof (load_lines_clean lines) as Hall.
        rewrite Forall_forall in Hall. by apply Hall.
      * rewrite load_lines_filter in Hi. apply list_elem_of_filter in Hi as [_ Hi].
        apply list_elem_of_fmap in Hi as (line & -> & Hline). eauto.
    + intros [(Hne & Hp & _) (line & Hline & <-)].
      rewrite load_lines_filter. apply list_elem_of_filter. split; [done|].
      by apply list_elem_of_fmap_2.
  - intros i (Hne & Hp & _). induction lines as [|line rest IH]; [done|].
    cbn [load_lines]. rewrite (filter_cons _ line).
    destruct (decide (strip line = i)) as [->|Hother].
    + apply String.eqb_neq in Hne. rewrite Hne, Hp. simpl.
      rewrite filter_cons_True by done. simpl. by rewrite IH.
    + destruct (negb _ && negb _); [|done].
      rewrite filter_cons_False by done. done.
Qed.

Lemma load_playlist_ids_stripped_lines_witness :
  let lines := ["  abc" +:+ newline; "# a comment" +:+ newline; newline; "abc"] in
  exists ids,
    load_playlist_ids (Some lines) = inl ids /\
    Forall clean_id ids /\
    ids `sublist_of` strip <$> lines /\
    (forall i, i ∈ ids <-> clean_id i /\ exists line, line ∈ lines /\ strip line = i) /\
    (forall i, clean_id i ->
       length (filter (fun j => j = i) ids)
       = length (filter (fun line => strip line = i) lines)).
Proof.
  exact (load_playlist_ids_stripped_lines
           ["  abc" +:+ newline; "# a comment" +:+ newline; newline; "abc"]).
Defined.

(** X23: a file that lists clean ids one per line reads back as the same
    list, in the same order and with its repetitions; so the ids read
    from any file, written out one per line, read back unchanged. *)
Theorem load_playlist_ids_round_trip (ids : list string) :
  Forall clean_id ids ->
  load_playlist_ids (Some ((fun i => i +:+ newline) <$> ids)) = inl ids /\
  forall lines ids',
    load_playlist_ids (Some lines) = inl ids' ->
    load_playlist_ids (Some ((fun i => i +:+ newline) <$> ids')) = inl ids'.
Proof.
  intros Hids. split.
  - simpl. by rewrite load_lines_of_clean.
  - intros lines ids' [= <-]. simpl. rewrite load_lines_of_clean; [done|].
    apply load_lines_clean.
Qed.

Lemma load_playlist_ids_round_trip_witness :
  load_playlist_ids
    (Some ((fun i => i +:+ newline)
             <$> ["491WiUqmbpuCtUs6xwXRaB"; "37i9dQZF1DXcBWIGoYBM5M"; "491WiUqmbpuCtUs6xwXRaB"]))
  = inl ["491WiUqmbpuCtUs6xwXRaB"; "37i9dQZF1DXcBWIGoYBM5M"; "491WiUqmbpuCtUs6xwXRaB"].
Proof.
  apply (load_playlist_ids_round_trip
           ["491WiUqmbpuCtUs6xwXRaB"; "37i9dQZF1DXcBWIGoYBM5M"; "491WiUqmbpuCtUs6xwXRaB"]).
  repeat constructor; done.
Defined.

(** ** The listing of the user's playlists *)

Section playlists_facts.
Context {P : Type}.
Variable current_user_playlists : list nat -> nat -> playlists_page P + exn.

(** The loop on a client that lists [all], with [c] calls to go after
    the next one. *)
Lemma playlists_loop_lists (all : list P) (limit : nat) :
  lists_playlists current_user_playlists all ->
  forall c k asked gas,
  (c = 0 \/ (k + c) * 50 < Nat.min limit (length all)) ->
  Nat.min limit (length all) <= (k + S c) * 50 ->
  c < gas ->
  playlists_loop current_user_playlists gas limit (take (k * 50) all) (k * 50) asked
  = (Return (take ((k + S c) * 50) all),
     asked ++ ((fun j => (k + j) * 50) <$> seq 0 (S c))).
Proof.
  intros Hs. induction c as [|c IH]; intros k asked gas Hc Hm Hgas;
    (destruct gas as [|gas]; [lia|]); cbn [playlists_loop]; rewrite Hs;
    cbn [pp_items]; unfold has_next; cbn [pp_next]; rewrite take_take_drop, length_take.
  - replace (negb _ || _) with true.
    + do 2 f_equal; [f_equal; lia|simpl; f_equal; lia].
    + symmetry. destruct (k * 50 + 50 <? length all) eqn:Hlt; [|done].
      apply Nat.ltb_lt in Hlt. simpl. apply Nat.leb_le. lia.
  - destruct Hc as [|Hc]; [done|].
    replace (k * 50 + 50 <? length all) with true by (symmetry; apply Nat.ltb_lt; lia).
    replace (limit <=? _) with false by (symmetry; apply Nat.leb_gt; lia).
    simpl negb. cbn [orb].
    replace (k * 50 + 50) with (S k * 50) by lia.
    rewrite IH by lia. f_equal; [do 2 f_equal; lia|].
    rewrite <- app_assoc. f_equal. cbn [seq fmap list_fmap app].
    f_equal; [lia|]. rewrite <- !fmap_S_seq, <- !list_fmap_compose.
    f_equal; [|apply list_fmap_ext; intros; simpl; lia].
    simpl. lia.
Qed.

(** The loop on a client that hands out empty pages with a link to the
    next one. *)
Lemma playlists_loop_empty_pages (limit : nat) :
  (forall asked offset, exists url,
     url <> "" /\
     current_user_playlists asked offset = inl {| pp_items := []; pp_next := Some url |}) ->
  0 < limit ->
  forall gas k asked,
  playlists_loop current_user_playlists gas limit [] (k * 50) asked
  = (OutOfGas, asked ++ ((fun j => (k + j) * 50) <$> seq 0 gas)).
Proof.
  intros Hs Hlimit. induction gas as [|gas IH]; intros k asked; cbn [playlists_loop].
  - by rewrite app_nil_r.
  - destruct (Hs asked (k * 50)) as (url & Hurl & ->). cbn [pp_items].
    unfold has_next. cbn [pp_next]. apply String.eqb_neq in Hurl. rewrite Hurl.
    rewrite app_nil_r. simpl negb.
    cbn [length]. replace (limit <=? 0) with false by (symmetry; apply Nat.leb_gt; lia).
    cbn [orb]. replace (k * 50 + 50) with (S k * 50) by lia. rewrite IH.
    rewrite <- app_assoc. do 2 f_equal. cbn [seq fmap list_fmap app].
    f_equal; [lia|]. rewrite <- !fmap_S_seq, <- !list_fmap_compose.
    apply list_fmap_ext. intros. simpl. lia.
Qed.

End playlists_facts.

Lemma playlists_loop_offsets {P} (current_user_playlists : list nat -> nat -> playlists_page P + exn)
    (limit : nat) :
  forall gas k playlists asked r asked',
  playlists_loop current_user_playlists gas limit playlists (k * 50) asked = (r, asked') ->
  exists c,
    c <= gas /\
    asked' = asked ++ ((fun j => (k + j) * 50) <$> seq 0 c) /\
    (r = OutOfGas -> c = gas) /\
    (r <> OutOfGas -> 0 < c).
Proof.
  induction gas as [|gas IH]; intros k playlists asked r asked'; cbn [playlists_loop].
  - intros [= <- <-]. exists 0. by rewrite app_nil_r.
  - assert (Hone : asked ++ [k * 50] = asked ++ ((fun j => (k + j) * 50) <$> seq 0 1))
      by (simpl; do 3 f_equal; lia).
    destruct (current_user_playlists asked (k * 50)) as [response|e].
    + destruct (negb (has_next response) || _).
      * intros [= <- <-]. exists 1. split; [lia|]. split; [done|]. split; [done|lia].
      * replace (k * 50 + 50) with (S k * 50) by lia. intros Hrun.
        apply IH in Hrun as (c & Hc & -> & Hgas & Hpos). exists (S c).
        split; [lia|]. split; [|split; [intros ->; by rewrite Hgas|lia]].
        rewrite <- app_assoc. f_equal. cbn [seq fmap list_fmap app].
        f_equal; [lia|]. rewrite <- !fmap_S_seq, <- !list_fmap_compose.
        apply list_fmap_ext. intros. simpl. lia.
    + intros [= <- <-]. exists 1. split; [lia|]. split; [done|]. split; [done|lia].
Qed.

(** X24: on a client that lists the user's playlists in pages of 50,
    [get_user_playlists] returns the first [limit] of them (all of them
    when there are fewer) and asks for the offsets 0, 50, ... only as far
    as needed: one call at least, and otherwise as many as the playlists
    returned fill pages. *)
Theorem get_user_playlists_first_limit {P}
    (current_user_playlists : list nat -> nat -> playlists_page P + exn)
    (all : list P) (gas limit : nat) :
  lists_playlists current_user_playlists all ->
  playlist_calls limit (length all) <= gas ->
  get_user_playlists current_user_playlists gas limit
  = (Return (take limit all),
     (fun j => j * 50) <$> seq 0 (playlist_calls limit (length all))).
Proof.
  intros Hs Hgas. unfold get_user_playlists.
  set (m := Nat.min limit (length all)).
  assert (Hcalls : exists c, playlist_calls limit (length all) = S c /\
                             (c = 0 \/ c * 50 < m) /\ m <= S c * 50).
  { unfold playlist_calls. fold m.
    pose proof (Nat.div_mod_eq (m + 49) 50) as Hd.
    pose proof (Nat.mod_upper_bound (m + 49) 50 ltac:(lia)) as Hmod.
    exists (Nat.max 1 ((m + 49) / 50) - 1). lia. }
  destruct Hcalls as (c & Hc & Hlt & Hge). rewrite Hc in *.
  pose proof (playlists_loop_lists current_user_playlists all limit Hs c 0 [] gas) as Hloop.
  change (take (0 * 50) all) with ([] : list P) in Hloop.
  change (0 * 50) with 0 in Hloop. rewrite Hloop; [|by fold m|by fold m|lia].
  rewrite app_nil_l. change (0 + S c) with (S c). f_equal.
  f_equal. rewrite take_take. fold m in Hge |- *.
  destruct (decide (limit <= S c * 50)) as [Hle|Hgt].
  - by rewrite Nat.min_l.
  - rewrite Nat.min_r by lia. rewrite !take_ge; [done|lia|lia].
Qed.

Lemma get_user_playlists_first_limit_witness :
  get_user_playlists
    (fun _ offset => inl {| pp_items := take 50 (drop offset (seq 0 120));
                            pp_next := if offset + 50 <? length (seq 0 120)
                                       then Some "next" else None |})
    5 70
  = (Return (take 70 (seq 0 120)),
     (fun j => j * 50) <$> seq 0 (playlist_calls 70 (length (seq 0 120)))).
Proof.
  apply (get_user_playlists_first_limit
           (fun _ offset => inl {| pp_items := take 50 (drop offset (seq 0 120));
                                   pp_next := if offset + 50 <? length (seq 0 120)
                                              then Some "next" else None |})
           (seq 0 120) 5 70).
  - intros asked offset. reflexivity.
  - vm_compute. lia.
Defined.

(** X25: whatever the client answers, [get_user_playlists] asks for the
    offsets 0, 50, 100, ... in this order and returns at most [limit]
    playlists; the loop ends only on a page without a link to a next
    page, on [limit] playlists collected, or on an exception, so on a
    client that keeps handing out empty pages with a link it is asked
    page after page without end. *)
Theorem get_user_playlists_offsets {P}
    (current_user_playlists : list nat -> nat -> playlists_page P + exn)
    (gas limit : nat) :
  let run := get_user_playlists current_user_playlists gas limit in
  (exists c, c <= gas /\ run.2 = (fun j => j * 50) <$> seq 0 c /\
             (run.1 <> OutOfGas -> 0 < c)) /\
  (forall playlists, run.1 = Return playlists -> length playlists <= limit) /\
  ((forall asked offset, exists url,
      url <> "" /\
      current_user_playlists asked offset = inl {| pp_items := []; pp_next := Some url |}) ->
   0 < limit ->
   run = (OutOfGas, (fun j => j * 50) <$> seq 0 gas)).
Proof.
  intros run. subst run. unfold get_user_playlists.
  destruct (playlists_loop current_user_playlists gas limit [] 0 []) as [r asked] eqn:Hloop.
  split; [|split].
  - apply (playlists_loop_offsets current_user_playlists limit gas 0) in Hloop
      as (c & Hc & -> & _ & Hpos).
    exists c. destruct r; cbn [fst snd]; (split; [done|]); (split; [done|]);
      intros ?; by apply Hpos.
  - intros playlists. destruct r; cbn [fst]; [|done|done].
    intros [= <-]. rewrite length_take. lia.
  - intros Hs Hlimit.
    pose proof (playlists_loop_empty_pages current_user_playlists limit Hs Hlimit gas 0 [])
      as Hend.
    change (0 * 50) with 0 in Hend. rewrite Hend in Hloop.
    by injection Hloop as <- <-.
Qed.

Lemma get_user_playlists_offsets_witness :
  get_user_playlists
    (fun _ _ => inl {| pp_items := ([] : list string); pp_next := Some "next" |}) 4 50
  = (OutOfGas, [0; 50; 100; 150]).
Proof.
  apply (proj2 (proj2 (get_user_playlists_offsets
                         (fun _ _ => inl {| pp_items := ([] : list string);
                                            pp_next := Some "next" |}) 4 50))).
  - intros asked offset. exists "next". done.
  - lia.
Defined.

(** ** The audio features *)

Section features_facts.
Context {F : Type}.

Lemma update_features_other (batch : list string) :
  forall (features : gmap string F) (response : list (option F)) k,
  k ∉ batch -> update_features features batch response !! k = features !! k.
Proof.
  unfold update_features.
  induction batch as [|tid batch IH]; intros features response k Hk; [done|].
  destruct response as [|feature response]; [done|]. cbn [zip zip_with foldl].
  apply not_elem_of_cons in Hk as [Hne Hk]. rewrite IH by done.
  destruct feature as [f|]; simpl; [by rewrite lookup_insert_ne|done].
Qed.

Lemma update_features_keys (batch : list string) :
  forall (features : gmap string F) (response : list (option F)) k,
  is_Some (update_features features batch response !! k) ->
  is_Some (features !! k) \/ k ∈ batch.
Proof.
  unfold update_features.
  induction batch as [|tid batch IH]; intros features response k; [by left|].
  destruct response as [|feature response]; [by left|]. cbn [zip zip_with foldl].
  intros Hk. apply IH in Hk as [Hk|Hk]; [|right; by apply list_elem_of_further].
  destruct feature as [f|]; simpl in Hk; [|by left].
  destruct (decide (tid = k)) as [->|Hne]; [right; apply list_elem_of_here|].
  rewrite lookup_insert_ne in Hk by done. by left.
Qed.

Lemma update_features_cat (cat : string -> option F) (batch : list string) :
  forall features : gmap string F,
  update_features features batch (cat <$> batch) = add_known cat features batch.
Proof.
  unfold update_features, add_known.
  induction batch as [|tid batch IH]; intros features; [done|].
  rewrite fmap_cons. cbn [zip zip_with foldl]. by rewrite IH.
Qed.

Lemma add_known_app (cat : string -> option F) (features : gmap string F)
    (ids ids' : list string) :
  add_known cat features (ids ++ ids') = add_known cat (add_known cat features ids) ids'.
Proof. apply foldl_app. Qed.

Lemma add_known_lookup (cat : string -> option F) (ids : list string) :
  forall (features : gmap string F) k,
  add_known cat features ids !! k
  = if decide (k ∈ ids)
    then match cat k with Some f => Some f | None => features !! k end
    else features !! k.
Proof.
  unfold add_known.
  induction ids as [|tid ids IH]; intros features k; [done|]. cbn [foldl]. rewrite IH.
  destruct (decide (k ∈ ids)) as [Hin|Hnin].
  - rewrite decide_True by (by apply list_elem_of_further).
    destruct (cat k) as [f|] eqn:Hk; [done|].
    destruct (cat tid) as [f|] eqn:Htid; [|done].
    rewrite lookup_insert_ne; [done|]. by intros ->; congruence.
  - destruct (decide (k = tid)) as [->|Hne].
    + rewrite decide_True by apply list_elem_of_here.
      destruct (cat tid) as [f|]; [by rewrite lookup_insert_eq|done].
    + rewrite decide_False by (rewrite elem_of_cons; tauto).
      destruct (cat tid) as [f|]; [by rewrite lookup_insert_ne|done].
Qed.

End features_facts.

Lemma batch_at_elem (l : list string) (i : nat) (k : string) :
  k ∈ batch_at l i -> k ∈ l.
Proof.
  unfold batch_at. intros Hk. by apply (subseteq_drop i), (subseteq_take 100).
Qed.

Section features_loop.
Context {F : Type}.
Variable audio_features : list (list string) -> list string -> list (option F) + exn.

(** One batch, by the answer of the client. *)
Lemma features_batch_spec remaining_ids i (features : gmap string F) w r w1 :
  features_batch audio_features remaining_ids i features w = (r, w1) ->
  fw_asked w1 = fw_asked w ++ [batch_at remaining_ids i] /\
  match audio_features (fw_asked w) (batch_at remaining_ids i) with
  | inl response => r = inl (update_features features (batch_at remaining_ids i) response)
  | inr e =>
      r = inr e /\
      fw_file w1 = Some {| fc_features := Some features;
                           fc_timestamp := Some (fw_clock w);
                           fc_complete := None;
                           fc_error := Some (str_exn e) |}
  end.
Proof.
  unfold features_batch. fold (batch_at remaining_ids i).
  destruct (audio_features (fw_asked w) (batch_at remaining_ids i)) as [response|e].
  - destruct (_ <? 100); by intros [= <- <-].
  - by intros [= <- <-].
Qed.

(** The loop on any client: it asks for the batches of a prefix of the
    indices, keeps the features of the ids it does not ask for, and gains
    features for ids it asks for only. *)
Lemma features_batches_any remaining_ids indices :
  forall (features : gmap string F) w r w',
  features_batches audio_features remaining_ids indices features w = (r, w') ->
  exists K features',
    K <= length indices /\
    fw_asked w' = fw_asked w ++ (batch_at remaining_ids <$> take K indices) /\
    (forall k, k ∉ remaining_ids -> features' !! k = features !! k) /\
    (forall k, is_Some (features' !! k) -> is_Some (features !! k) \/ k ∈ remaining_ids) /\
    match r with
    | inl result => result = features' /\ K = length indices
    | inr e =>
        0 < K /\
        exists now,
          fw_file w' = Some {| fc_features := Some features';
                               fc_timestamp := Some now;
                               fc_complete := None;
                               fc_error := Some (str_exn e) |}
    end.
Proof.
  induction indices as [|i indices IH]; intros features w r w'; cbn [features_batches].
  - intros [= <- <-]. exists 0, features. simpl. rewrite app_nil_r.
    split; [lia|]. split; [done|]. split; [done|]. split; [by left|done].
  - destruct (features_batch audio_features remaining_ids i features w) as [r1 w1] eqn:Hb.
    apply features_batch_spec in Hb as [Hasked Hans].
    destruct (audio_features (fw_asked w) (batch_at remaining_ids i)) as [response|e].
    + subst r1. intros Hrun.
      apply IH in Hrun as (K & features' & HK & Hasked' & Hkeep & Hkeys & Hr).
      exists (S K), features'. split; [simpl; lia|].
      split; [rewrite Hasked', Hasked, <- app_assoc; done|].
      split.
      { intros k Hk. rewrite Hkeep by done. apply update_features_other.
        intros Hin. by apply Hk, (batch_at_elem _ i). }
      split.
      { intros k Hk. apply Hkeys in Hk as [Hk|Hk]; [|by right].
        apply update_features_keys in Hk as [Hk|Hk]; [by left|].
        right. by apply (batch_at_elem _ i). }
      destruct r as [result|e]; [by destruct Hr as [-> ->]|].
      destruct Hr as [Hpos Hfile]. split; [lia|done].
    + destruct Hans as [-> Hfile]. intros [= <- <-]. exists 1, features.
      split; [simpl; lia|]. split; [done|]. split; [done|]. split; [by left|].
      split; [lia|]. eauto.
Qed.

End features_loop.

Lemma batches_concat_all (l : list string) :
  concat (batch_at l <$> range_step (length l) 100) = l.
Proof. apply (batches_from_concat 0 l). Qed.

Section features_catalogue.
Context {F : Type}.
Variable audio_features : list (list string) -> list string -> list (option F) + exn.
Variable cat : string -> option F.
Hypothesis Hcat : consistent_features audio_features cat.

(** The loop on a client that answers from the catalogue when it
    answers. *)
Lemma features_batches_cat remaining_ids indices :
  forall (features : gmap string F) w r w',
  features_batches audio_features remaining_ids indices features w = (r, w') ->
  exists K,
    K <= length indices /\
    fw_asked w' = fw_asked w ++ (batch_at remaining_ids <$> take K indices) /\
    match r with
    | inl result =>
        K = length indices /\
        result = add_known cat features (concat (batch_at remaining_ids <$> indices))
    | inr e =>
        0 < K /\
        exists now,
          fw_file w' = Some {| fc_features :=
                                 Some (add_known cat features
                                         (concat (batch_at remaining_ids
                                                    <$> take (K - 1) indices)));
                               fc_timestamp := Some now;
                               fc_complete := None;
                               fc_error := Some (str_exn e) |}
    end /\
    (serves_features audio_features cat -> exists result, r = inl result).
Proof.
  induction indices as [|i indices IH]; intros features w r w'; cbn [features_batches].
  - intros [= <- <-]. exists 0. simpl. rewrite app_nil_r.
    split; [lia|]. split; [done|]. split; [done|]. eauto.
  - destruct (features_batch audio_features remaining_ids i features w) as [r1 w1] eqn:Hb.
    apply features_batch_spec in Hb as [Hasked Hans].
    destruct (audio_features (fw_asked w) (batch_at remaining_ids i)) as [response|e] eqn:Hcall.
    + subst r1. apply Hcat in Hcall as ->. rewrite update_features_cat. intros Hrun.
      apply IH in Hrun as (K & HK & Hasked' & Hr & Hlive).
      exists (S K). split; [simpl; lia|].
      split; [rewrite Hasked', Hasked, <- app_assoc; done|].
      split; [|done].
      destruct r as [result|e].
      * destruct Hr as [-> ->]. split; [done|].
        rewrite fmap_cons. cbn [concat]. by rewrite add_known_app.
      * destruct Hr as (Hpos & now & Hfile). split; [lia|]. exists now.
        rewrite Hfile. do 3 f_equal.
        replace (S K - 1) with (S (K - 1)) by lia.
        rewrite firstn_cons, fmap_cons. cbn [concat]. by rewrite add_known_app.
    + destruct Hans as [-> Hfile]. intros [= <- <-]. exists 1.
      split; [simpl; lia|]. split; [done|].
      split; [split; [lia|]; by exists (fw_clock w)|].
      intros Hs. rewrite Hs in Hcall. done.
Qed.

(** The run on such a client, by its outcome. *)
Lemma fetch_audio_features_cat track_ids (w : FeaturesWorld F) r w' :
  fetch_audio_features audio_features track_ids w = (r, w') ->
  let base := features_at_start w in
  let remaining_ids := filter (fun tid => base !! tid = None) track_ids in
  let batches := batch_at remaining_ids <$> range_step (length remaining_ids) 100 in
  exists K,
    K <= length batches /\
    fw_asked w' = fw_asked w ++ take K batches /\
    match r with
    | inl result =>
        K = length batches /\
        result = add_known cat base remaining_ids /\
        features_at_start w' = result /\
        (remaining_ids = [] -> w' = w) /\
        (remaining_ids <> [] -> exists now,
           fw_file w' = Some {| fc_features := Some result; fc_timestamp := Some now;
                                fc_complete := Some true; fc_error := None |})
    | inr e =>
        0 < K /\
        features_at_start w' = add_known cat base (concat (take (K - 1) batches)) /\
        (fw_file w' ≫= fc_error) = Some (str_exn e)
    end /\
    (serves_features audio_features cat -> exists result, r = inl result).
Proof.
  intros Hrun base remaining_ids batches. revert Hrun.
  unfold fetch_audio_features. fold (features_at_start w). fold base. fold remaining_ids.
  assert (Hbatches : batches = batch_at remaining_ids <$> range_step (length remaining_ids) 100)
    by reflexivity.
  clearbody batches. clearbody remaining_ids.
  destruct remaining_ids as [|tid rest] eqn:Hrem.
  - intros [= <- <-]. exists 0. simpl. rewrite app_nil_r.
    split; [lia|]. split; [done|]. split; [|eauto].
    split; [by rewrite Hbatches|]. split; [done|]. split; [done|]. split; [done|]. done.
  - assert (Hne : remaining_ids <> []) by (by rewrite Hrem).
    rewrite <- Hrem in *. clear Hrem.
    destruct (features_batches _ _ _ _ _) as [r1 w1] eqn:Hloop.
    apply features_batches_cat in Hloop as (K & HK & Hasked & Hr & Hlive).
    rewrite fmap_take in Hasked, Hr. rewrite <- Hbatches in Hasked, Hr.
    assert (Hlen : length batches = length (range_step (length remaining_ids) 100))
      by (by rewrite Hbatches, length_fmap).
    destruct r1 as [result|e].
    + intros [= <- <-]. destruct Hr as [-> ->]. exists (length batches).
      split; [done|]. split.
      { simpl. rewrite Hasked. by rewrite <- Hlen. }
      split; [|eauto]. split; [done|]. rewrite Hbatches, batches_concat_all.
      split; [done|]. split; [done|]. split; [by intros Hnil|].
      intros _. by eexists.
    + intros [= <- <-]. destruct Hr as (Hpos & now & Hfile).
      exists K. split; [lia|].
      split; [done|]. split; [|done].
      split; [done|]. unfold features_at_start. rewrite Hfile. done.
Qed.

End features_catalogue.

Lemma serves_features_consistent {F}
    (audio_features : list (list string) -> list string -> list (option F) + exn)
    (cat : string -> option F) :
  serves_features audio_features cat -> consistent_features audio_features cat.
Proof. intros Hs asked batch response. rewrite Hs. by intros [= <-]. Qed.

(** The features known once the catalogue has been asked for every id
    without a feature. *)
Lemma add_known_missing_lookup {F} (cat : string -> option F) (base : gmap string F)
    (track_ids : list string) (k : string) :
  add_known cat base (filter (fun tid => base !! tid = None) track_ids) !! k
  = match base !! k with
    | Some v => Some v
    | None => if decide (k ∈ track_ids) then cat k else None
    end.
Proof.
  rewrite add_known_lookup.
  destruct (base !! k) as [v|] eqn:Hk.
  - rewrite decide_False; [done|]. rewrite list_elem_of_filter. intros [Hnone _]. congruence.
  - destruct (decide (k ∈ track_ids)) as [Hin|Hnin].
    + rewrite decide_True by (by apply list_elem_of_filter). by destruct (cat k).
    + rewrite decide_False; [done|]. rewrite list_elem_of_filter. tauto.
Qed.

Lemma add_known_nothing {F} (cat : string -> option F) (ids : list string) :
  forall features : gmap string F,
  (forall tid, tid ∈ ids -> cat tid = None) -> add_known cat features ids = features.
Proof.
  unfold add_known. induction ids as [|tid ids IH]; intros features Hnone; [done|].
  cbn [foldl]. rewrite (Hnone tid) by apply list_elem_of_here.
  apply IH. intros tid' Hin. by apply Hnone, list_elem_of_further.
Qed.

(** The run on any client, by its outcome. *)
Lemma fetch_audio_features_any {F}
    (audio_features : list (list string) -> list string -> list (option F) + exn)
    track_ids (w : FeaturesWorld F) r w' :
  fetch_audio_features audio_features track_ids w = (r, w') ->
  let base := features_at_start w in
  let remaining_ids := filter (fun tid => base !! tid = None) track_ids in
  let batches := batch_at remaining_ids <$> range_step (length remaining_ids) 100 in
  exists K features,
    K <= length batches /\
    fw_asked w' = fw_asked w ++ take K batches /\
    features_at_end (r, w') = Some features /\
    (forall k, k ∉ remaining_ids -> features !! k = base !! k) /\
    (forall k, is_Some (features !! k) -> is_Some (base !! k) \/ k ∈ remaining_ids) /\
    (forall result, r = inl result -> K = length batches).
Proof.
  intros Hrun base remaining_ids batches. revert Hrun.
  unfold fetch_audio_features. fold (features_at_start w). fold base. fold remaining_ids.
  assert (Hbatches : batches = batch_at remaining_ids <$> range_step (length remaining_ids) 100)
    by reflexivity.
  clearbody batches. clearbody remaining_ids.
  destruct remaining_ids as [|tid rest] eqn:Hrem.
  - intros [= <- <-]. exists 0, base. simpl. rewrite app_nil_r.
    split; [lia|]. split; [done|]. split; [done|]. split; [done|]. split; [by left|].
    intros _ _. by rewrite Hbatches.
  - rewrite <- Hrem in *. clear Hrem.
    destruct (features_batches _ _ _ _ _) as [r1 w1] eqn:Hloop.
    apply features_batches_any in Hloop as (K & features & HK & Hasked & Hkeep & Hkeys & Hr).
    rewrite fmap_take, <- Hbatches in Hasked.
    assert (Hlen : length batches = length (range_step (length remaining_ids) 100))
      by (by rewrite Hbatches, length_fmap).
    destruct r1 as [result|e]; intros [= <- <-]; exists K, features; (split; [lia|]).
    + destruct Hr as [-> ->]. split; [done|]. split; [done|]. split; [done|].
      split; [done|]. intros _ _. lia.
    + destruct Hr as (Hpos & now & Hfile). split; [done|].
      split; [unfold features_at_end; simpl; by rewrite Hfile|].
      split; [done|]. split; [done|]. by intros result [=].
Qed.

(** X26: whatever the client answers, [fetch_audio_features] asks only
    for ids of its argument that have no feature in the checkpoint, in
    batches of at most 100 cut in order (all of them when it returns);
    the features it ends with, returned or left in the checkpoint of a
    run that raises, contain every feature of the checkpoint unchanged
    and otherwise features of ids of its argument only. *)
Theorem fetch_audio_features_keeps_known {F}
    (audio_features : list (list string) -> list string -> list (option F) + exn)
    (track_ids : list string) (w : FeaturesWorld F) :
  let base := features_at_start w in
  let remaining_ids := filter (fun tid => base !! tid = None) track_ids in
  let batches := batch_at remaining_ids <$> range_step (length remaining_ids) 100 in
  let run := fetch_audio_features audio_features track_ids w in
  concat batches = remaining_ids /\
  Forall (fun batch => length batch <= 100) batches /\
  exists K features,
    fw_asked run.2 = fw_asked w ++ take K batches /\
    (forall result, run.1 = inl result -> K = length batches) /\
    features_at_end run = Some features /\
    base ⊆ features /\
    (forall k, is_Some (features !! k) -> is_Some (base !! k) \/ k ∈ track_ids).
Proof.
  intros base remaining_ids batches run.
  split; [apply batches_concat_all|].
  split.
  { apply Forall_fmap, Forall_forall. intros i _. simpl. unfold batch_at.
    rewrite length_take. lia. }
  destruct run as [r w'] eqn:Hrun. subst run.
  pose proof (fetch_audio_features_any _ _ _ _ _ Hrun) as Hany. cbv zeta in Hany.
  fold base remaining_ids batches in Hany.
  destruct Hany as (K & features & HK & Hasked & Hend & Hkeep & Hkeys & Hall).
  exists K, features. split; [done|]. split; [done|]. split; [done|]. split.
  - apply map_subseteq_spec. intros k v Hk. rewrite Hkeep; [done|].
    unfold remaining_ids. rewrite list_elem_of_filter. intros [Hnone _]. congruence.
  - intros k Hk. apply Hkeys in Hk as [Hk|Hk]; [by left|]. right.
    unfold remaining_ids in Hk. by apply list_elem_of_filter in Hk as [_ Hk].
Qed.

(** X27: on a client that answers from a catalogue, the run returns the
    features of the checkpoint together with the catalogue's feature of
    every other id of its argument, asking for all the batches; the next
    run returns the same features and asks again for exactly the ids the
    catalogue has no feature for, and for nothing, changing nothing, when
    there is no such id. *)
Theorem fetch_audio_features_from_catalogue {F}
    (audio_features : list (list string) -> list string -> list (option F) + exn)
    (cat : string -> option F) (track_ids : list string) (w : FeaturesWorld F) :
  serves_features audio_features cat ->
  let base := features_at_start w in
  let batches_of (known : gmap string F) :=
    let remaining_ids := filter (fun tid => known !! tid = None) track_ids in
    batch_at remaining_ids <$> range_step (length remaining_ids) 100 in
  let run1 := fetch_audio_features audio_features track_ids w in
  let run2 := fetch_audio_features audio_features track_ids run1.2 in
  exists result,
    run1.1 = inl result /\
    (forall k, result !! k = match base !! k with
                             | Some v => Some v
                             | None => if decide (k ∈ track_ids) then cat k else None
                             end) /\
    fw_asked run1.2 = fw_asked w ++ batches_of base /\
    run2.1 = inl result /\
    fw_asked run2.2 = fw_asked run1.2 ++ batches_of result /\
    (forall tid, tid ∈ concat (batches_of result) -> cat tid = None) /\
    ((forall tid, tid ∈ track_ids -> is_Some (cat tid) \/ is_Some (base !! tid)) ->
     run2.2 = run1.2).
Proof.
  intros Hs base batches_of run1 run2.
  pose proof (serves_features_consistent _ _ Hs) as Hc.
  destruct run1 as [r1 w1] eqn:Hrun1. subst run1. cbn [snd] in run2.
  destruct run2 as [r2 w2] eqn:Hrun2. subst run2. cbn [fst snd].
  pose proof (fetch_audio_features_cat _ _ Hc _ _ _ _ Hrun1) as H1. cbv zeta in H1.
  destruct H1 as (K1 & _ & Hasked1 & Hr1 & Hlive1).
  destruct (Hlive1 Hs) as [result ->].
  destruct Hr1 as (-> & Hres & Hstart1 & _). rewrite firstn_all in Hasked1.
  pose proof (fetch_audio_features_cat _ _ Hc _ _ _ _ Hrun2) as H2. cbv zeta in H2.
  rewrite Hstart1 in H2.
  destruct H2 as (K2 & _ & Hasked2 & Hr2 & Hlive2).
  destruct (Hlive2 Hs) as [result2 ->].
  destruct Hr2 as (-> & Hres2 & _ & Hsame & _). rewrite firstn_all in Hasked2.
  assert (Hlookup : forall k, result !! k = match base !! k with
                                            | Some v => Some v
                                            | None => if decide (k ∈ track_ids)
                                                      then cat k else None
                                            end).
  { intros k. rewrite Hres. apply add_known_missing_lookup. }
  assert (Hnone : forall tid, tid ∈ filter (fun tid => result !! tid = None) track_ids ->
                              cat tid = None).
  { intros tid [Hn Hin]%list_elem_of_filter. rewrite Hlookup in Hn.
    destruct (base !! tid); [done|]. by rewrite decide_True in Hn. }
  exists result. split; [done|]. split; [done|]. split; [done|].
  split; [by rewrite Hres2, add_known_nothing|]. split; [done|].
  split.
  - intros tid Htid. apply Hnone. unfold batches_of in Htid.
    by rewrite batches_concat_all in Htid.
  - intros Hall. apply Hsame.
    destruct (filter (fun tid => result !! tid = None) track_ids) as [|tid rest] eqn:Hrem;
      [done|].
    assert (Hin : tid ∈ tid :: rest) by apply list_elem_of_here.
    pose proof (Hnone tid Hin) as Hcat. rewrite <- Hrem in Hin.
    apply list_elem_of_filter in Hin as [Hn Hin]. rewrite Hlookup in Hn.
    destruct (Hall tid Hin) as [[f Hf]|[v Hv]]; [congruence|]. by rewrite Hv in Hn.
Qed.

Lemma fetch_audio_features_from_catalogue_witness :
  let track_ids := sample_ids 3 ++ ["x"] in
  let w := empty_features_world in
  let base := features_at_start w in
  let batches_of (known : gmap string nat) :=
    let remaining_ids := filter (fun tid => known !! tid = None) track_ids in
    batch_at remaining_ids <$> range_step (length remaining_ids) 100 in
  let run1 := fetch_audio_features sample_features track_ids w in
  let run2 := fetch_audio_features sample_features track_ids run1.2 in
  exists result,
    run1.1 = inl result /\
    (forall k, result !! k = match base !! k with
                             | Some v => Some v
                             | None => if decide (k ∈ track_ids) then sample_cat k else None
                             end) /\
    fw_asked run1.2 = fw_asked w ++ batches_of base /\
    run2.1 = inl result /\
    fw_asked run2.2 = fw_asked run1.2 ++ batches_of result /\
    (forall tid, tid ∈ concat (batches_of result) -> sample_cat tid = None) /\
    ((forall tid, tid ∈ track_ids -> is_Some (sample_cat tid) \/ is_Some (base !! tid)) ->
     run2.2 = run1.2).
Proof.
  apply (fetch_audio_features_from_catalogue sample_features sample_cat
           (sample_ids 3 ++ ["x"]) empty_features_world).
  intros asked batch. reflexivity.
Defined.

Lemma elem_of_concat_2 {A} (x : A) (l : list A) (ls : list (list A)) :
  l ∈ ls -> x ∈ l -> x ∈ concat ls.
Proof.
  induction ls as [|l' ls IH]; [by intros ?%elem_of_nil|].
  rewrite elem_of_cons. simpl. rewrite elem_of_app. intros [->|Hin] Hx; [by left|].
  right. by apply IH.
Qed.

(** X28: a run that raises leaves in the checkpoint, beside the error,
    the features it started from and those of the batches answered
    before the failure: when the batch numbered [K] is the one that
    failed, the checkpoint holds the features known once the catalogue
    has been asked for the ids of the [K - 1] batches before it, and
    nothing else; the next run, on a client that answers from the same
    catalogue, asks for no id that has a feature by then and returns
    exactly what a run without the failure would have returned. *)
Theorem fetch_audio_features_resumed {F}
    (failing answering : list (list string) -> list string -> list (option F) + exn)
    (cat : string -> option F) (track_ids : list string) (w : FeaturesWorld F) (e : exn) :
  consistent_features failing cat ->
  serves_features answering cat ->
  (fetch_audio_features failing track_ids w).1 = inr e ->
  let base := features_at_start w in
  let remaining_ids := filter (fun tid => base !! tid = None) track_ids in
  let batches := batch_at remaining_ids <$> range_step (length remaining_ids) 100 in
  let w1 := (fetch_audio_features failing track_ids w).2 in
  let resumed := fetch_audio_features answering track_ids w1 in
  let whole := fetch_audio_features answering track_ids w in
  (fw_file w1 ≫= fc_error) = Some (str_exn e) /\
  features_at_start w ⊆ features_at_start w1 /\
  (exists K,
     0 < K <= length batches /\
     fw_asked w1 = fw_asked w ++ take K batches /\
     features_at_start w1 = add_known cat base (concat (take (K - 1) batches)) /\
     forall k, features_at_start w1 !! k
               = match base !! k with
                 | Some v => Some v
                 | None => if decide (k ∈ concat (take (K - 1) batches))
                           then cat k else None
                 end) /\
  (exists result, resumed.1 = inl result /\ whole.1 = inl result) /\
  (forall batch tid,
     batch ∈ drop (length (fw_asked w1)) (fw_asked resumed.2) -> tid ∈ batch ->
     features_at_start w1 !! tid = None /\ tid ∈ track_ids).
Proof.
  intros Hc Hs Hraise base remaining_ids batches w1 resumed whole.
  pose proof (serves_features_consistent _ _ Hs) as Hcs.
  destruct (fetch_audio_features failing track_ids w) as [r1 w1'] eqn:Hrun1.
  cbn [fst] in Hraise. subst r1. cbn [snd] in w1. subst w1.
  destruct resumed as [r2 w2] eqn:Hrun2. subst resumed.
  destruct whole as [r3 w3] eqn:Hrun3. subst whole. cbn [fst snd].
  pose proof (fetch_audio_features_cat _ _ Hc _ _ _ _ Hrun1) as H1. cbv zeta in H1.
  fold base remaining_ids batches in H1.
  destruct H1 as (K & HK & Hasked1 & (Hpos & Hstart1 & Herr) & _).
  set (done_ids := concat (take (K - 1) batches)) in *.
  assert (Hdone : forall k, k ∈ done_ids -> base !! k = None /\ k ∈ track_ids).
  { intros k Hk. apply (list_elem_of_filter (fun tid => base !! tid = None)).
    fold remaining_ids. destruct (concat_take_prefix (K - 1) batches) as [rest Hrest].
    unfold batches in Hrest at 1. rewrite batches_concat_all in Hrest.
    fold done_ids in Hrest. rewrite Hrest. apply elem_of_app. by left. }
  pose proof (fetch_audio_features_cat _ _ Hcs _ _ _ _ Hrun2) as H2. cbv zeta in H2.
  destruct H2 as (K2 & _ & Hasked2 & Hr2 & Hlive2).
  destruct (Hlive2 Hs) as [result2 ->]. destruct Hr2 as (-> & Hres2 & _).
  rewrite firstn_all in Hasked2.
  pose proof (fetch_audio_features_cat _ _ Hcs _ _ _ _ Hrun3) as H3. cbv zeta in H3.
  fold base remaining_ids in H3.
  destruct H3 as (K3 & _ & _ & Hr3 & Hlive3).
  destruct (Hlive3 Hs) as [result3 ->]. destruct Hr3 as (_ & Hres3 & _).
  split; [done|]. split; [|split; [|split]].
  - apply map_subseteq_spec. intros k v Hk. rewrite Hstart1, add_known_lookup.
    rewrite decide_False; [done|]. intros Hin. apply Hdone in Hin as [Hn _].
    fold base in Hk. congruence.
  - exists K. split; [lia|]. split; [done|]. split; [done|].
    intros k. rewrite Hstart1, add_known_lookup. fold done_ids.
    destruct (decide (k ∈ done_ids)) as [Hin|Hnin].
    + destruct (Hdone k Hin) as [-> _]. by destruct (cat k).
    + by destruct (base !! k).
  - exists result2. split; [done|]. f_equal. apply map_eq. intros k.
    rewrite Hres3, Hres2. unfold remaining_ids.
    rewrite !add_known_missing_lookup, Hstart1, add_known_lookup.
    destruct (decide (k ∈ done_ids)) as [Hin|Hnin]; [|done].
    destruct (Hdone k Hin) as [Hn Htr]. rewrite Hn, decide_True by done.
    by destruct (cat k).
  - intros batch tid Hbatch Htid. rewrite Hasked2, drop_app_length in Hbatch.
    apply (list_elem_of_filter (fun tid => features_at_start w1' !! tid = None)).
    rewrite <- (batches_concat_all (filter _ track_ids)).
    by apply (elem_of_concat_2 _ batch).
Qed.

Lemma fetch_audio_features_resumed_witness :
  let failing := sample_features_failing 1 (Exception "reset") in
  let track_ids := sample_ids 150 in
  let w := empty_features_world in
  let base := features_at_start w in
  let remaining_ids := filter (fun tid => base !! tid = None) track_ids in
  let batches := batch_at remaining_ids <$> range_step (length remaining_ids) 100 in
  let w1 := (fetch_audio_features failing track_ids w).2 in
  let resumed := fetch_audio_features sample_features track_ids w1 in
  let whole := fetch_audio_features sample_features track_ids w in
  (fw_file w1 ≫= fc_error) = Some (str_exn (Exception "reset")) /\
  features_at_start w ⊆ features_at_start w1 /\
  (exists K,
     0 < K <= length batches /\
     fw_asked w1 = fw_asked w ++ take K batches /\
     features_at_start w1 = add_known sample_cat base (concat (take (K - 1) batches)) /\
     forall k, features_at_start w1 !! k
               = match base !! k with
                 | Some v => Some v
                 | None => if decide (k ∈ concat (take (K - 1) batches))
                           then sample_cat k else None
                 end) /\
  (exists result, resumed.1 = inl result /\ whole.1 = inl result) /\
  (forall batch tid,
     batch ∈ drop (length (fw_asked w1)) (fw_asked resumed.2) -> tid ∈ batch ->
     features_at_start w1 !! tid = None /\ tid ∈ track_ids).
Proof.
  apply (fetch_audio_features_resumed (sample_features_failing 1 (Exception "reset"))
           sample_features sample_cat (sample_ids 150) empty_features_world
           (Exception "reset")).
  - intros asked batch response. unfold sample_features_failing.
    destruct (decide (length asked = 1)); [done|]. by intros [= <-].
  - intros asked batch. reflexivity.
  - vm_compute. reflexivity.
Defined.

(** ** The overlap statistics *)

Lemma location_cases (sources : list string) :
  (location sources = "both" /\ 1 < length sources) \/
  (location sources = "only_p1" /\ sources = ["playlist_1"]) \/
  (location sources = "only_p2" /\ length sources <= 1 /\ sources <> ["playlist_1"]).
Proof.
  unfold location. destruct (1 <? length sources) eqn:Hlen.
  - left. apply Nat.ltb_lt in Hlen. done.
  - right. apply Nat.ltb_ge in Hlen.
    destruct (decide (head sources = Some "playlist_1")) as [Hhead|Hhead].
    + left. split; [done|]. destruct sources as [|s [|s' sources]]; simpl in *; [done| |lia].
      by injection Hhead as ->.
    + right. split; [done|]. split; [done|]. by intros ->.
Qed.

Lemma length_filter_fmap {A B} (f : A -> B) (P : B -> Prop) `{!forall y, Decision (P y)}
    (l : list A) :
  length (filter P (f <$> l)) = length (filter (fun x => P (f x)) l).
Proof.
  induction l as [|x l IH]; [done|]. rewrite fmap_cons, !filter_cons.
  destruct (decide (P (f x))); simpl; by rewrite IH.
Qed.

Lemma length_filter_absent {A} `{EqDecision A} (x : A) (l : list A) :
  x ∉ l -> length (filter (fun y => y = x) l) = 0.
Proof.
  intros Hx. induction l as [|y l IH]; [done|].
  apply not_elem_of_cons in Hx as [Hne Hx]. rewrite filter_cons_False by done. by apply IH.
Qed.

(** The loop over the rows of the result: every counter ends at the
    count of its location. *)
Lemma overlap_fold (c : string -> nat) (locations : list string) (o : overlap) :
  Forall (fun l => l = "both" \/ l = "only_p1" \/ l = "only_p2") locations ->
  let result :=
    foldl (fun overlap row =>
             if decide (row.1 = "both") then
               {| only_p1 := only_p1 overlap; only_p2 := only_p2 overlap; in_both := row.2 |}
             else if decide (row.1 = "only_p1") then
               {| only_p1 := row.2; only_p2 := only_p2 overlap; in_both := in_both overlap |}
             else
               {| only_p1 := only_p1 overlap; only_p2 := row.2; in_both := in_both overlap |})
          o ((fun l => (l, c l)) <$> locations) in
  in_both result = (if decide ("both" ∈ locations) then c "both" else in_both o) /\
  only_p1 result = (if decide ("only_p1" ∈ locations) then c "only_p1" else only_p1 o) /\
  only_p2 result = (if decide ("only_p2" ∈ locations) then c "only_p2" else only_p2 o).
Proof.
  induction locations as [|l locations IH] using rev_ind; intros Hall result.
  - subst result. simpl. repeat split; by rewrite decide_False by apply not_elem_of_nil.
  - apply Forall_app in Hall as [Hall Hl]. rewrite Forall_singleton in Hl.
    destruct (IH Hall) as (Hb & H1 & H2). subst result.
    rewrite fmap_app, foldl_app. cbn [fmap list_fmap foldl fst snd].
    assert (Hmem : forall x, x ∈ locations ++ [l] <-> x ∈ locations \/ x = l).
    { intros x. rewrite elem_of_app, list_elem_of_singleton. done. }
    destruct Hl as [->| [->| ->]]; simpl; rewrite ?Hb, ?H1, ?H2;
      repeat split;
      repeat match goal with
             | |- context [decide (?x ∈ ?k)] =>
                 destruct (decide (x ∈ k)) as [?|?]
             end; try done;
      repeat match goal with
             | H : _ ∈ _ ++ _ |- _ => apply Hmem in H as [?|?]
             | H : ¬ (_ ∈ _ ++ _) |- _ => rewrite Hmem in H
             end; try done; try tauto.
Qed.

Lemma location_both (sources : list string) :
  location sources = "both" <-> 1 < length sources.
Proof.
  destruct (location_cases sources) as [[-> H]|[[-> H]|[-> [H H']]]];
    split; try done; try (subst; simpl; lia); lia.
Qed.

Lemma location_only_p1 (sources : list string) :
  location sources = "only_p1" <-> sources = ["playlist_1"].
Proof.
  destruct (location_cases sources) as [[-> H]|[[-> H]|[-> [H H']]]];
    split; try done; intros ->; simpl in *; lia.
Qed.

Lemma location_only_p2 (sources : list string) :
  location sources = "only_p2" <-> length sources <= 1 /\ sources <> ["playlist_1"].
Proof.
  destruct (location_cases sources) as [[-> H]|[[-> H]|[-> [H H']]]];
    split; try done; intros [? ?]; try done; lia.
Qed.

(** The counters, as counts of ids by the location of their sources. *)
Lemma get_overlap_analysis_locations (table : list row) :
  let ids := get_unique_track_ids table in
  let o := get_overlap_analysis table in
  in_both o = length (filter (fun i => location (sources_of table i) = "both") ids) /\
  only_p1 o = length (filter (fun i => location (sources_of table i) = "only_p1") ids) /\
  only_p2 o = length (filter (fun i => location (sources_of table i) = "only_p2") ids).
Proof.
  intros ids o. subst o. unfold get_overlap_analysis, overlap_rows, playlist_ids_cte.
  fold (get_unique_track_ids table). fold ids. cbv zeta.
  rewrite <- list_fmap_compose.
  set (locations := (_ ∘ _) <$> ids).
  assert (Hloc : locations = (fun i => location (sources_of table i)) <$> ids) by done.
  set (c := fun l => length (filter (fun l' => l' = l) locations)).
  assert (Hc : forall l, (if decide (l ∈ remove_dups locations) then c l else 0) = c l).
  { intros l. destruct (decide _) as [|Hnin]; [done|]. symmetry.
    apply length_filter_absent. by rewrite elem_of_remove_dups in Hnin. }
  assert (Hcount : forall l,
            c l = length (filter (fun i => location (sources_of table i) = l) ids)).
  { intros l. unfold c. rewrite Hloc. apply length_filter_fmap. }
  destruct (overlap_fold c (remove_dups locations)
              {| only_p1 := 0; only_p2 := 0; in_both := 0 |}) as (Hb & H1 & H2).
  { apply Forall_forall. intros l Hl. rewrite elem_of_remove_dups, Hloc in Hl.
    apply list_elem_of_fmap in Hl as (i & -> & _).
    destruct (location_cases (sources_of table i)) as [[-> _]|[[-> _]|[-> _]]]; tauto. }
  cbn [only_p1 only_p2 in_both] in Hb, H1, H2.
  rewrite Hc, Hcount in Hb, H1, H2. done.
Qed.

Lemma sources_of_elem (table : list row) (i s : string) :
  s ∈ sources_of table i <->
  exists r, r ∈ table /\ t_id (cols r) = i /\ playlist_source r = s.
Proof.
  unfold sources_of. rewrite elem_of_remove_dups, list_elem_of_fmap. split.
  - intros (r & -> & [Hi Hr]%list_elem_of_filter). eauto.
  - intros (r & Hr & Hi & <-). exists r. split; [done|]. by apply list_elem_of_filter.
Qed.

Lemma sources_of_nonempty (table : list row) (i : string) :
  i ∈ get_unique_track_ids table -> sources_of table i <> [].
Proof.
  unfold get_unique_track_ids. rewrite elem_of_remove_dups, list_elem_of_fmap.
  intros (r & -> & Hr) Hnil.
  assert (Hin : playlist_source r ∈ sources_of table (t_id (cols r)))
    by (apply sources_of_elem; eauto).
  rewrite Hnil in Hin. by apply elem_of_nil in Hin.
Qed.

Lemma length_filter_none {A} (P : A -> Prop) `{!forall x, Decision (P x)} (l : list A) :
  (forall x, x ∈ l -> ~ P x) -> length (filter P l) = 0.
Proof.
  induction l as [|x l IH]; intros Hnone; [done|].
  rewrite filter_cons_False by (apply Hnone, list_elem_of_here).
  apply IH. intros y Hy. by apply Hnone, list_elem_of_further.
Qed.

(** The counters, by the sources of the ids. *)
Lemma get_overlap_analysis_by_sources (table : list row) :
  let ids := get_unique_track_ids table in
  let o := get_overlap_analysis table in
  in_both o = length (filter (fun i => 1 < length (sources_of table i)) ids) /\
  only_p1 o = length (filter (fun i => sources_of table i = ["playlist_1"]) ids) /\
  only_p2 o = length (filter (fun i => length (sources_of table i) = 1 /\
                                       sources_of table i <> ["playlist_1"]) ids) /\
  only_p1 o + only_p2 o + in_both o = length ids /\
  ((forall r, r ∈ table -> playlist_source r <> "playlist_1") ->
   only_p1 o = 0 /\
   only_p2 o = length (filter (fun i => length (sources_of table i) = 1) ids)).
Proof.
  intros ids o.
  destruct (get_overlap_analysis_locations table) as (Hb & H1 & H2).
  fold ids o in Hb, H1, H2.
  assert (Hb' : in_both o = length (filter (fun i => 1 < length (sources_of table i)) ids)).
  { rewrite Hb. f_equal. apply filter_ext_elem. intros i _. apply location_both. }
  assert (H1' : only_p1 o = length (filter (fun i => sources_of table i = ["playlist_1"]) ids)).
  { rewrite H1. f_equal. apply filter_ext_elem. intros i _. apply location_only_p1. }
  assert (H2' : only_p2 o = length (filter (fun i => length (sources_of table i) = 1 /\
                                              sources_of table i <> ["playlist_1"]) ids)).
  { rewrite H2. f_equal. apply filter_ext_elem. intros i Hi. rewrite location_only_p2.
    pose proof (sources_of_nonempty table i Hi) as Hne.
    destruct (sources_of table i) as [|s l]; [done|]. simpl. split; intros [? ?]; split;
      try done; lia. }
  split; [done|]. split; [done|]. split; [done|]. split.
  - rewrite H1, H2, Hb. clear. induction ids as [|i ids IH]; [done|].
    rewrite !filter_cons.
    destruct (location_cases (sources_of table i)) as [[-> _]|[[-> _]|[-> _]]];
      simpl; lia.
  - intros Hnone. split.
    + rewrite H1'. apply length_filter_none. intros i _ Hs.
      assert (Hin : "playlist_1" ∈ sources_of table i)
        by (rewrite Hs; apply list_elem_of_here).
      apply sources_of_elem in Hin as (r & Hr & _ & Hsrc). by apply (Hnone r).
    + rewrite H2'. f_equal. apply filter_ext_elem. intros i _. split; [by intros [? _]|].
      intros Hlen. split; [done|]. intros Hs.
      assert (Hin : "playlist_1" ∈ sources_of table i)
        by (rewrite Hs; apply list_elem_of_here).
      apply sources_of_elem in Hin as (r & Hr & _ & Hsrc). by apply (Hnone r).
Qed.

(** X29: [get_overlap_analysis] puts every id of the table under exactly
    one counter: [in_both] counts the ids with two or more sources,
    [only_p1] the ids whose one source is the tag [playlist_1] itself, and
    [only_p2] every other id with one source, whatever that source is; so
    the counters add up to the number of distinct ids, and [only_p1] is 0
    on a table with no row of the source [playlist_1]. *)
Theorem get_overlap_analysis_counts (table : list row) :
  let ids := get_unique_track_ids table in
  let o := get_overlap_analysis table in
  in_both o = length (filter (fun i => 1 < length (sources_of table i)) ids) /\
  only_p1 o = length (filter (fun i => sources_of table i = ["playlist_1"]) ids) /\
  only_p2 o = length (filter (fun i => length (sources_of table i) = 1 /\
                                       sources_of table i <> ["playlist_1"]) ids) /\
  only_p1 o + only_p2 o + in_both o = length ids /\
  ((forall r, r ∈ table -> playlist_source r <> "playlist_1") ->
   only_p1 o = 0 /\
   only_p2 o = length (filter (fun i => length (sources_of table i) = 1) ids)).
Proof. apply get_overlap_analysis_by_sources. Qed.

Lemma get_overlap_analysis_counts_witness :
  let table := tracks merge_sample_world in
  let o := get_overlap_analysis table in
  only_p1 o = 0 /\
  only_p2 o = length (filter (fun i => length (sources_of table i) = 1)
                        (get_unique_track_ids table)).
Proof.
  apply (proj2 (proj2 (proj2 (proj2
           (get_overlap_analysis_counts (tracks merge_sample_world)))))).
  intros r Hr. vm_compute in Hr.
  repeat (apply elem_of_cons in Hr as [->|Hr]; [done|]). by apply elem_of_nil in Hr.
Defined.

(** ** The counts of the dry-run report *)

Lemma entries_of_count (table : list row) (s : string) :
  entries_of (get_track_count table) s
  = Z.of_nat (length (filter (fun r => playlist_source r = s) table)).
Proof.
  unfold entries_of, get_track_count.
  assert (Hkeys : forall k, k ∈ remove_dups (playlist_source <$> table) ->
                            k ∈ playlist_source <$> table)
    by (intros k; by rewrite elem_of_remove_dups).
  assert (Hs : s ∉ remove_dups (playlist_source <$> table) ->
               length (filter (fun r => playlist_source r = s) table) = 0).
  { rewrite elem_of_remove_dups. intros Hnin. apply length_filter_none.
    intros r Hr Hsrc. apply Hnin. rewrite <- Hsrc. by apply list_elem_of_fmap_2. }
  revert Hs. clear Hkeys.
  induction (remove_dups (playlist_source <$> table)) as [|k keys IH]; intros Hs.
  - simpl. rewrite Hs; [done|apply not_elem_of_nil].
  - rewrite fmap_cons, filter_cons. cbn [sc_playlist_source].
    destruct (decide (k = s)) as [->|Hne]; [done|].
    apply IH. intros Hnin. apply Hs. by apply not_elem_of_cons.
Qed.

(** The counts of the report on any table. *)
Lemma generate_dry_run_report_table (table : list row) :
  let rep := generate_dry_run_report table in
  let rows_of s := Z.of_nat (length (filter (fun r => playlist_source r = s) table)) in
  playlist_1_entries rep = rows_of "playlist_1" /\
  playlist_2_entries rep = rows_of "playlist_2" /\
  total_entries rep = (rows_of "playlist_1" + rows_of "playlist_2")%Z /\
  unique_tracks rep = Z.of_nat (length (get_unique_track_ids table)) /\
  duplicates_removed rep = (total_entries rep - unique_tracks rep)%Z /\
  report_overlap rep = get_overlap_analysis table.
Proof.
  intros rep rows_of. subst rep. unfold generate_dry_run_report.
  cbn [playlist_1_entries playlist_2_entries total_entries unique_tracks
       duplicates_removed report_overlap].
  rewrite !entries_of_count. done.
Qed.

(** Rows of two sources only are counted under one or the other. *)
Lemma length_two_sources (table : list row) (s1 s2 : string) :
  s1 <> s2 ->
  (forall r, r ∈ table -> playlist_source r = s1 \/ playlist_source r = s2) ->
  length (filter (fun r => playlist_source r = s1) table)
  + length (filter (fun r => playlist_source r = s2) table) = length table.
Proof.
  intros Hne. induction table as [|r table IH]; intros Hall; [done|].
  rewrite !filter_cons.
  specialize (IH (fun r' Hr' => Hall r' (list_elem_of_further _ _ _ Hr'))).
  destruct (Hall r (list_elem_of_here _ _)) as [Hr|Hr];
    destruct (decide (playlist_source r = s1)), (decide (playlist_source r = s2));
    simpl; try lia; congruence.
Qed.

(** X30: the dry-run report read after an ingestion run.  The run tags
    every row with the id of its playlist, and the report counts the rows
    tagged [playlist_1] and [playlist_2] only.  When the playlists
    ingested have just these ids, [total_entries] is the number of rows
    and [duplicates_removed] the rows beyond one per distinct id; when
    neither id is among them, [total_entries] is 0, [duplicates_removed]
    is minus the number of distinct ids, and [only_p1] is 0, every id
    being counted under [only_p2] or [in_both]. *)
Theorem dry_run_report_after_ingest (sp : Spotify) (playlist_ids : list string)
    (w : World) (u : string) :
  sp_current_user sp (requests w) = inl u ->
  let table := tracks (ingest_main sp playlist_ids w).2 in
  let rep := generate_dry_run_report table in
  let unique := length (get_unique_track_ids table) in
  unique_tracks rep = Z.of_nat unique /\
  Forall (fun r => playlist_source r ∈ playlist_ids) table /\
  ((forall p, p ∈ playlist_ids -> p = "playlist_1" \/ p = "playlist_2") ->
   total_entries rep = Z.of_nat (length table) /\
   duplicates_removed rep = (Z.of_nat (length table) - Z.of_nat unique)%Z /\
   (0 <= duplicates_removed rep)%Z) /\
  ("playlist_1" ∉ playlist_ids -> "playlist_2" ∉ playlist_ids ->
   total_entries rep = 0%Z /\
   duplicates_removed rep = (- Z.of_nat unique)%Z /\
   only_p1 (report_overlap rep) = 0 /\
   only_p2 (report_overlap rep) + in_both (report_overlap rep) = unique).
Proof.
  intros Hu table rep unique.
  assert (Hsrc : Forall (fun r => playlist_source r ∈ playlist_ids) table).
  { subst table. rewrite (ingest_main_clears sp playlist_ids w u Hu).
    destruct (ingest_playlists_spec sp playlist_ids
                (set_tracks [] (set_requests (requests w ++ [CurrentUser]) w)))
      as (added & _ & -> & Hadded).
    done. }
  destruct (generate_dry_run_report_table table) as (Hp1 & Hp2 & Htot & Huniq & Hdup & Hov).
  fold rep in Hp1, Hp2, Htot, Huniq, Hdup, Hov. fold unique in Huniq.
  rewrite Forall_forall in Hsrc.
  split; [done|]. split; [by apply Forall_forall|]. split.
  - intros Hids.
    assert (Hlen : length (filter (fun r => playlist_source r = "playlist_1") table)
                   + length (filter (fun r => playlist_source r = "playlist_2") table)
                   = length table).
    { apply length_two_sources; [done|]. intros r Hr. by apply Hids, Hsrc. }
    assert (Hle : unique <= length table).
    { unfold unique, get_unique_track_ids.
      etrans; [apply length_remove_dups_le|]. by rewrite length_fmap. }
    rewrite Hdup, Huniq, Htot. lia.
  - intros Hn1 Hn2.
    assert (Hz : forall s, s ∉ playlist_ids ->
                 length (filter (fun r => playlist_source r = s) table) = 0).
    { intros s Hs. apply length_filter_none. intros r Hr Hsrc'. apply Hs.
      rewrite <- Hsrc'. by apply Hsrc. }
    rewrite Hdup, Huniq, Htot, !Hz by done.
    destruct (get_overlap_analysis_by_sources table) as (_ & _ & _ & Hsum & Hnone).
    destruct Hnone as [Hzero _].
    { intros r Hr Hsrc'. apply Hn1. rewrite <- Hsrc'. by apply Hsrc. }
    rewrite Hov. fold unique in Hsum. rewrite Hzero in Hsum.
    split; [done|]. split; [lia|]. split; [done|]. lia.
Qed.

Lemma dry_run_report_after_ingest_witness :
  let table := tracks (ingest_main (stable_remote (fun _ => sample_items 3)) ["A"; "B"]
                         empty_world).2 in
  let rep := generate_dry_run_report table in
  let unique := length (get_unique_track_ids table) in
  total_entries rep = 0%Z /\
  duplicates_removed rep = (- Z.of_nat unique)%Z /\
  only_p1 (report_overlap rep) = 0 /\
  only_p2 (report_overlap rep) + in_both (report_overlap rep) = unique.
Proof.
  apply (proj2 (proj2 (proj2
           (dry_run_report_after_ingest (stable_remote (fun _ => sample_items 3)) ["A"; "B"]
              empty_world "user" eq_refl)))).
  - intros Hin. repeat (apply elem_of_cons in Hin as [?|Hin]; [done|]).
    by apply elem_of_nil in Hin.
  - intros Hin. repeat (apply elem_of_cons in Hin as [?|Hin]; [done|]).
    by apply elem_of_nil in Hin.
Defined.
